(** * pipe: a shallow embedding of the streaming pipeline and its adapters

    The development follows the layout of the Go repository:

    - [Core]    : errors, byte slices and [Region] (pipe.go)
    - [Buffer]  : the channel-backed buffer pool (io/buffer.go)
    - [Source]  : the reader-backed producer (io/source.go)
    - [Sink]    : the single-writer consumer (io/write.go, [sink.Read])
    - [Pool]    : the writer-pool consumer (io/write.go, [pool.Read])
    - [Fan]     : the fan-out / fan-in combinator (source.go)
    - [Pipe]    : wiring and completion arbitration (pipe.go)

    Sequential code is embedded as executable functions that thread the state
    of the collaborators (reader, writer, buffer pool) and record what the
    stage does to its channels.  Code that spawns goroutines is embedded as an
    executable small-step machine driven by an explicit schedule. *)

From Stdlib Require Import ZArith Lia.
From Stdlib.Strings Require Import Byte.
From stdpp Require Import base list strings.

Local Open Scope Z_scope.

(* ====================================================================== *)
(** * Core data: errors, byte slices, regions *)
(* ====================================================================== *)

Module Core.

(** Go's [error] values that the pipeline distinguishes.  A nil [error] is
    [None : option error].  [Wrapf msg e] is [fmt.Errorf(msg + ": %w", e)]. *)
Inductive error : Type :=
| EOF
| Canceled
| DeadlineExceeded
| ErrorString (msg : string)
| Wrapf (msg : string) (e : error).

(** [errors.Is(err, io.EOF)]: follows the chain of wrapped errors. *)
Fixpoint is_EOF (e : error) : bool :=
  match e with
  | EOF => true
  | Wrapf _ e' => is_EOF e'
  | _ => false
  end.

(** [errors.Is(err, io.EOF)] on a possibly nil error. *)
Definition errors_Is_EOF (err : option error) : bool :=
  match err with
  | Some e => is_EOF e
  | None => false
  end.

Definition bytes : Type := list byte.

(** [make([]byte, n)]: a zeroed slice; the runtime panics on a negative
    length, which is [None] here. *)
Definition make_bytes (n : Z) : option bytes :=
  if n <? 0 then None else Some (replicate (Z.to_nat n) x00).

(** [type Region struct { Data []byte; Off int64 }] *)
Record Region : Type := mkRegion { Data : bytes; Off : Z }.

(** Two's complement wrap-around of [int64] arithmetic. *)
Definition wrap64 (z : Z) : Z := (z + 2 ^ 63) mod 2 ^ 64 - 2 ^ 63.

Definition int64_add (a b : Z) : Z := wrap64 (a + b).

Definition in_int64 (z : Z) : Prop := - 2 ^ 63 <= z < 2 ^ 63.

(** [len(s)] as a Go [int]. *)
Definition len {A} (s : list A) : Z := Z.of_nat (length s).

End Core.

Export Core.

(* ====================================================================== *)
(** * io/buffer.go: the buffer pool *)
(* ====================================================================== *)

Module Buffer.

(** [type Buffer interface { Put(buff []byte); Get() []byte }].
    The receiver is threaded explicitly; [Get] yields [None] when the call
    panics. *)
Class Buffer (B : Type) : Type := {
  Put : B → bytes → B;
  Get : B → option (bytes * B)
}.

(** [type pooledBuffer struct { pool chan []byte; size int }].
    The buffered channel is its queue of pending elements (oldest first)
    together with its capacity. *)
Record pooledBuffer : Type := mkPooled {
  pool : list bytes;
  pool_cap : Z;
  size : Z
}.

(** [NewBuffer(bufferSize, poolSize)]; [make(chan []byte, poolSize)] panics
    on a negative capacity. *)
Definition NewBuffer (bufferSize poolSize : Z) : option pooledBuffer :=
  if poolSize <? 0 then None
  else Some {| pool := []; pool_cap := poolSize; size := bufferSize |}.

(** [select { case b.pool <- buff: default: }].  No receiver ever waits on
    [b.pool] ([Get] polls), so the send case is ready exactly when the
    channel's buffer has a free slot. *)
Definition pooled_Put (b : pooledBuffer) (buff : bytes) : pooledBuffer :=
  if len (pool b) <? pool_cap b
  then {| pool := pool b ++ [buff]; pool_cap := pool_cap b; size := size b |}
  else b.

(** [select { case buff := <-b.pool: return buff; default: return make([]byte, b.size) }] *)
Definition pooled_Get (b : pooledBuffer) : option (bytes * pooledBuffer) :=
  match pool b with
  | buff :: rest =>
      Some (buff, {| pool := rest; pool_cap := pool_cap b; size := size b |})
  | [] =>
      match make_bytes (size b) with
      | Some fresh => Some (fresh, b)
      | None => None
      end
  end.

#[export] Instance pooledBuffer_Buffer : Buffer pooledBuffer :=
  {| Put := pooled_Put; Get := pooled_Get |}.

(** A caller's use of the pool: any interleaving of [Get] and [Put]. *)
Inductive op : Type :=
| OpGet
| OpPut (buff : bytes).

(** The buffers handed to [Put] by a sequence of operations. *)
Fixpoint puts_of (ops : list op) : list bytes :=
  match ops with
  | [] => []
  | OpGet :: ops' => puts_of ops'
  | OpPut buff :: ops' => buff :: puts_of ops'
  end.

(** Runs the operations in order and collects what each [Get] returned. *)
Fixpoint run_ops (b : pooledBuffer) (ops : list op)
  : option (list bytes * pooledBuffer) :=
  match ops with
  | [] => Some ([], b)
  | OpGet :: ops' =>
      match pooled_Get b with
      | Some (x, b') =>
          match run_ops b' ops' with
          | Some (xs, b'') => Some (x :: xs, b'')
          | None => None
          end
      | None => None
      end
  | OpPut buff :: ops' => run_ops (pooled_Put b buff) ops'
  end.

End Buffer.

(* ====================================================================== *)
(** * io/source.go: the reader-backed producer *)
(* ====================================================================== *)

Module Source.
Import Buffer.

(** The sequential-read capability, [reader.Read(p) (n int, err error)],
    of the [bufio.Reader] that [Write] wraps around [b.r].  A call with
    [len(p) = k] yields the bytes stored into [p[:n]] and the error;
    [Read_le] is the [io.Reader] contract [0 <= n <= len(p)], by which the
    slice expression [data[:n]] is in range. *)
Class Reader (R : Type) : Type := {
  Read : R → nat → (bytes * option error) * R;
  Read_le : ∀ (rd : R) (k : nat), (length (Read rd k).1.1 ≤ k)%nat
}.

(** What the rest of the run does for the producer.  [ctx_Err it] is the
    answer of [ctx.Err()] at the head of iteration [it]; [receives it]
    tells whether the stage downstream takes the Region sent in iteration
    [it] (the channel is unbuffered, so the send waits for it);
    [errs_room] tells whether a send on the terminal-signal channel goes
    through. *)
Record Env : Type := mkEnv {
  ctx_Err : nat → option error;
  receives : nat → bool;
  errs_room : bool
}.

(** The slice [p] after a read stored [bs] at its front. *)
Definition overwrite (p bs : bytes) : bytes := bs ++ drop (length bs) p.

(** What [source.Write] does to the outside world, in program order. *)
Inductive event : Type :=
| EvRead (bs : bytes) (err : option error)   (* reader.Read returned (len bs, err) *)
| EvEmit (rg : Region)                       (* sink <- rg *)
| EvSend (err : option error)                (* errs <- err *)
| EvClose.                                   (* close(sink) *)

Inductive exit : Type :=
| Returned      (* the function returned *)
| Panicked      (* b.buff.Get() panicked *)
| Blocked       (* waiting for ever in a send *)
| OutOfFuel.    (* the loop is still running *)

Section WithCollaborators.
Context {R B : Type} `{Reader R} `{Buffer B}.

(** [type source struct { r io.Reader; off int64; buff Buffer }] *)
Record source : Type := mkSource { r : R; off : Z; buff : B }.

(** [func Source(r io.Reader, off int64, buff Buffer) pipe.Source] *)
Definition Source (rd : R) (o : Z) (b : B) : source :=
  {| r := rd; off := o; buff := b |}.

(** The body of [for !done || ctx.Err() != nil { ... }]; [it] counts the
    iterations already made.  Every way out of the function passes through
    the deferred [close(sink)]. *)
Fixpoint Write_loop (env : Env) (fuel it : nat) (done : bool) (s : source)
  : list event * exit * source :=
  match fuel with
  | O => ([], OutOfFuel, s)
  | S fuel' =>
      if negb done || bool_decide (is_Some (ctx_Err env it)) then
        match Get (buff s) with
        | None => ([EvClose], Panicked, s)
        | Some (data, b') =>
            let '((bs, err), rd') := Read (r s) (length data) in
            let n := len bs in
            let data' := overwrite data bs in
            let s1 := {| r := rd'; off := off s; buff := b' |} in
            let failed :=
              if errs_room env
              then ([EvRead bs err; EvSend err; EvClose], Returned, s1)
              else ([EvRead bs err], Blocked, s1) in
            let continue (done' : bool) :=
              if n =? 0 then ([EvRead bs err; EvClose], Returned, s1)
              else if receives env it then
                let rg := {| Data := take (Z.to_nat n) data'; Off := off s |} in
                let s2 := {| r := rd'; off := int64_add (off s) n; buff := b' |} in
                let '(tr, ex, s') := Write_loop env fuel' (S it) done' s2 in
                (EvRead bs err :: EvEmit rg :: tr, ex, s')
              else ([EvRead bs err], Blocked, s1) in
            if bool_decide (is_Some err) && negb (errors_Is_EOF err) then failed
            else if errors_Is_EOF err || (n =? 0) then continue true
            else if bool_decide (is_Some err) then failed
            else continue done
        end
      else ([EvClose], Returned, s)
  end.

(** [func (b *source) Write(ctx, sink, errs)] *)
Definition Write (env : Env) (fuel : nat) (s : source)
  : list event * exit * source :=
  Write_loop env fuel 0 false s.

End WithCollaborators.

Arguments source : clear implicits.

(** The Regions sent on the output channel. *)
Fixpoint emitted (tr : list event) : list Region :=
  match tr with
  | [] => []
  | EvEmit rg :: tr' => rg :: emitted tr'
  | _ :: tr' => emitted tr'
  end.

(** The values sent on the terminal-signal channel. *)
Fixpoint errs_sent (tr : list event) : list (option error) :=
  match tr with
  | [] => []
  | EvSend e :: tr' => e :: errs_sent tr'
  | _ :: tr' => errs_sent tr'
  end.

(** How many times the output channel was closed. *)
Fixpoint closes (tr : list event) : nat :=
  match tr with
  | [] => O
  | EvClose :: tr' => S (closes tr')
  | _ :: tr' => closes tr'
  end.

(** A read that hands over bytes and is not an unrecoverable failure. *)
Definition productive (bs : bytes) (err : option error) : bool :=
  negb (bool_decide (is_Some err) && negb (errors_Is_EOF err)) && negb (len bs =? 0).

(** The byte strings of the productive reads, in order. *)
Fixpoint read_data (tr : list event) : list bytes :=
  match tr with
  | [] => []
  | EvRead bs err :: tr' =>
      if productive bs err then bs :: read_data tr' else read_data tr'
  | _ :: tr' => read_data tr'
  end.

(** Sum of the data lengths of a list of Regions. *)
Definition total_len (rs : list Region) : Z :=
  foldr (λ rg acc, len (Data rg) + acc) 0 rs.

(** A reader that replays a script of results, then reports end of stream.
    Each result is cut to the caller's buffer. *)
Definition script : Type := list (bytes * option error).

Definition script_Read (sc : script) (k : nat) : (bytes * option error) * script :=
  match sc with
  | [] => (([], Some EOF), [])
  | (bs, err) :: sc' => ((take k bs, err), sc')
  end.

Lemma script_Read_le (sc : script) (k : nat) :
  (length (script_Read sc k).1.1 ≤ k)%nat.
Proof.
  destruct sc as [|[bs err] sc']; simpl; [lia|].
  rewrite length_take. lia.
Defined.

#[export] Instance script_Reader : Reader script :=
  {| Read := script_Read; Read_le := script_Read_le |}.

(** A run that is never cancelled and whose sends all go through. *)
Definition background : Env :=
  {| ctx_Err := λ _, None; receives := λ _, true; errs_room := true |}.

(** A run cancelled from the start whose sends all go through. *)
Definition cancelled : Env :=
  {| ctx_Err := λ _, Some Canceled; receives := λ _, true; errs_room := true |}.

(** A 4-byte pool and a reader that yields "ABCD", then "E" together with
    end of stream, then end of stream alone. *)
Definition two_reads : source script pooledBuffer :=
  Source [([x41; x42; x43; x44], None); ([x45], Some EOF)] 100 (mkPooled [] 2 4).

(** A reader whose second read fails. *)
Definition failing_read : source script pooledBuffer :=
  Source [([x41; x42], None); ([], Some (ErrorString "read failed"))] 0
    (mkPooled [] 2 4).

(** A reader over a byte string held in memory, in the manner of
    [bytes.Reader]: a call hands over as much of what is left as the buffer
    takes, and reports end of stream, with no bytes, once nothing is
    left. *)
Record inMemory : Type := mkInMemory { left : bytes }.

Definition inMemory_Read (m : inMemory) (k : nat)
  : (bytes * option error) * inMemory :=
  match left m with
  | [] => (([], Some EOF), m)
  | _ => ((take k (left m), None), mkInMemory (drop k (left m)))
  end.

Lemma inMemory_Read_le (m : inMemory) (k : nat) :
  (length (inMemory_Read m k).1.1 ≤ k)%nat.
Proof.
  unfold inMemory_Read. destruct (left m); simpl; [lia|].
  rewrite length_take. lia.
Defined.

#[export] Instance inMemory_Reader : Reader inMemory :=
  {| Read := inMemory_Read; Read_le := inMemory_Read_le |}.

(** No read of the trace returned data together with end of stream. *)
Definition no_data_at_EOF (tr : list event) : Prop :=
  ∀ bs e, EvRead bs (Some e) ∈ tr → is_EOF e = true → len bs = 0.

(** "ABC" read from memory through 2-byte buffers, based at offset 7. *)
Definition three_bytes : source inMemory pooledBuffer :=
  Source (mkInMemory [x41; x42; x43]) 7 (mkPooled [] 2 2).

(** The same through a pool whose buffers are empty. *)
Definition no_room : source inMemory pooledBuffer :=
  Source (mkInMemory [x41; x42; x43]) 7 (mkPooled [] 2 0).

End Source.

(* ====================================================================== *)
(** * io/write.go: positional writers and the single-writer consumer *)
(* ====================================================================== *)

Module Sink.
Import Buffer.

(** The positional-write capability, [w.WriteAt(p, off) (n int, err error)];
    [WriteAt_le] is the [io.WriterAt] contract [0 <= n <= len(p)]. *)
Class WriterAt (W : Type) : Type := {
  WriteAt : W → bytes → Z → (nat * option error) * W;
  WriteAt_le : ∀ (w : W) (p : bytes) (o : Z), ((WriteAt w p o).1.1 ≤ length p)%nat
}.

(** What the rest of the run does for the consumer.  [ctx_Err k] is the
    answer of [ctx.Err()] when the Region number [k] (counting from 0) has
    just been received; [closes_input] tells whether the stage upstream
    closes the input channel after the last Region; [errs_room] tells
    whether a send on the terminal-signal channel goes through. *)
Record Env : Type := mkEnv {
  ctx_Err : nat → option error;
  closes_input : bool;
  errs_room : bool
}.

(** What a consumer does to the outside world, in program order. *)
Inductive event : Type :=
| EvWriteAt (p : bytes) (o : Z) (n : nat) (err : option error)
                                          (* WriteAt(p, o) returned (n, err) *)
| EvPut (buff : bytes)                    (* buff.Put(buff) *)
| EvSend (err : option error).            (* errs <- err *)

(** How the inner loop [for written < len(data.Data)] ended. *)
Inductive flush : Type :=
| Flushed                 (* the whole Region was written *)
| WriteFailed (e : error) (* WriteAt returned a non-nil error *)
| Spinning.               (* still looping when the fuel ran out *)

Inductive exit : Type :=
| Returned     (* the function returned *)
| Blocked      (* waiting for ever in a receive or in a send *)
| OutOfFuel.   (* the inner loop is still running *)

Section WithCollaborators.
Context {W B : Type} `{WriterAt W} `{Buffer B}.

(** [for written < len(data.Data) { n, err := w.WriteAt(data.Data[written:], data.Off); ... }]
    as it stands in [sink.Read]; the tasks of [pool.Read] run the same
    loop, which [Pool.step_task] takes one iteration at a time. *)
Fixpoint write_loop (fuel : nat) (w : W) (data : Region) (written : Z)
  : list event * flush * W :=
  match fuel with
  | O => ([], Spinning, w)
  | S fuel' =>
      if written <? len (Data data) then
        let p := drop (Z.to_nat written) (Data data) in
        let '((n, err), w') := WriteAt w p (Off data) in
        match err with
        | Some e => ([EvWriteAt p (Off data) n err], WriteFailed e, w')
        | None =>
            let '(tr, fl, w'') := write_loop fuel' w' data (written + Z.of_nat n) in
            (EvWriteAt p (Off data) n err :: tr, fl, w'')
        end
      else ([], Flushed, w)
  end.

(** [type sink struct { w io.WriterAt; buff Buffer }] *)
Record sink : Type := mkSink { w : W; buff : B }.

(** [func Sink(w io.WriterAt, b Buffer) *sink] *)
Definition Sink (wr : W) (b : B) : sink := {| w := wr; buff := b |}.

(** [errs <- v; return] *)
Definition report (env : Env) (v : option error) (s : sink)
  : list event * exit * sink :=
  if errs_room env then ([EvSend v], Returned, s) else ([], Blocked, s).

(** [func (w *sink) Read(ctx, source, errs)].  [source] lists the Regions
    the input channel delivers; [k] counts the Regions already received;
    [fuel] bounds the [WriteAt] calls spent on one Region. *)
Fixpoint Read_loop (env : Env) (fuel k : nat) (source : list Region) (s : sink)
  : list event * exit * sink :=
  match source with
  | [] => if closes_input env then report env None s else ([], Blocked, s)
  | data :: source' =>
      if bool_decide (is_Some (ctx_Err env k)) then report env None s
      else
        let '(tr, fl, w') := write_loop fuel (w s) data 0 in
        match fl with
        | WriteFailed e =>
            let '(tr', ex, s') :=
              report env (Some (Wrapf "error writing region" e))
                {| w := w'; buff := buff s |} in
            (tr ++ tr', ex, s')
        | Spinning => (tr, OutOfFuel, {| w := w'; buff := buff s |})
        | Flushed =>
            let s' := {| w := w'; buff := Put (buff s) (Data data) |} in
            let '(tr', ex, s'') := Read_loop env fuel (S k) source' s' in
            (tr ++ EvPut (Data data) :: tr', ex, s'')
        end
  end.

Definition Read (env : Env) (fuel : nat) (source : list Region) (s : sink)
  : list event * exit * sink :=
  Read_loop env fuel 0 source s.

End WithCollaborators.

Arguments sink : clear implicits.

(** The values sent on the terminal-signal channel. *)
Fixpoint errs_sent (tr : list event) : list (option error) :=
  match tr with
  | [] => []
  | EvSend e :: tr' => e :: errs_sent tr'
  | _ :: tr' => errs_sent tr'
  end.

(** The errors returned by positional writes. *)
Fixpoint write_errors (tr : list event) : list error :=
  match tr with
  | [] => []
  | EvWriteAt _ _ _ (Some e) :: tr' => e :: write_errors tr'
  | _ :: tr' => write_errors tr'
  end.

(** The positional writes issued: the slice and the absolute offset of each
    call, with the count it returned. *)
Fixpoint write_calls (tr : list event) : list (bytes * Z * nat) :=
  match tr with
  | [] => []
  | EvWriteAt p o n _ :: tr' => (p, o, n) :: write_calls tr'
  | _ :: tr' => write_calls tr'
  end.

(** A destination that accepts at most [chunk] bytes per call and keeps the
    bytes it was given, by absolute offset.  With [chunk] below the slice
    length every call is a short write without error. *)
Record chunked : Type := mkChunked {
  chunk : nat;
  stored : list (Z * byte)   (* (offset, byte) in the order written *)
}.

(** The bytes of [p] laid out from absolute offset [o]. *)
Fixpoint place (o : Z) (p : bytes) : list (Z * byte) :=
  match p with
  | [] => []
  | x :: p' => (o, x) :: place (o + 1) p'
  end.

Definition chunked_WriteAt (c : chunked) (p : bytes) (o : Z)
  : (nat * option error) * chunked :=
  let q := take (chunk c) p in
  ((length q, None), {| chunk := chunk c; stored := stored c ++ place o q |}).

Lemma chunked_WriteAt_le (c : chunked) (p : bytes) (o : Z) :
  ((chunked_WriteAt c p o).1.1 ≤ length p)%nat.
Proof. simpl. rewrite length_take. lia. Defined.

#[export] Instance chunked_WriterAt : WriterAt chunked :=
  {| WriteAt := chunked_WriteAt; WriteAt_le := chunked_WriteAt_le |}.

(** A destination that replays a script of results (count cut to the slice
    length), then accepts everything. *)
Definition script : Type := list (nat * option error).

Definition script_WriteAt (sc : script) (p : bytes) (o : Z)
  : (nat * option error) * script :=
  match sc with
  | [] => ((length p, None), [])
  | (n, err) :: sc' => ((n `min` length p, err), sc')
  end%nat.

Lemma script_WriteAt_le (sc : script) (p : bytes) (o : Z) :
  ((script_WriteAt sc p o).1.1 ≤ length p)%nat.
Proof. destruct sc as [|[n err] sc']; simpl; lia. Defined.

#[export] Instance script_WriterAt : WriterAt script :=
  {| WriteAt := script_WriteAt; WriteAt_le := script_WriteAt_le |}.

(** A run that is never cancelled, whose input is closed in the end and
    whose sends go through. *)
Definition background : Env :=
  {| ctx_Err := λ _, None; closes_input := true; errs_room := true |}.

(** The same, cancelled from the Region number [k] on. *)
Definition cancelled_from (k : nat) : Env :=
  {| ctx_Err := λ i, if (k <=? i)%nat then Some Canceled else None;
     closes_input := true; errs_room := true |}.

(** The Region "AB" at offset 10. *)
Definition region_AB : Region := mkRegion [x41; x42] 10.

(** The Region "CD" at offset 12. *)
Definition region_CD : Region := mkRegion [x43; x44] 12.

(** A destination that takes one byte per call. *)
Definition byte_at_a_time : chunked := mkChunked 1 [].

(** A destination whose first call fails. *)
Definition broken : script := [(0%nat, Some (ErrorString "disk full"))].

(** The buffers handed back to the pool. *)
Fixpoint puts (tr : list event) : list bytes :=
  match tr with
  | [] => []
  | EvPut buff :: tr' => buff :: puts tr'
  | _ :: tr' => puts tr'
  end.

(** The bytes the writer accepted, call by call: the first [n] bytes of the
    slice it was given. *)
Fixpoint accepted (tr : list event) : list bytes :=
  match tr with
  | [] => []
  | EvWriteAt p _ n _ :: tr' => take n p :: accepted tr'
  | _ :: tr' => accepted tr'
  end.

(** The Regions received before the loop sees the context cancelled; [k]
    is the number of the first Region of [source]. *)
Fixpoint live_prefix (env : Env) (k : nat) (source : list Region) : list Region :=
  match source with
  | [] => []
  | data :: source' =>
      if bool_decide (is_Some (ctx_Err env k)) then []
      else data :: live_prefix env (S k) source'
  end.

(** The bytes of a list of Regions laid out at their offsets, in order. *)
Definition laid_out (rs : list Region) : list (Z * byte) :=
  flat_map (λ rg, place (Off rg) (Data rg)) rs.

(** The writer after one call that is given the whole of a Region; a
    Region without data causes no call. *)
Definition write_whole {W : Type} `{WriterAt W} (w : W) (d : Region) : W :=
  match Data d with
  | [] => w
  | _ => (WriteAt w (Data d) (Off d)).2
  end.

(** Writing these Regions one after the other, the writer takes the whole
    of each in one call. *)
Fixpoint takes_whole {W : Type} `{WriterAt W} (w : W) (ds : list Region) : Prop :=
  match ds with
  | [] => True
  | d :: ds' =>
      (WriteAt w (Data d) (Off d)).1 = (length (Data d), None) ∧
      takes_whole (write_whole w d) ds'
  end.

(** The one call that writes a Region whole. *)
Definition whole_call (d : Region) : bytes * Z * nat :=
  (Data d, Off d, length (Data d)).

(** The Region "E" at offset 14, and one without data. *)
Definition region_E : Region := mkRegion [x45] 14.
Definition region_none : Region := mkRegion [] 13.

(** A destination that takes one byte and fails on the second call. *)
Definition fails_second : script :=
  [(1%nat, None); (0%nat, Some (ErrorString "disk full"))].

End Sink.

(* ====================================================================== *)
(** * io/write.go: the writer-pool consumer *)
(* ====================================================================== *)

Module Pool.
Import Buffer Sink.

(** Where [pool.Read] itself stands. *)
Inductive main_pc : Type :=
| Recv                     (* at [data, more := <-source] *)
| Acquire (data : Region)  (* after [waiter.Add(1)], at [writer := <-p.writers] *)
| Wait                     (* at [waiter.Wait()] *)
| SendNil                  (* at [errs <- nil] *)
| Done.                    (* returned *)

(** Where one spawned write task stands. *)
Inductive task_pc : Type :=
| Writing (written : Z)    (* at the head of [for written < len(data.Data)] *)
| Sending (e : error)      (* at [errs <- fmt.Errorf(...)] *)
| Exited (released : bool).
    (* returned; [released] tells whether it ran through
       [p.writers <- writer; p.buff.Put(data.Data); waiter.Done()] *)

Section WithCollaborators.
Context {W B : Type} `{WriterAt W} `{Buffer B}.

Record task : Type := mkTask {
  writer : W;
  data : Region;
  at_pc : task_pc
}.

(** The consumer, its goroutines, and the two things it shares with the
    rest of the run: the cancellation flag and the terminal-signal channel
    [errs] (buffered, capacity [errs_cap]), of which the orchestrator takes
    the first value. *)
Record state : Type := mkState {
  pc : main_pc;
  source : list Region;        (* still to arrive before the input is closed *)
  writers : list W;            (* idle writers queued in [p.writers] *)
  buff : B;
  tasks : list task;
  waiter : Z;                  (* the [sync.WaitGroup] counter *)
  errs : list (option error);  (* values buffered in [errs], oldest first *)
  errs_cap : nat;
  log : list event;            (* everything done so far, in order *)
  cancelled : bool;            (* [ctx.Err() != nil] *)
  result : option (option error)  (* the value the orchestrator received *)
}.

(** [func Pool(buff Buffer, writers ...io.WriterAt) *pool] followed by the
    call of [Read] on an input that will deliver [src]; the terminal
    channel is the orchestrator's [make(chan error, 1)]. *)
Definition start (b : B) (ws : list W) (src : list Region) : state :=
  {| pc := Recv; source := src; writers := ws; buff := b; tasks := [];
     waiter := 0; errs := []; errs_cap := 1; log := []; cancelled := false;
     result := None |}.

(** A send on [errs]: possible only while the buffer has a free slot. *)
Definition send_errs (st : state) (v : option error)
  : option (list (option error) * list event) :=
  if (length (errs st) <? errs_cap st)%nat
  then Some (errs st ++ [v], log st ++ [EvSend v])
  else None.

(** One step of the goroutine running [pool.Read]; [None] when it is
    blocked or has returned. *)
Definition step_main (st : state) : option state :=
  match pc st with
  | Recv =>
      match source st with
      | [] =>
          Some (mkState Wait [] (writers st) (buff st) (tasks st) (waiter st)
                  (errs st) (errs_cap st) (log st) (cancelled st) (result st))
      | d :: rest =>
          if cancelled st
          then Some (mkState Wait rest (writers st) (buff st) (tasks st) (waiter st)
                       (errs st) (errs_cap st) (log st) (cancelled st) (result st))
          else Some (mkState (Acquire d) rest (writers st) (buff st) (tasks st)
                       (waiter st + 1)
                       (errs st) (errs_cap st) (log st) (cancelled st) (result st))
      end
  | Acquire d =>
      match writers st with
      | [] => None
      | wr :: idle =>
          Some (mkState Recv (source st) idle (buff st)
                  (tasks st ++ [mkTask wr d (Writing 0)]) (waiter st)
                  (errs st) (errs_cap st) (log st) (cancelled st) (result st))
      end
  | Wait =>
      if waiter st =? 0
      then Some (mkState SendNil (source st) (writers st) (buff st) (tasks st)
                   (waiter st) (errs st) (errs_cap st) (log st) (cancelled st)
                   (result st))
      else None
  | SendNil =>
      match send_errs st None with
      | Some (q, lg) =>
          Some (mkState Done (source st) (writers st) (buff st) (tasks st)
                  (waiter st) q (errs_cap st) lg (cancelled st) (result st))
      | None => None
      end
  | Done => None
  end.

(** One step of the write task number [i]. *)
Definition step_task (i : nat) (st : state) : option state :=
  match tasks st !! i with
  | None => None
  | Some t =>
      match at_pc t with
      | Writing written =>
          if written <? len (Data (data t)) then
            let p := drop (Z.to_nat written) (Data (data t)) in
            let '((n, err), w') := WriteAt (writer t) p (Off (data t)) in
            let t' :=
              match err with
              | Some e => mkTask w' (data t) (Sending (Wrapf "error writing regions" e))
              | None => mkTask w' (data t) (Writing (written + Z.of_nat n))
              end in
            Some (mkState (pc st) (source st) (writers st) (buff st)
                    (<[i := t']> (tasks st)) (waiter st) (errs st) (errs_cap st)
                    (log st ++ [EvWriteAt p (Off (data t)) n err])
                    (cancelled st) (result st))
          else
            Some (mkState (pc st) (source st) (writers st ++ [writer t])
                    (Put (buff st) (Data (data t)))
                    (<[i := mkTask (writer t) (data t) (Exited true)]> (tasks st))
                    (waiter st - 1) (errs st) (errs_cap st)
                    (log st ++ [EvPut (Data (data t))])
                    (cancelled st) (result st))
      | Sending e =>
          match send_errs st (Some e) with
          | Some (q, lg) =>
              Some (mkState (pc st) (source st) (writers st) (buff st)
                      (<[i := mkTask (writer t) (data t) (Exited false)]> (tasks st))
                      (waiter st) q (errs_cap st) lg (cancelled st) (result st))
          | None => None
          end
      | Exited _ => None
      end
  end.

(** The orchestrator's [case err := <-done: cancel(); return err]: it takes
    one value, once. *)
Definition step_orchestrator (st : state) : option state :=
  match result st, errs st with
  | None, v :: q =>
      Some (mkState (pc st) (source st) (writers st) (buff st) (tasks st)
              (waiter st) q (errs_cap st) (log st) true (Some v))
  | _, _ => None
  end.

(** Cancellation from outside (the caller's context expires). *)
Definition step_cancel (st : state) : option state :=
  Some (mkState (pc st) (source st) (writers st) (buff st) (tasks st)
          (waiter st) (errs st) (errs_cap st) (log st) true (result st)).

(** Who moves next. *)
Inductive choice : Type :=
| Main
| Task (i : nat)
| Orchestrator
| Cancel.

Definition step (c : choice) (st : state) : option state :=
  match c with
  | Main => step_main st
  | Task i => step_task i st
  | Orchestrator => step_orchestrator st
  | Cancel => step_cancel st
  end.

(** Runs a schedule; [None] when it asks a blocked party to move. *)
Fixpoint run (sched : list choice) (st : state) : option state :=
  match sched with
  | [] => Some st
  | c :: sched' =>
      match step c st with
      | Some st' => run sched' st'
      | None => None
      end
  end.

End WithCollaborators.

Arguments task : clear implicits.
Arguments state : clear implicits.

(** A task that has not run through its release: it holds a writer and
    counts in the wait group. *)
Definition in_flight {W : Type} (t : task W) : bool :=
  match at_pc t with
  | Exited true => false
  | _ => true
  end.

(** A task that returned on a write error. *)
Definition failed {W : Type} (t : task W) : bool :=
  match at_pc t with
  | Exited false => true
  | _ => false
  end.

Definition tally {A : Type} (f : A → bool) (l : list A) : nat :=
  foldr (λ x acc, (if f x then 1 else 0) + acc)%nat 0%nat l.

(** The Region [Read] holds between [waiter.Add(1)] and the spawning of
    its task. *)
Definition acquiring (p : main_pc) : list Region :=
  match p with
  | Acquire d => [d]
  | _ => []
  end.

Definition is_error (v : option error) : bool :=
  match v with
  | Some _ => true
  | None => false
  end.

Definition is_nil (v : option error) : bool := negb (is_error v).

(** The buffers of the tasks that ran through their release. *)
Definition released {W : Type} (ts : list (task W)) : list bytes :=
  flat_map (λ t, if in_flight t then [] else [Data (data t)]) ts.

(** The Regions handed to tasks or about to be. *)
Definition dispatched {W B : Type} (st : state W B) : list Region :=
  (data <$> tasks st) ++ acquiring (pc st).

(** How the writers, the wait group and the terminal-signal channel stand
    to the tasks, in a pool built with [m] writers. *)
Definition inv_sync {W B : Type} (m : nat) (st : state W B) : Prop :=
  (length (writers st) + tally in_flight (tasks st) = m)%nat ∧
  waiter st = Z.of_nat (tally in_flight (tasks st)) + len (acquiring (pc st)) ∧
  (pc st = SendNil ∨ pc st = Done → tally in_flight (tasks st) = 0%nat) ∧
  tally is_error (errs_sent (log st)) = tally failed (tasks st) ∧
  tally is_nil (errs_sent (log st)) = (if pc st is Done then 1 else 0)%nat.

(** Where the Regions of an input [src] are. *)
Definition inv_work {W B : Type} (src : list Region) (st : state W B) : Prop :=
  puts (log st) ≡ₚ released (tasks st) ∧
  match pc st with
  | Recv | Acquire _ => dispatched st ++ source st = src
  | _ => dispatched st `prefix_of` src ∧
         (cancelled st = false → dispatched st = src)
  end.

(** In a pool built without writers nothing is ever written. *)
Definition inv_idle {W B : Type} (src : list Region) (st : state W B) : Prop :=
  tasks st = [] ∧ writers st = [] ∧
  write_calls (log st) = [] ∧ puts (log st) = [] ∧
  match pc st with
  | Recv => source st = src
  | Acquire _ => True
  | _ => src = [] ∨ cancelled st = true
  end.

(** A task that met a write error: it stands at its send on [errs], or has
    returned after it. *)
Definition erred {W : Type} (t : task W) : bool :=
  match at_pc t with
  | Sending _ | Exited false => true
  | _ => false
  end.

(** A task none of whose writes has failed, over a writer that is [good];
    its running count is within the Region. *)
Definition steady {W : Type} (good : W → Prop) (t : task W) : Prop :=
  good (writer t) ∧
  match at_pc t with
  | Writing written => 0 ≤ written ≤ len (Data (data t))
  | Sending _ => False
  | Exited released => released = true
  end.

(** A run in which no write has failed: nothing is on [errs] before
    [Read]'s own nil. *)
Definition inv_clean {W B : Type} (good : W → Prop) (st : state W B) : Prop :=
  errs_cap st = 1%nat ∧
  (pc st ≠ Done → errs st = []) ∧
  Forall good (writers st) ∧
  Forall (steady good) (tasks st).

(** A bound on the steps that [Read] and its tasks can still take. *)
Definition task_weight {W : Type} (t : task W) : nat :=
  match at_pc t with
  | Writing written => S (Z.to_nat (len (Data (data t)) - written))
  | Sending _ => 1
  | Exited _ => 0
  end.

Definition work {W : Type} (ts : list (task W)) : nat :=
  foldr (λ t acc, task_weight t + acc)%nat 0%nat ts.

Definition input_weight (src : list Region) : nat :=
  foldr (λ d acc, length (Data d) + 3 + acc)%nat 0%nat src.

Definition main_weight {W B : Type} (st : state W B) : nat :=
  match pc st with
  | Recv => input_weight (source st) + 3
  | Acquire d => input_weight (source st) + length (Data d) + 5
  | Wait => 2
  | SendNil => 1
  | Done => 0
  end%nat.

Definition measure {W B : Type} (st : state W B) : nat :=
  (main_weight st + work (tasks st))%nat.

(** [Read] waits on the wait group while every task it spawned has exited
    and the orchestrator has had its value. *)
Definition abandoned {W B : Type} (st : state W B) : Prop :=
  pc st = Wait ∧ waiter st ≠ 0 ∧
  (∀ i t, tasks st !! i = Some t → ∃ released, at_pc t = Exited released) ∧
  result st ≠ None.

(** Two Regions are handed to two tasks; both writes fail. *)
Definition both_fail : list choice :=
  [Main; Main; Main; Main;      (* receive and dispatch both Regions *)
   Task 0; Task 0;              (* the first write fails; its error is sent *)
   Orchestrator;                (* the orchestrator takes it and cancels *)
   Task 1; Task 1;              (* the second write fails; its error is sent *)
   Main].                       (* the input is closed: on to waiter.Wait() *)

(** Two Regions go through one writer, one after the other, and [Read]
    returns. *)
Definition one_by_one : list choice :=
  [Main; Main;                  (* receive "AB", take the writer *)
   Task 0; Task 0; Task 0;      (* two one-byte writes, then the release *)
   Main; Main;                  (* receive "CD", take the writer again *)
   Task 1; Task 1; Task 1;
   Main; Main; Main].           (* input closed, Wait, send nil *)

(** One write fails while the other Region is still being written. *)
Definition one_fails : list choice :=
  [Main; Main; Main; Main; Task 0; Task 1].

(** The first Region is half written when the run is cancelled. *)
Definition half_way : list choice := [Main; Main; Task 0; Cancel].

(** The error is sent, the other task finishes, the input is closed and the
    orchestrator takes the error. *)
Definition carries_on : list choice :=
  [Task 0; Task 1; Main; Orchestrator].

End Pool.

(* ====================================================================== *)
(** * source.go: fan-out / fan-in *)
(* ====================================================================== *)

Module Fan.

(** A nested producer that emits a finite list of Regions on its private
    channel [sinks[i]] and closes it: [pending] is what it has still to
    send. *)
Record nested : Type := mkNested {
  started : bool;           (* [go s.sources[i].Write(ctx, sinks[i], errs)] ran *)
  pending : list Region;
  closed : bool             (* it has closed [sinks[i]] *)
}.

(** Where the goroutine running [pass(ctx, sinks[i], sink)] stands. *)
Inductive pass_pc : Type :=
| NotSpawned
| Receiving                (* at [curr, more := <-in] *)
| Holding (curr : Region)  (* at [out <- curr] *)
| Finished.                (* [pass] returned and [waiter.Done()] ran *)

(** Where [fan.Write] itself stands. *)
Inductive main_pc : Type :=
| FanOut (i : nat)   (* first loop, about to start source [i] *)
| FanIn (i : nat)    (* second loop, about to spawn forwarder [i] *)
| Wait               (* at [waiter.Wait()] *)
| Returned.          (* returned; the deferred [close(sink)] ran *)

Record state : Type := mkState {
  pc : main_pc;
  sources : list nested;
  passes : list pass_pc;
  waiter : Z;                     (* the [sync.WaitGroup] counter *)
  out : list (nat * Region);      (* received from the shared [sink], with
                                     the index of the forwarder that sent it *)
  sink_closed : bool;
  cancelled : bool                (* [ctx.Err() != nil] *)
}.

(** [Fan(sources...)] and the call of [Write]; [ls] gives what each nested
    producer will emit. *)
Definition start (ls : list (list Region)) : state :=
  {| pc := FanOut 0;
     sources := (λ l, mkNested false l false) <$> ls;
     passes := replicate (length ls) NotSpawned;
     waiter := 0; out := []; sink_closed := false; cancelled := false |}.

(** One step of the goroutine running [fan.Write]. *)
Definition step_main (st : state) : option state :=
  match pc st with
  | FanOut i =>
      match sources st !! i with
      | Some s =>
          Some (mkState (FanOut (S i))
                  (<[i := mkNested true (pending s) (closed s)]> (sources st))
                  (passes st) (waiter st) (out st) (sink_closed st) (cancelled st))
      | None =>
          Some (mkState (FanIn 0) (sources st) (passes st) (waiter st) (out st)
                  (sink_closed st) (cancelled st))
      end
  | FanIn i =>
      match passes st !! i with
      | Some _ =>
          Some (mkState (FanIn (S i)) (sources st) (<[i := Receiving]> (passes st))
                  (waiter st + 1) (out st) (sink_closed st) (cancelled st))
      | None =>
          Some (mkState Wait (sources st) (passes st) (waiter st) (out st)
                  (sink_closed st) (cancelled st))
      end
  | Wait =>
      if waiter st =? 0
      then Some (mkState Returned (sources st) (passes st) (waiter st) (out st)
                   true (cancelled st))
      else None
  | Returned => None
  end.

(** The nested producer [i] finds nothing left to send and closes its
    channel. *)
Definition step_source (i : nat) (st : state) : option state :=
  match sources st !! i with
  | Some (mkNested true [] false) =>
      Some (mkState (pc st) (<[i := mkNested true [] true]> (sources st))
              (passes st) (waiter st) (out st) (sink_closed st) (cancelled st))
  | _ => None
  end.

(** One step of forwarder [i]: a receive on [sinks[i]] (a rendezvous with
    the nested producer's send, or the closed channel), or the send of the
    Region it holds on the shared output, which the consumer receives. *)
Definition step_pass (i : nat) (st : state) : option state :=
  match passes st !! i, sources st !! i with
  | Some Receiving, Some (mkNested true (curr :: rest) cl) =>
      let srcs := <[i := mkNested true rest cl]> (sources st) in
      if cancelled st
      then Some (mkState (pc st) srcs (<[i := Finished]> (passes st))
                   (waiter st - 1) (out st) (sink_closed st) (cancelled st))
      else Some (mkState (pc st) srcs (<[i := Holding curr]> (passes st))
                   (waiter st) (out st) (sink_closed st) (cancelled st))
  | Some Receiving, Some (mkNested true [] true) =>
      Some (mkState (pc st) (sources st) (<[i := Finished]> (passes st))
              (waiter st - 1) (out st) (sink_closed st) (cancelled st))
  | Some (Holding curr), _ =>
      Some (mkState (pc st) (sources st) (<[i := Receiving]> (passes st))
              (waiter st) (out st ++ [(i, curr)]) (sink_closed st) (cancelled st))
  | _, _ => None
  end.

Definition step_cancel (st : state) : option state :=
  Some (mkState (pc st) (sources st) (passes st) (waiter st) (out st)
          (sink_closed st) true).

(** Who moves next. *)
Inductive choice : Type :=
| Main
| Source (i : nat)
| Pass (i : nat)
| Cancel.

Definition step (c : choice) (st : state) : option state :=
  match c with
  | Main => step_main st
  | Source i => step_source i st
  | Pass i => step_pass i st
  | Cancel => step_cancel st
  end.

(** Runs a schedule; [None] when it asks a blocked party to move. *)
Fixpoint run (sched : list choice) (st : state) : option state :=
  match sched with
  | [] => Some st
  | c :: sched' =>
      match step c st with
      | Some st' => run sched' st'
      | None => None
      end
  end.

(** The Regions that forwarder [i] put on the shared output, in order. *)
Definition from (i : nat) (o : list (nat * Region)) : list Region :=
  snd <$> filter (λ x, x.1 = i) o.

(** The Regions on the shared output, in the order received. *)
Definition delivered (st : state) : list Region := snd <$> out st.

(** The Region a forwarder has received and not yet passed on. *)
Definition held (ps : pass_pc) : list Region :=
  match ps with
  | Holding curr => [curr]
  | _ => []
  end.

(** A forwarder that was added to the wait group and has not yet left it. *)
Definition active (ps : pass_pc) : Z :=
  match ps with
  | Receiving | Holding _ => 1
  | _ => 0
  end.

Definition actives (l : list pass_pc) : Z :=
  foldr (λ ps acc, active ps + acc) 0 l.

(** How many forwarders [fan.Write] has spawned. *)
Definition spawned (st : state) : nat :=
  match pc st with
  | FanOut _ => 0
  | FanIn i => i
  | Wait | Returned => length (passes st)
  end.

(** What holds of the wait group and the forwarders in every state. *)
Definition inv_sync (ls : list (list Region)) (st : state) : Prop :=
  length (sources st) = length ls ∧
  length (passes st) = length ls ∧
  waiter st = actives (passes st) ∧
  (∀ i ps, passes st !! i = Some ps → (ps = NotSpawned ↔ (spawned st ≤ i)%nat)) ∧
  (sink_closed st = true → pc st = Returned) ∧
  (pc st = Returned → ∀ i ps, passes st !! i = Some ps → ps = Finished).

(** Where the Regions of each nested producer are, while the run has not
    been cancelled: delivered, held by the forwarder, or still to send. *)
Definition inv_data (ls : list (list Region)) (st : state) : Prop :=
  (∀ i l src ps,
     ls !! i = Some l → sources st !! i = Some src → passes st !! i = Some ps →
     l = from i (out st) ++ held ps ++ pending src ∧
     (ps = Finished → pending src = [])) ∧
  (∀ x, x ∈ out st → (x.1 < length ls)%nat).

(** Once the first loop is over every nested producer is running, and a
    [fan.Write] that returned has closed the shared output. *)
Definition inv_live (st : state) : Prop :=
  (∀ j src, sources st !! j = Some src →
     match pc st with
     | FanOut i => (j < i)%nat → started src = true
     | _ => started src = true
     end) ∧
  (pc st = Returned → sink_closed st = true).

(** A bound on the steps the parties of a run can still take. *)
Definition weigh {A} (f : A → nat) (l : list A) : nat :=
  foldr (λ x acc, f x + acc)%nat 0%nat l.

Definition nested_weight (src : nested) : nat :=
  (2 * length (pending src) + (if closed src then 0 else 1))%nat.

Definition pass_weight (ps : pass_pc) : nat :=
  match ps with
  | NotSpawned | Receiving => 1
  | Holding _ => 2
  | Finished => 0
  end.

Definition main_weight (st : state) : nat :=
  match pc st with
  | FanOut i => (length (sources st) - i) + length (passes st) + 4
  | FanIn i => (length (passes st) - i) + 2
  | Wait => 1
  | Returned => 0
  end%nat.

Definition measure (st : state) : nat :=
  (main_weight st + weigh nested_weight (sources st)
   + weigh pass_weight (passes st))%nat.

(** Where the Regions [l] of nested producer [i] are in any run, cancelled
    or not: delivered, held by the forwarder, still to send, or the one
    Region the forwarder received when it saw the cancellation and
    returned without passing it on. *)
Definition accounted (l : list Region) (i : nat) (o : list (nat * Region))
    (src : nested) (ps : pass_pc) (c : bool) : Prop :=
  ∃ dropped,
    l = from i o ++ held ps ++ dropped ++ pending src ∧
    (length dropped ≤ 1)%nat ∧
    (dropped ≠ [] → ps = Finished ∧ c = true).

Definition inv_order (ls : list (list Region)) (st : state) : Prop :=
  ∀ i l src ps,
    ls !! i = Some l → sources st !! i = Some src → passes st !! i = Some ps →
    accounted l i (out st) src ps (cancelled st).

(** A step of one of the goroutines, as opposed to a cancellation from
    outside. *)
Definition is_move (c : choice) : bool :=
  match c with
  | Cancel => false
  | _ => true
  end.

Definition moves (sched : list choice) : nat :=
  length (filter (λ c, is_move c = true) sched).

(** The steps a fan over the producers of [ls] can take in all. *)
Definition bound (ls : list (list Region)) : nat :=
  (4 * length ls + 4 + 2 * length (concat ls))%nat.

(** The two producers of the fan-in test: A emits the Regions at offsets
    0, 10 and 90, B those at offsets 20 and 70. *)
Definition from_A : list Region :=
  [mkRegion (replicate 10 x41) 0; mkRegion (replicate 10 x42) 10;
   mkRegion (replicate 10 x4a) 90].

Definition from_B : list Region :=
  [mkRegion (replicate 10 x43) 20; mkRegion (replicate 10 x48) 70].

(** One interleaving of the run of [Fan(a, b)]. *)
Definition interleaved : list choice :=
  [Main; Main; Main;          (* start both producers *)
   Main; Main; Main;          (* spawn both forwarders, go to Wait *)
   Pass 0; Pass 1; Pass 1;    (* B's first Region overtakes A's *)
   Pass 0; Pass 0; Pass 0;
   Pass 1; Pass 1;
   Source 1; Pass 1;          (* B closes; its forwarder finishes *)
   Pass 0; Pass 0;
   Source 0; Pass 0;          (* A closes; its forwarder finishes *)
   Main].                     (* Wait returns; the shared output is closed *)

(** A run that is cancelled after A's first Region went through: each
    forwarder receives one more Region, sees the cancellation and returns. *)
Definition cut_short : list choice :=
  [Main; Main; Main; Main; Main; Main;
   Pass 0; Pass 0;
   Cancel;
   Pass 0; Pass 1].

End Fan.

(* ====================================================================== *)
(** * pipe.go: wiring and completion arbitration *)
(* ====================================================================== *)

Module Pipe.

(** A hand-off channel, by identity; a nil channel is [None]. *)
Definition chan : Type := nat.

(** The channels made so far: the next fresh identity. *)
Definition heap : Type := nat.

(** [make(chan Region)] *)
Definition make_chan (h : heap) : chan * heap := (h, S h).

(** [type Valve interface { Open(ctx, sink chan Region, errs chan error) (source chan Region) }]
    A valve may make channels of its own. *)
Class Valve (V : Type) : Type := {
  Open : V → chan → heap → chan * heap
}.

(** One call [p.valves[back].Open(ctx, out, done)] and what it returned. *)
Record call : Type := mkCall { back : nat; given_out : chan; returned_in : chan }.

Section WithValves.
Context {S' K V : Type} `{Valve V}.

(** [type Pipe struct { source Source; sink Sink; valves []Valve }] *)
Record Pipe : Type := mkPipe { source : S'; sink : K; valves : list V }.

(** [func New(source Source, sink Sink, valves ...Valve) *Pipe] *)
Definition New (src : S') (snk : K) (vs : list V) : Pipe :=
  {| source := src; sink := snk; valves := vs |}.

(** [for back := len(p.valves) - 1; back >= 0; back-- { ... }] with
    [todo = back + 1].  Indexing [p.valves] out of range would panic
    ([None]). *)
Fixpoint open_loop (vs : list V) (todo i : nat) (out : chan)
    (connectors : list (option chan)) (h : heap) (calls : list call)
  : option (list (option chan) * heap * list call) :=
  match todo with
  | O => Some (connectors, h, calls)
  | S b =>
      match vs !! b with
      | None => None
      | Some v =>
          let '(in_, h') := Open v out h in
          if bool_decide (i < length connectors)%nat
          then open_loop vs b (S i) in_ (<[i := Some in_]> connectors) h'
                 (calls ++ [mkCall b out in_])
          else None
      end
  end.

(** [func (p *Pipe) open(ctx, done) []chan Region] *)
Definition open (p : Pipe) (h : heap)
  : option (list (option chan) * heap * list call) :=
  let connectors := replicate (length (valves p) + 1) None in
  let '(c0, h0) := make_chan h in
  let connectors := <[0%nat := Some c0]> connectors in
  open_loop (valves p) (length (valves p)) 1 c0 connectors h0 [].

(** What the orchestrator's [select] takes: a value from [done], or the
    closing of [ctx.Done()], after which [ctx.Err()] is the reason. *)
Inductive reason : Type :=
| ReasonCanceled
| ReasonDeadline.

Definition ctx_Err (why : reason) : error :=
  match why with
  | ReasonCanceled => Canceled
  | ReasonDeadline => DeadlineExceeded
  end.

Inductive selected : Type :=
| FromDone (err : option error)   (* [case err := <-done] *)
| FromCtx (why : reason).         (* [case <-ctx.Done()] *)

(** What the goroutine running [Pipe.Pipe] does from its [select] on. *)
Inductive action : Type :=
| ActTake (err : option error)      (* received [err] from [done] *)
| ActExpired (why : reason)         (* found [ctx.Done()] closed *)
| ActCancel.                        (* [cancel()] *)

(** One run of [Pipe.Pipe]. *)
Record outcome : Type := mkOutcome {
  connectors : list (option chan);  (* what [p.open] returned *)
  wiring : list call;               (* the [Open] calls [p.open] made *)
  write_on : option chan;           (* [go p.source.Write(ctx, first, done)] *)
  read_on : option chan;            (* [p.sink.Read(ctx, last, done)] *)
  actions : list action;
  ret : option error                (* the error returned *)
}.

(** [func (p *Pipe) Pipe(ctx context.Context) error], given what the
    [select] takes.  The last [ActCancel] of every run is the deferred
    [cancel()]. *)
Definition Pipe_run (p : Pipe) (h : heap) (sel : selected) : option outcome :=
  match open p h with
  | None => None
  | Some (cn, _, cs) =>
      let first := mjoin (cn !! (length cn - 1)%nat) in
      let last := mjoin (cn !! 0%nat) in
      match sel with
      | FromDone err =>
          Some (mkOutcome cn cs first last [ActTake err; ActCancel; ActCancel] err)
      | FromCtx why =>
          Some (mkOutcome cn cs first last [ActExpired why; ActCancel]
                  (Some (ctx_Err why)))
      end
  end.

End WithValves.

Arguments Pipe : clear implicits.

(** The valve of the tests: [Open] makes its own input channel. *)
Inductive noopValve : Type := NoopValve.

#[export] Instance noopValve_Valve : Valve noopValve :=
  {| Open := λ _ _ h, make_chan h |}.

End Pipe.

(* ====================================================================== *)
(** * Properties of the buffer pool *)
(* ====================================================================== *)

Section BufferFacts.
Import Buffer.

Lemma make_bytes_len (n : Z) (x : bytes) :
  make_bytes n = Some x → len x = n ∧ x = replicate (Z.to_nat n) x00.
Proof.
  unfold make_bytes, len. destruct (Z.ltb_spec n 0) as [Hneg|Hpos]; [done|].
  intros [= <-]. rewrite length_replicate. split; [lia|done].
Qed.

Lemma pooled_Put_size (b : pooledBuffer) (buff : bytes) :
  size (pooled_Put b buff) = size b.
Proof. unfold pooled_Put. by destruct (_ <? _). Qed.

Lemma pooled_Put_pool (b : pooledBuffer) (buff x : bytes) :
  x ∈ pool (pooled_Put b buff) → x ∈ pool b ∨ x = buff.
Proof.
  unfold pooled_Put. destruct (_ <? _); simpl; [|by left].
  rewrite elem_of_app, list_elem_of_singleton. tauto.
Qed.

(** Whatever [Get] hands out is fresh and of the configured size, or was
    sitting in the queue. *)
Lemma pooled_Get_origin (b b' : pooledBuffer) (x : bytes) :
  pooled_Get b = Some (x, b') →
  size b' = size b ∧
  (len x = size b ∨ x ∈ pool b) ∧
  (∀ y, y ∈ pool b' → y ∈ pool b).
Proof.
  unfold pooled_Get. destruct (pool b) as [|q rest] eqn:Hq.
  - destruct (make_bytes (size b)) as [fresh|] eqn:Hm; [|done].
    intros [= <- <-]. apply make_bytes_len in Hm as [Hlen _].
    rewrite Hq. split_and!; [done|by left|done].
  - intros [= <- <-]. simpl. split_and!; [done|right; by left|].
    intros y Hy. by right.
Qed.

(** Every buffer a run of operations gets is fresh, or was queued at the
    start, or was put back during the run. *)
Lemma run_ops_origin (ops : list op) :
  ∀ (b b' : pooledBuffer) (gets : list bytes),
    run_ops b ops = Some (gets, b') →
    ∀ x, x ∈ gets → len x = size b ∨ x ∈ pool b ∨ x ∈ puts_of ops.
Proof.
  induction ops as [|[|buff] ops IH]; intros b b' gets Hrun x Hx; simpl in *.
  - injection Hrun as <- <-. by apply elem_of_nil in Hx.
  - destruct (pooled_Get b) as [[y b1]|] eqn:Hget; [|done].
    destruct (run_ops b1 ops) as [[xs b2]|] eqn:Hrest; [|done].
    injection Hrun as <- <-.
    apply pooled_Get_origin in Hget as (Hsz & Hy & Hsub).
    apply elem_of_cons in Hx as [->|Hx]; [tauto|].
    destruct (IH _ _ _ Hrest x Hx) as [Hl|[Hp|Hp]].
    + left. congruence.
    + right; left. by apply Hsub.
    + by right; right.
  - destruct (IH _ _ _ Hrun x Hx) as [Hl|[Hp|Hp]].
    + left. by rewrite pooled_Put_size in Hl.
    + apply pooled_Put_pool in Hp as [Hp| ->]; [tauto|].
      right; right. by left.
    + right; right. by right.
Qed.

(** C9.  [Get] and [Put] always return.  [Get] returns the oldest queued
    buffer when the queue is not empty and otherwise allocates a fresh
    buffer of [size] bytes, leaving the pool as it was; [Put] enqueues the
    buffer when the queue is below its capacity and otherwise drops it,
    leaving the pool unchanged. *)
Theorem Get_Put_never_block (b : pooledBuffer) (buff : bytes) :
  0 ≤ size b →
  (∃ x b', Get b = Some (x, b') ∧
     match pool b with
     | queued :: rest =>
         x = queued ∧ b' = {| pool := rest; pool_cap := pool_cap b; size := size b |}
     | [] => x = replicate (Z.to_nat (size b)) x00 ∧ len x = size b ∧ b' = b
     end) ∧
  (len (pool b) < pool_cap b →
     Put b buff = {| pool := pool b ++ [buff]; pool_cap := pool_cap b; size := size b |}) ∧
  (pool_cap b ≤ len (pool b) → Put b buff = b).
Proof.
  intros Hsize. split_and!.
  - simpl. unfold pooled_Get. destruct (pool b) as [|queued rest]; [|by eauto].
    destruct (make_bytes (size b)) as [fresh|] eqn:Hm.
    + apply make_bytes_len in Hm as [Hlen ->]. eauto 6.
    + unfold make_bytes in Hm. destruct (Z.ltb_spec (size b) 0); [lia|done].
  - intros Hroom. simpl. unfold pooled_Put.
    destruct (Z.ltb_spec (len (pool b)) (pool_cap b)); [done|lia].
  - intros Hfull. simpl. unfold pooled_Put.
    destruct (Z.ltb_spec (len (pool b)) (pool_cap b)); [lia|done].
Qed.

Lemma Get_Put_never_block_witness :
  (∃ x b', Get (mkPooled [[x41]] 1 4) = Some (x, b') ∧
     x = [x41] ∧ b' = mkPooled [] 1 4) ∧
  (len [[x41]] < 1 →
     Put (mkPooled [[x41]] 1 4) [x42] = mkPooled ([[x41]] ++ [[x42]]) 1 4) ∧
  (1 ≤ len [[x41]] → Put (mkPooled [[x41]] 1 4) [x42] = mkPooled [[x41]] 1 4).
Proof.
  apply (Get_Put_never_block (mkPooled [[x41]] 1 4) [x42]). simpl. lia.
Defined.

(** C4, as claimed, fails: a pool of 4-byte buffers into which a 2-byte
    slice was put hands that slice out again, 2 bytes long. *)
Lemma Get_returns_short_buffer :
  ∃ b, NewBuffer 4 1 = Some b ∧
    run_ops b [OpPut [x41; x42]; OpGet] = Some ([[x41; x42]], b) ∧
    ¬ (4 ≤ len [x41; x42]).
Proof.
  eexists. split; [reflexivity|]. split; [reflexivity|].
  unfold len. simpl. lia.
Qed.

(** C4, amended.  Every buffer returned by [Get] is either freshly
    allocated, with exactly [bufferSize] bytes, or one of the buffers handed
    to [Put] before, returned as it was put; so the buffers returned are at
    least [bufferSize] long whenever the buffers put back are. *)
Theorem Get_fresh_or_put (bufferSize poolSize : Z) (b b' : pooledBuffer)
    (ops : list op) (gets : list bytes) :
  NewBuffer bufferSize poolSize = Some b →
  run_ops b ops = Some (gets, b') →
  (∀ x, x ∈ gets → len x = bufferSize ∨ x ∈ puts_of ops) ∧
  ((∀ y, y ∈ puts_of ops → bufferSize ≤ len y) →
   ∀ x, x ∈ gets → bufferSize ≤ len x).
Proof.
  intros Hnew Hrun.
  assert (Hb : size b = bufferSize ∧ pool b = []).
  { unfold NewBuffer in Hnew. destruct (poolSize <? 0); [done|].
    by injection Hnew as <-. }
  destruct Hb as [Hsz Hempty].
  assert (Horigin : ∀ x, x ∈ gets → len x = bufferSize ∨ x ∈ puts_of ops).
  { intros x Hx. destruct (run_ops_origin _ _ _ _ Hrun x Hx) as [Hl|[Hp|Hp]].
    - left. congruence.
    - rewrite Hempty in Hp. by apply elem_of_nil in Hp.
    - by right. }
  split; [done|]. intros Hputs x Hx.
  destruct (Horigin x Hx) as [Hl|Hp]; [lia|by apply Hputs].
Qed.

Lemma Get_fresh_or_put_witness :
  (∀ x, x ∈ [[x00; x00]; [x41; x42; x43]] →
     len x = 2 ∨ x ∈ puts_of [OpGet; OpPut [x41; x42; x43]; OpGet]) ∧
  ((∀ y, y ∈ puts_of [OpGet; OpPut [x41; x42; x43]; OpGet] → 2 ≤ len y) →
   ∀ x, x ∈ [[x00; x00]; [x41; x42; x43]] → 2 ≤ len x).
Proof.
  apply (Get_fresh_or_put 2 1 (mkPooled [] 1 2) (mkPooled [] 1 2)
           [OpGet; OpPut [x41; x42; x43]; OpGet]); reflexivity.
Defined.

End BufferFacts.

(* ====================================================================== *)
(** * Properties of the reader-backed producer *)
(* ====================================================================== *)

Section SourceFacts.
Import Buffer Source.
Context {R B : Type} `{Reader R} `{Buffer B}.

Lemma wrap64_in_range (z : Z) : in_int64 (wrap64 z).
Proof.
  unfold in_int64, wrap64.
  pose proof (Z.mod_pos_bound (z + 2 ^ 63) (2 ^ 64) ltac:(lia)). lia.
Qed.

Lemma wrap64_id (z : Z) : in_int64 z → wrap64 z = z.
Proof.
  unfold in_int64, wrap64. intros Hz.
  rewrite Z.mod_small by lia. lia.
Qed.

Lemma wrap64_add_l (a b : Z) : wrap64 (wrap64 a + b) = wrap64 (a + b).
Proof.
  unfold wrap64. f_equal.
  replace ((a + 2 ^ 63) mod 2 ^ 64 - 2 ^ 63 + b + 2 ^ 63)
    with ((a + 2 ^ 63) mod 2 ^ 64 + b) by lia.
  rewrite Zplus_mod_idemp_l. f_equal. lia.
Qed.

(** [data[:n]] after the read is exactly what the reader stored. *)
Lemma take_overwrite (p bs : bytes) :
  take (Z.to_nat (len bs)) (overwrite p bs) = bs.
Proof.
  unfold len, overwrite. rewrite Nat2Z.id. by rewrite take_app_length.
Qed.

Definition hard (err : option error) : bool :=
  bool_decide (is_Some err) && negb (errors_Is_EOF err).

(** The ways one iteration of the loop can go. *)
Inductive iteration (env : Env) (fuel it : nat) (done : bool) (s : source R B)
  : list event * exit * source R B → Prop :=
| loop_exit :
    negb done || bool_decide (is_Some (ctx_Err env it)) = false →
    iteration env fuel it done s ([EvClose], Returned, s)
| get_panics :
    Get (buff s) = None →
    iteration env fuel it done s ([EvClose], Panicked, s)
| read_fails data b' bs e rd' :
    Get (buff s) = Some (data, b') →
    Read (r s) (length data) = ((bs, Some e), rd') →
    is_EOF e = false → errs_room env = true →
    iteration env fuel it done s
      ([EvRead bs (Some e); EvSend (Some e); EvClose], Returned,
       mkSource rd' (off s) b')
| report_blocks data b' bs e rd' :
    Get (buff s) = Some (data, b') →
    Read (r s) (length data) = ((bs, Some e), rd') →
    is_EOF e = false → errs_room env = false →
    iteration env fuel it done s
      ([EvRead bs (Some e)], Blocked, mkSource rd' (off s) b')
| read_nothing data b' bs err rd' :
    Get (buff s) = Some (data, b') →
    Read (r s) (length data) = ((bs, err), rd') →
    hard err = false → len bs = 0 →
    iteration env fuel it done s
      ([EvRead bs err; EvClose], Returned, mkSource rd' (off s) b')
| emit_blocks data b' bs err rd' :
    Get (buff s) = Some (data, b') →
    Read (r s) (length data) = ((bs, err), rd') →
    hard err = false → len bs ≠ 0 → receives env it = false →
    iteration env fuel it done s
      ([EvRead bs err], Blocked, mkSource rd' (off s) b')
| read_some data b' bs err rd' done' tr ex s' :
    Get (buff s) = Some (data, b') →
    Read (r s) (length data) = ((bs, err), rd') →
    hard err = false → len bs ≠ 0 → receives env it = true →
    Write_loop env fuel (S it) done' (mkSource rd' (int64_add (off s) (len bs)) b')
      = (tr, ex, s') →
    iteration env fuel it done s
      (EvRead bs err :: EvEmit (mkRegion bs (off s)) :: tr, ex, s').

Lemma Write_loop_iteration (env : Env) (fuel it : nat) (done : bool)
    (s : source R B) :
  iteration env fuel it done s (Write_loop env (S fuel) it done s).
Proof.
  cbn [Write_loop].
  destruct (negb done || bool_decide (is_Some (ctx_Err env it))) eqn:Hcond;
    [|by apply loop_exit].
  destruct (Get (buff s)) as [[data b']|] eqn:Hget; [|by apply get_panics].
  destruct (Read (r s) (length data)) as [[bs err] rd'] eqn:Hread.
  rewrite take_overwrite.
  fold (hard err).
  destruct (hard err) eqn:Hhard.
  { unfold hard in Hhard. apply andb_true_iff in Hhard as [Hsome Hneof].
    destruct err as [e|]; [|done]. simpl in Hneof.
    destruct (errs_room env) eqn:Hroom;
      [eapply read_fails|eapply report_blocks]; eauto; by destruct (is_EOF e). }
  destruct (errors_Is_EOF err || (len bs =? 0)) eqn:Heof.
  - destruct (Z.eqb_spec (len bs) 0) as [Hz|Hnz].
    + eapply read_nothing; eauto.
    + destruct (receives env it) eqn:Htaken; [|by eapply emit_blocks; eauto].
      destruct (Write_loop env fuel (S it) true _) as [[tr ex] s'] eqn:Hrec.
      eapply read_some; eauto.
  - apply orb_false_iff in Heof as [Hneof Hnz].
    destruct err as [e|].
    { exfalso. unfold hard in Hhard. simpl in Hneof.
      rewrite bool_decide_eq_true_2 in Hhard by eauto.
      simpl in Hhard. rewrite Hneof in Hhard. done. }
    rewrite bool_decide_eq_false_2 by (intros [? ?]; done).
    rewrite Hnz.
    destruct (receives env it) eqn:Htaken;
      [|eapply emit_blocks; eauto; by apply Z.eqb_neq].
    destruct (Write_loop env fuel (S it) done _) as [[tr ex] s'] eqn:Hrec.
    eapply read_some; eauto. by apply Z.eqb_neq.
Qed.

(** Induction on the fuel, with the current iteration split into its
    cases. *)
Ltac by_iteration fuel IH :=
  induction fuel as [|fuel IH]; intros it done s tr ex s' Hrun;
  [ injection Hrun as <- <- <-
  | let Hit := fresh "Hit" in
    match type of Hrun with
    | Write_loop ?env _ _ _ _ = _ =>
        pose proof (Write_loop_iteration env fuel it done s) as Hit
    end;
    rewrite Hrun in Hit; inversion Hit; subst; clear Hit ].

Lemma hard_Some (e : error) : hard (Some e) = negb (is_EOF e).
Proof. unfold hard. by rewrite bool_decide_eq_true_2 by eauto. Qed.

(** Closes a case in which a failure is at once unrecoverable and not. *)
Ltac not_hard :=
  match goal with
  | Hsoft : hard (Some ?e) = false, Hhard : is_EOF ?e = false |- _ =>
      rewrite hard_Some, Hhard in Hsoft; discriminate Hsoft
  end.

Lemma productive_hard (bs : bytes) (err : option error) :
  productive bs err = negb (hard err) && negb (len bs =? 0).
Proof. done. Qed.

(** Unless the producer is stuck in a send, the data of the Regions emitted
    are the byte strings of the productive reads. *)
Lemma Write_loop_data (env : Env) (fuel : nat) :
  ∀ it done (s : source R B) tr ex s',
    Write_loop env fuel it done s = (tr, ex, s') →
    ex ≠ Blocked →
    Data <$> emitted tr = read_data tr.
Proof.
  by_iteration fuel IH; intros Hex; simpl; try done.
  - rewrite productive_hard. unfold hard. simpl.
    match goal with Hh : is_EOF _ = false |- _ => by rewrite Hh end.
  - rewrite productive_hard.
    match goal with Hz : len bs = 0 |- _ => rewrite Hz end.
    by rewrite andb_false_r.
  - rewrite productive_hard.
    match goal with Hh : hard err = false |- _ => rewrite Hh end.
    match goal with Hz : len bs ≠ 0 |- _ => apply Z.eqb_neq in Hz; rewrite Hz end.
    simpl. f_equal. by eapply IH.
Qed.

(** Each Region is sent right after the read that filled it, and carries
    the bytes of that read. *)
Lemma Write_loop_emit_follows_read (env : Env) (fuel : nat) :
  ∀ it done (s : source R B) tr ex s',
    Write_loop env fuel it done s = (tr, ex, s') →
    (∀ rg, tr !! 0%nat ≠ Some (EvEmit rg)) ∧
    (∀ j rg, tr !! S j = Some (EvEmit rg) →
             ∃ err, tr !! j = Some (EvRead (Data rg) err)).
Proof.
  by_iteration fuel IH.
  all: try (split; [done|]; intros [|[|[|j]]] rg; by simpl).
  split; [done|]. intros [|[|j]] rg Hj; simpl in *.
  - injection Hj as <-. by eexists.
  - edestruct IH as [Hfirst _]; [eassumption|]. by apply Hfirst in Hj.
  - edestruct IH as [_ Hnext]; [eassumption|]. by apply Hnext.
Qed.

Lemma total_len_cons (rg : Region) (rs : list Region) :
  total_len (rg :: rs) = len (Data rg) + total_len rs.
Proof. done. Qed.

(** The offset of a Region is the base offset advanced, in [int64]
    arithmetic, by the lengths of the Regions emitted before it. *)
Lemma Write_loop_offsets (env : Env) (fuel : nat) :
  ∀ it done (s : source R B) tr ex s',
    Write_loop env fuel it done s = (tr, ex, s') →
    in_int64 (off s) →
    ∀ i rg, emitted tr !! i = Some rg →
            Off rg = wrap64 (off s + total_len (take i (emitted tr))).
Proof.
  by_iteration fuel IH; intros Hoff i rg Hi; try done.
  simpl in Hi. destruct i as [|i]; simpl in Hi.
  - injection Hi as <-. simpl. rewrite Z.add_0_r. by rewrite wrap64_id.
  - simpl emitted. rewrite firstn_cons, total_len_cons. simpl Data.
    erewrite IH; [|eassumption|apply wrap64_in_range|eassumption].
    simpl off. unfold int64_add. rewrite wrap64_add_l. f_equal. lia.
Qed.

(** A run that returned or panicked has closed the output channel, once,
    as its last act; a run still going or stuck in a send has not closed
    it. *)
Lemma Write_loop_closes (env : Env) (fuel : nat) :
  ∀ it done (s : source R B) tr ex s',
    Write_loop env fuel it done s = (tr, ex, s') →
    match ex with
    | Returned | Panicked => closes tr = 1%nat ∧ last tr = Some EvClose
    | Blocked | OutOfFuel => closes tr = 0%nat
    end.
Proof.
  by_iteration fuel IH; try done.
  specialize (IH _ _ _ _ _ _ ltac:(eassumption)). simpl.
  destruct ex; try done.
  all: destruct IH as [? Hlast]; split; [done|];
    destruct tr0; [done|]; by rewrite !last_cons_cons.
Qed.

(** An unrecoverable read failure ends the loop: the error is sent, alone,
    on the terminal-signal channel and the function returns, or the
    producer stays in that send. *)
Lemma Write_loop_failure (env : Env) (fuel : nat) :
  ∀ it done (s : source R B) tr ex s',
    Write_loop env fuel it done s = (tr, ex, s') →
    ∀ bs e, EvRead bs (Some e) ∈ tr → is_EOF e = false →
            if errs_room env
            then ex = Returned ∧ errs_sent tr = [Some e]
            else ex = Blocked ∧ errs_sent tr = [].
Proof.
  by_iteration fuel IH; intros bs0 e0 Hin Hhard0.
  all: repeat (apply elem_of_cons in Hin as [Hin|Hin]; try discriminate Hin).
  all: try by apply elem_of_nil in Hin.
  - injection Hin as <- <-.
    match goal with Hr : errs_room env = _ |- _ => by rewrite Hr end.
  - injection Hin as <- <-.
    match goal with Hr : errs_room env = _ |- _ => by rewrite Hr end.
  - simplify_eq. by not_hard.
  - simplify_eq. by not_hard.
  - simplify_eq. by not_hard.
  - simpl. by eapply IH.
Qed.

(** A read of zero bytes at end of stream ends the run with nothing sent on
    the terminal-signal channel. *)
Lemma Write_loop_end_of_stream (env : Env) (fuel : nat) :
  ∀ it done (s : source R B) tr ex s',
    Write_loop env fuel it done s = (tr, ex, s') →
    ∀ bs e, EvRead bs (Some e) ∈ tr → is_EOF e = true → len bs = 0 →
            ex = Returned ∧ errs_sent tr = [].
Proof.
  by_iteration fuel IH; intros bs0 e0 Hin Heof0 Hzero.
  all: repeat (apply elem_of_cons in Hin as [Hin|Hin]; try discriminate Hin).
  all: try by apply elem_of_nil in Hin.
  - simplify_eq. congruence.
  - simplify_eq. congruence.
  - done.
  - by simplify_eq.
  - by simplify_eq.
  - simpl. by eapply IH.
Qed.

(** C6.  Each Region emitted by the reader-backed producer is sent right
    after the read that filled it and carries the bytes of that read (the
    buffer cut to the read count); the Regions emitted are, in order, those
    of the reads that returned data.  The offset of the i-th Region is the
    base offset plus the lengths of the Regions emitted before it, in
    [int64] arithmetic (exactly so while the sum stays within [int64]).  A
    read that returns end of stream with zero bytes makes the producer
    return, having closed its output channel and sent nothing on the
    terminal-signal channel. *)
Theorem Write_emits_reads_at_running_offset (env : Env) (fuel : nat)
    (s : source R B) (tr : list event) (ex : exit) (s' : source R B) :
  in_int64 (off s) →
  Write env fuel s = (tr, ex, s') →
  (∀ j rg, tr !! S j = Some (EvEmit rg) →
           ∃ err, tr !! j = Some (EvRead (Data rg) err)) ∧
  (ex ≠ Blocked → Data <$> emitted tr = read_data tr) ∧
  (∀ i rg, emitted tr !! i = Some rg →
     Off rg = wrap64 (off s + total_len (take i (emitted tr))) ∧
     (in_int64 (off s + total_len (take i (emitted tr))) →
      Off rg = off s + total_len (take i (emitted tr)))) ∧
  (∀ bs e, EvRead bs (Some e) ∈ tr → is_EOF e = true → len bs = 0 →
     ex = Returned ∧ closes tr = 1%nat ∧ last tr = Some EvClose ∧
     errs_sent tr = []).
Proof.
  unfold Write. intros Hoff Hrun. split_and!.
  - by eapply Write_loop_emit_follows_read.
  - by eapply Write_loop_data.
  - intros i rg Hi.
    pose proof (Write_loop_offsets _ _ _ _ _ _ _ _ Hrun Hoff i rg Hi) as Heq.
    split; [done|]. intros Hfits. by rewrite Heq, wrap64_id.
  - intros bs e Hin Heof Hzero.
    destruct (Write_loop_end_of_stream _ _ _ _ _ _ _ _ Hrun bs e Hin Heof Hzero)
      as [-> Hnone].
    pose proof (Write_loop_closes _ _ _ _ _ _ _ _ Hrun) as [Hone Hlast]. done.
Qed.

(** C3, amended.  When a read fails with anything but end of stream, the
    producer sends that one error, and nothing else, on the terminal-signal
    channel and returns once the send has gone through; its output channel
    is closed on that path as on every other path out of the function,
    once, as the last thing it does. *)
Theorem Write_failure_sends_once_and_closes (env : Env) (fuel : nat)
    (s : source R B) (tr : list event) (ex : exit) (s' : source R B) :
  errs_room env = true →
  Write env fuel s = (tr, ex, s') →
  (∀ bs e, EvRead bs (Some e) ∈ tr → is_EOF e = false →
     ex = Returned ∧ errs_sent tr = [Some e] ∧
     closes tr = 1%nat ∧ last tr = Some EvClose) ∧
  (ex = Returned → closes tr = 1%nat ∧ last tr = Some EvClose).
Proof.
  unfold Write. intros Hroom Hrun.
  pose proof (Write_loop_closes _ _ _ _ _ _ _ _ Hrun) as Hclose.
  split; [|by intros ->]. intros bs e Hin Hhard.
  pose proof (Write_loop_failure _ _ _ _ _ _ _ _ Hrun bs e Hin Hhard) as Hfail.
  rewrite Hroom in Hfail. destruct Hfail as [-> Hsent]. by destruct Hclose.
Qed.

End SourceFacts.

Section SourceExamples.
Import Buffer Source.

Example Write_two_reads :
  Write cancelled 5 two_reads =
    ([EvRead [x41; x42; x43; x44] None;
      EvEmit (mkRegion [x41; x42; x43; x44] 100);
      EvRead [x45] (Some EOF);
      EvEmit (mkRegion [x45] 104);
      EvRead [] (Some EOF);
      EvClose],
     Returned, mkSource [] 105 (mkPooled [] 2 4)).
Proof. reflexivity. Qed.

Lemma Write_emits_reads_at_running_offset_witness :
  let tr := (Write cancelled 5 two_reads).1.1 in
  let ex := (Write cancelled 5 two_reads).1.2 in
  (∀ j rg, tr !! S j = Some (EvEmit rg) →
           ∃ err, tr !! j = Some (EvRead (Data rg) err)) ∧
  (ex ≠ Blocked → Data <$> emitted tr = read_data tr) ∧
  (∀ i rg, emitted tr !! i = Some rg →
     Off rg = wrap64 (100 + total_len (take i (emitted tr))) ∧
     (in_int64 (100 + total_len (take i (emitted tr))) →
      Off rg = 100 + total_len (take i (emitted tr)))) ∧
  (∀ bs e, EvRead bs (Some e) ∈ tr → is_EOF e = true → len bs = 0 →
     ex = Returned ∧ closes tr = 1%nat ∧ last tr = Some EvClose ∧
     errs_sent tr = []).
Proof.
  apply (Write_emits_reads_at_running_offset cancelled 5 two_reads
           _ _ (Write cancelled 5 two_reads).2).
  - unfold in_int64. simpl. lia.
  - reflexivity.
Defined.

(** C3, as claimed, fails: after a read failure the producer has sent the
    error and then closed its output channel. *)
Lemma Write_closes_after_read_failure :
  Write background 5 failing_read =
    ([EvRead [x41; x42] None;
      EvEmit (mkRegion [x41; x42] 0);
      EvRead [] (Some (ErrorString "read failed"));
      EvSend (Some (ErrorString "read failed"));
      EvClose],
     Returned, mkSource [] 2 (mkPooled [] 2 4)) ∧
  closes (Write background 5 failing_read).1.1 ≠ 0%nat.
Proof. split; [reflexivity|]. simpl. lia. Qed.

Lemma Write_failure_sends_once_and_closes_witness :
  let tr := (Write background 5 failing_read).1.1 in
  let ex := (Write background 5 failing_read).1.2 in
  (∀ bs e, EvRead bs (Some e) ∈ tr → is_EOF e = false →
     ex = Returned ∧ errs_sent tr = [Some e] ∧
     closes tr = 1%nat ∧ last tr = Some EvClose) ∧
  (ex = Returned → closes tr = 1%nat ∧ last tr = Some EvClose).
Proof.
  apply (Write_failure_sends_once_and_closes background 5 failing_read
           _ _ (Write background 5 failing_read).2).
  - reflexivity.
  - reflexivity.
Defined.

End SourceExamples.

(* ====================================================================== *)
(** * Properties of the single-writer consumer *)
(* ====================================================================== *)

Section SinkFacts.
Import Buffer Sink.
Context {W B : Type} `{WriterAt W} `{Buffer B}.

Lemma errs_sent_app (tr1 tr2 : list event) :
  errs_sent (tr1 ++ tr2) = errs_sent tr1 ++ errs_sent tr2.
Proof.
  induction tr1 as [|[] tr1 IH]; simpl; [done|done|done|]. by rewrite IH.
Qed.

Lemma write_errors_app (tr1 tr2 : list event) :
  write_errors (tr1 ++ tr2) = write_errors tr1 ++ write_errors tr2.
Proof.
  induction tr1 as [|[p o n [e|]| |] tr1 IH]; simpl; try done. by rewrite IH.
Qed.

(** The inner loop sends nothing on the terminal-signal channel, and a
    write error is the last thing it sees. *)
Lemma write_loop_errors (fuel : nat) :
  ∀ (w w' : W) (data : Region) (written : Z) (tr : list event) (fl : flush),
    write_loop fuel w data written = (tr, fl, w') →
    errs_sent tr = [] ∧
    match fl with
    | WriteFailed e => write_errors tr = [e]
    | _ => write_errors tr = []
    end.
Proof.
  induction fuel as [|fuel IH]; intros w w' data written tr fl Hrun;
    simpl in Hrun.
  { by injection Hrun as <- <- <-. }
  destruct (written <? len (Data data)); [|by injection Hrun as <- <- <-].
  destruct (WriteAt w _ (Off data)) as [[n [e|]] w1].
  { by injection Hrun as <- <- <-. }
  destruct (write_loop fuel w1 data _) as [[tr1 fl1] w2] eqn:Hrec.
  injection Hrun as <- <- <-. simpl. by eapply IH.
Qed.

(** Every positional write issued for a Region names the Region's own
    offset, however many bytes earlier calls have written. *)
Lemma write_loop_same_offset (fuel : nat) :
  ∀ (w w' : W) (data : Region) (written : Z) (tr : list event) (fl : flush),
    write_loop fuel w data written = (tr, fl, w') →
    ∀ p o n, (p, o, n) ∈ write_calls tr → o = Off data.
Proof.
  induction fuel as [|fuel IH]; intros w w' data written tr fl Hrun p o n Hin;
    simpl in Hrun.
  { injection Hrun as <- <- <-. by apply elem_of_nil in Hin. }
  destruct (written <? len (Data data));
    [|injection Hrun as <- <- <-; by apply elem_of_nil in Hin].
  destruct (WriteAt w _ (Off data)) as [[n1 [e|]] w1].
  { injection Hrun as <- <- <-. simpl in Hin.
    apply elem_of_cons in Hin as [Hin|Hin]; [by simplify_eq|].
    by apply elem_of_nil in Hin. }
  destruct (write_loop fuel w1 data _) as [[tr1 fl1] w2] eqn:Hrec.
  injection Hrun as <- <- <-. simpl in Hin.
  apply elem_of_cons in Hin as [Hin|Hin]; [by simplify_eq|]. by eapply IH.
Qed.

(** A writer that accepts at least one byte of every non-empty slice, or
    fails. *)
Definition makes_progress : Prop :=
  ∀ (w : W) (p : bytes) (o : Z),
    p ≠ [] → (WriteAt w p o).1.2 = None → (0 < (WriteAt w p o).1.1)%nat.

(** With such a writer the inner loop is over after at most one call per
    byte. *)
Lemma write_loop_terminates (fuel : nat) :
  makes_progress →
  ∀ (w : W) (data : Region) (written : Z),
    0 ≤ written ≤ len (Data data) →
    len (Data data) - written < Z.of_nat fuel →
    (write_loop fuel w data written).1.2 ≠ Spinning.
Proof.
  intros Hprog. induction fuel as [|fuel IH]; intros w data written Hpos Hfuel.
  { lia. }
  simpl. destruct (Z.ltb_spec written (len (Data data))) as [Hlt|Hge]; [|done].
  pose proof (Hprog w (drop (Z.to_nat written) (Data data)) (Off data)) as Hn.
  pose proof (WriteAt_le w (drop (Z.to_nat written) (Data data)) (Off data)) as Hle.
  destruct (WriteAt w _ (Off data)) as [[n [e|]] w1]; [done|].
  simpl in Hn, Hle.
  assert (0 < n)%nat as Hn'.
  { apply Hn; [|done]. intros Hnil.
    apply (f_equal length) in Hnil. rewrite length_drop in Hnil.
    unfold len in *. simpl in Hnil. lia. }
  rewrite length_drop in Hle. unfold len in *.
  specialize (IH w1 data (written + Z.of_nat n) ltac:(lia) ltac:(lia)).
  by destruct (write_loop fuel w1 data _) as [[tr1 fl1] w2].
Qed.

Lemma report_sends (env : Env) (v : option error) (s s' : sink W B)
    (tr : list event) (ex : exit) :
  report env v s = (tr, ex, s') →
  write_errors tr = [] ∧
  match ex with
  | Returned => errs_sent tr = [v]
  | _ => errs_sent tr = []
  end.
Proof. unfold report. destruct (errs_room env); by intros [= <- <- <-]. Qed.

(** What a run of [Read] has sent on the terminal-signal channel: one value
    if it returned, decided by whether a write failed, and nothing while it
    is still writing or waiting. *)
Lemma Read_loop_sends (env : Env) (fuel : nat) (source : list Region) :
  ∀ (k : nat) (s s' : sink W B) (tr : list event) (ex : exit),
    Read_loop env fuel k source s = (tr, ex, s') →
    match ex with
    | Returned =>
        (write_errors tr = [] ∧ errs_sent tr = [None]) ∨
        (∃ e, write_errors tr = [e] ∧
              errs_sent tr = [Some (Wrapf "error writing region" e)])
    | _ => errs_sent tr = []
    end.
Proof.
  induction source as [|data source IH]; intros k s s' tr ex Hrun;
    simpl in Hrun.
  { destruct (closes_input env); [|by injection Hrun as <- <- <-].
    apply report_sends in Hrun as [Hnone Hsent]. destruct ex; auto. }
  destruct (bool_decide (is_Some (ctx_Err env k))).
  { apply report_sends in Hrun as [Hnone Hsent]. destruct ex; auto. }
  destruct (write_loop fuel (w s) data 0) as [[tr1 fl] w1] eqn:Hw.
  apply write_loop_errors in Hw as [Hsent Herr].
  destruct fl as [|e|].
  - destruct (Read_loop env fuel (S k) source _) as [[tr2 ex2] s2] eqn:Hrec.
    injection Hrun as <- <- <-. apply IH in Hrec.
    rewrite errs_sent_app, write_errors_app, Hsent, Herr. simpl. done.
  - destruct (report env _ _) as [[tr2 ex2] s2] eqn:Hrep.
    injection Hrun as <- <- <-. apply report_sends in Hrep as [Hnone Hrep].
    rewrite errs_sent_app, write_errors_app, Hsent, Herr, Hnone. simpl.
    destruct ex2; try done. right. by exists e.
  - by injection Hrun as <- <- <-.
Qed.

(** With a writer that makes progress, a call budget above the longest
    Region, an input that is closed in the end and room on the
    terminal-signal channel, [Read] returns. *)
Lemma Read_loop_returns (env : Env) (fuel : nat) (source : list Region) :
  makes_progress →
  closes_input env = true → errs_room env = true →
  (∀ data, data ∈ source → len (Data data) < Z.of_nat fuel) →
  ∀ (k : nat) (s : sink W B), (Read_loop env fuel k source s).1.2 = Returned.
Proof.
  intros Hprog Hcl Hroom.
  induction source as [|data source IH]; intros Hfuel k s; simpl.
  { unfold report. by rewrite Hcl, Hroom. }
  destruct (bool_decide (is_Some (ctx_Err env k)));
    [unfold report; by rewrite Hroom|].
  pose proof (write_loop_terminates fuel Hprog (w s) data 0
                ltac:(unfold len; lia)) as Hterm.
  destruct (write_loop fuel (w s) data 0) as [[tr1 fl] w1]. simpl in Hterm.
  destruct fl as [|e|].
  - specialize (IH ltac:(intros d Hd; apply Hfuel; by right) (S k)
                  {| w := w1; buff := Put (buff s) (Data data) |}).
    by destruct (Read_loop env fuel (S k) source _) as [[tr2 ex2] s2].
  - unfold report. by rewrite Hroom.
  - exfalso. apply Hterm; [|done].
    rewrite Z.sub_0_r. apply Hfuel. by left.
Qed.

(** C10.  Whenever the single-writer consumer returns without a failed
    positional write, be it at the closing of its input or because
    cancellation was observed after a receive, the one value it has sent
    on the terminal-signal channel is nil; any non-nil value it sends wraps
    the error of a failed write. *)
Theorem Read_reports_nil_unless_write_failed (env : Env) (fuel : nat)
    (source : list Region) (s s' : sink W B) (tr : list event) :
  Read env fuel source s = (tr, Returned, s') →
  (write_errors tr = [] → errs_sent tr = [None]) ∧
  (∀ e', Some e' ∈ errs_sent tr →
     ∃ e, write_errors tr = [e] ∧ e' = Wrapf "error writing region" e ∧
          errs_sent tr = [Some e']).
Proof.
  unfold Read. intros Hrun. apply Read_loop_sends in Hrun.
  destruct Hrun as [[Hnone Hnil]|(e & Hone & Herr)].
  - split; [done|]. intros e' Hin. rewrite Hnil in Hin.
    apply list_elem_of_singleton in Hin. done.
  - split; [by rewrite Hone|]. intros e' Hin. rewrite Herr in Hin.
    apply list_elem_of_singleton in Hin. injection Hin as ->.
    by exists e.
Qed.

End SinkFacts.

Section SinkExamples.
Import Buffer Sink.

Lemma chunked_makes_progress (c : chunked) :
  (0 < chunk c)%nat →
  ∀ (p : bytes) (o : Z), p ≠ [] → (0 < (WriteAt c p o).1.1)%nat.
Proof.
  intros Hc p o Hp. simpl. rewrite length_take.
  destruct p; [done|]. simpl. lia.
Qed.

Lemma Read_reports_nil_unless_write_failed_witness :
  let tr := (Read (cancelled_from 1) 3 [region_AB; region_CD]
               (Sink byte_at_a_time (mkPooled [] 2 4))).1.1 in
  (write_errors tr = [] → errs_sent tr = [None]) ∧
  (∀ e', Some e' ∈ errs_sent tr →
     ∃ e, write_errors tr = [e] ∧ e' = Wrapf "error writing region" e ∧
          errs_sent tr = [Some e']).
Proof.
  apply (Read_reports_nil_unless_write_failed (cancelled_from 1) 3
           [region_AB; region_CD] (Sink byte_at_a_time (mkPooled [] 2 4))
           (Read (cancelled_from 1) 3 [region_AB; region_CD]
              (Sink byte_at_a_time (mkPooled [] 2 4))).2).
  reflexivity.
Defined.

(** Cancellation seen after the second receive: the first Region is
    written, the second is dropped, and nil is sent. *)
Example Read_cancelled_midstream :
  Read (cancelled_from 1) 3 [region_AB; region_CD]
    (Sink byte_at_a_time (mkPooled [] 2 4)) =
    ([EvWriteAt [x41; x42] 10 1 None; EvWriteAt [x42] 10 1 None;
      EvPut [x41; x42]; EvSend None],
     Returned,
     mkSink (mkChunked 1 [(10, x41); (10, x42)]) (mkPooled [[x41; x42]] 2 4)).
Proof. reflexivity. Qed.

(** A failed write is what produces a non-nil terminal value. *)
Example Read_write_fails :
  Read background 3 [region_AB]
    (Sink ([(1%nat, None); (0%nat, Some (ErrorString "disk full"))] : script)
       (mkPooled [] 2 4)) =
    ([EvWriteAt [x41; x42] 10 1 None;
      EvWriteAt [x42] 10 0 (Some (ErrorString "disk full"));
      EvSend (Some (Wrapf "error writing region" (ErrorString "disk full")))],
     Returned, mkSink [] (mkPooled [] 2 4)).
Proof. reflexivity. Qed.

(** C1 on the code.  The Region "AB" at offset 10 goes to a destination
    that takes one byte per call.  The single-writer consumer and the task
    of the writer-pool consumer both issue the retry for "B" at offset 10
    again, not at 10 + 1, so that the destination ends with both bytes
    written at offset 10. *)
Theorem short_write_retried_at_region_offset :
  Read background 3 [region_AB] (Sink byte_at_a_time (mkPooled [] 2 4)) =
    ([EvWriteAt [x41; x42] 10 1 None; EvWriteAt [x42] 10 1 None;
      EvPut [x41; x42]; EvSend None],
     Returned,
     mkSink (mkChunked 1 [(10, x41); (10, x42)]) (mkPooled [[x41; x42]] 2 4)) ∧
  (Pool.log <$>
     Pool.run [Pool.Main; Pool.Main; Pool.Task 0; Pool.Task 0; Pool.Task 0;
               Pool.Main; Pool.Main; Pool.Main]
       (Pool.start (mkPooled [] 2 4) [byte_at_a_time] [region_AB])) =
    Some [EvWriteAt [x41; x42] 10 1 None; EvWriteAt [x42] 10 1 None;
          EvPut [x41; x42]; EvSend None].
Proof. split; vm_compute; reflexivity. Qed.

End SinkExamples.

(* ====================================================================== *)
(** * The writer-pool consumer on failing writes *)
(* ====================================================================== *)

Section PoolFacts.
Import Buffer Sink Pool.
Context {W B : Type} `{WriterAt W} `{Buffer B}.

(** An abandoned [Read] stays where it is: nothing but the cancellation
    flag can change any more. *)
Lemma abandoned_step (c : choice) (st st' : state W B) :
  abandoned st → step c st = Some st' →
  abandoned st' ∧ log st' = log st ∧ errs st' = errs st.
Proof.
  intros (Hpc & Hwait & Htasks & Hres) Hstep.
  destruct c as [|i| |]; simpl in Hstep.
  - unfold step_main in Hstep. rewrite Hpc in Hstep.
    by destruct (Z.eqb_spec (waiter st) 0).
  - unfold step_task in Hstep.
    destruct (tasks st !! i) as [t|] eqn:Ht; [|done].
    destruct (Htasks i t Ht) as [released Hexit]. by rewrite Hexit in Hstep.
  - unfold step_orchestrator in Hstep. by destruct (result st).
  - injection Hstep as <-. by repeat split.
Qed.

Lemma abandoned_run (sched : list choice) :
  ∀ st st' : state W B,
    abandoned st → run sched st = Some st' →
    abandoned st' ∧ log st' = log st ∧ errs st' = errs st.
Proof.
  induction sched as [|c sched IH]; intros st st' Hab Hrun; simpl in Hrun.
  { by injection Hrun as <-. }
  destruct (step c st) as [st1|] eqn:Hstep; [|done].
  destruct (abandoned_step c st st1 Hab Hstep) as (Hab1 & Hlog1 & Herrs1).
  destruct (IH st1 st' Hab1 Hrun) as (Hab' & Hlog' & Herrs').
  split; [done|]. split; congruence.
Qed.

End PoolFacts.

Section PoolExamples.
Import Buffer Sink Pool.

(** C2 on the code.  With two writers whose writes both fail, the
    writer-pool consumer places two values on the terminal-signal channel,
    one per failed task.  Neither task has released its writer or called
    [waiter.Done()], so [Read] itself is left in [waiter.Wait()] with the
    counter at 2, and however the run goes on it stays there and never
    sends its own outcome. *)
Theorem two_failed_tasks_send_two_outcomes :
  ∃ st, run both_fail (start (mkPooled [] 2 4) [broken; broken] [region_AB; region_CD])
          = Some st ∧
    errs_sent (log st) =
      [Some (Wrapf "error writing regions" (ErrorString "disk full"));
       Some (Wrapf "error writing regions" (ErrorString "disk full"))] ∧
    result st = Some (Some (Wrapf "error writing regions" (ErrorString "disk full"))) ∧
    errs st = [Some (Wrapf "error writing regions" (ErrorString "disk full"))] ∧
    waiter st = 2 ∧ writers st = [] ∧
    (∀ sched st', run sched st = Some st' →
       pc st' = Wait ∧ errs_sent (log st') = errs_sent (log st)).
Proof.
  eexists. split; [vm_compute; reflexivity|]. split_and!; try reflexivity.
  intros sched st' Hrun.
  apply abandoned_run in Hrun as ((Hpc & _) & Hlog & _).
  - by rewrite Hlog.
  - split_and!; try done.
    intros [|[|i]] t Ht; simpl in Ht; simplify_eq; by eexists.
Qed.

End PoolExamples.

(* ====================================================================== *)
(** * Properties of the orchestrator *)
(* ====================================================================== *)

Section PipeFacts.
Import Pipe.
Context {S' K V : Type} `{Valve V}.
Local Open Scope nat_scope.

(** The wiring loop, started with [i - 1] calls made and [todo] valves to
    go: it does not panic, keeps the slots below [i], and fills each
    further slot with what the next valve upstream returned when given the
    slot before it. *)
Lemma open_loop_spec (vs : list V) :
  ∀ (todo i : nat) (out : chan) (cn : list (option chan)) (h : heap)
    (calls : list call),
    1 ≤ i → i + todo = length cn → todo ≤ length vs →
    cn !! (i - 1) = Some (Some out) → length calls = i - 1 →
    ∃ cn' h' calls',
      open_loop vs todo i out cn h calls = Some (cn', h', calls') ∧
      length cn' = length cn ∧
      (∀ j, j < i → cn' !! j = cn !! j) ∧
      length calls' = i - 1 + todo ∧
      (∀ j, j < i - 1 → calls' !! j = calls !! j) ∧
      (∀ j, i - 1 ≤ j < i - 1 + todo →
         ∃ b cj cj1 v hj,
           b + j + 2 = todo + i ∧
           calls' !! j = Some (mkCall b cj cj1) ∧
           vs !! b = Some v ∧
           cn' !! j = Some (Some cj) ∧
           cn' !! S j = Some (Some cj1) ∧
           (Open v cj hj).1 = cj1).
Proof.
  induction todo as [|b IH]; intros i out cn h calls Hi Hlen Hvs Hout Hcalls.
  { exists cn, h, calls. simpl. split_and!; try done; [lia|]. intros j Hj. lia. }
  simpl.
  destruct (lookup_lt_is_Some_2 vs b ltac:(lia)) as [v Hv]. rewrite Hv.
  destruct (Open v out h) as [in_ h1] eqn:Hopen.
  rewrite bool_decide_eq_true_2 by lia.
  destruct (IH (S i) in_ (<[i := Some in_]> cn) h1 (calls ++ [mkCall b out in_]))
    as (cn' & h' & calls' & Hrun & Hlen' & Hkeep & Hclen & Hckeep & Hnew).
  - lia.
  - rewrite length_insert. lia.
  - lia.
  - replace (S i - 1) with i by lia. apply list_lookup_insert_eq. lia.
  - rewrite length_app. simpl. lia.
  - exists cn', h', calls'. rewrite length_insert in Hlen'.
    split_and!; try done.
    + intros j Hj. rewrite Hkeep by lia. apply list_lookup_insert_ne. lia.
    + lia.
    + intros j Hj. rewrite Hckeep by lia. apply lookup_app_l. lia.
    + intros j Hj. destruct (decide (j = i - 1)) as [->|Hne].
      * exists b, out, in_, v, h. split_and!.
        -- lia.
        -- rewrite Hckeep by lia. rewrite lookup_app_r by lia.
           by replace (i - 1 - length calls) with 0 by lia.
        -- done.
        -- rewrite Hkeep by lia. rewrite list_lookup_insert_ne by lia. done.
        -- replace (S (i - 1)) with i by lia. rewrite Hkeep by lia.
           apply list_lookup_insert_eq. lia.
        -- by rewrite Hopen.
      * destruct (Hnew j ltac:(lia)) as (b' & cj & cj1 & v' & hj & Hb & Hrest).
        exists b', cj, cj1, v', hj. split; [lia|done].
Qed.

(** [p.open] on a pipe with [n] valves. *)
Lemma open_spec (p : Pipe S' K V) (h : heap) :
  ∃ cn h' cs,
    open p h = Some (cn, h', cs) ∧
    length cn = S (length (valves p)) ∧
    cn !! 0 = Some (Some h) ∧
    length cs = length (valves p) ∧
    (∀ j, j < length (valves p) →
       ∃ cj cj1 v hj,
         cs !! j = Some (mkCall (length (valves p) - 1 - j) cj cj1) ∧
         valves p !! (length (valves p) - 1 - j) = Some v ∧
         cn !! j = Some (Some cj) ∧
         cn !! S j = Some (Some cj1) ∧
         (Open v cj hj).1 = cj1).
Proof.
  unfold open, make_chan.
  destruct (open_loop_spec (valves p) (length (valves p)) 1 h
              (<[0 := Some h]> (replicate (length (valves p) + 1) None))
              (S h) [])
    as (cn & h' & cs & Hrun & Hlen & Hkeep & Hclen & _ & Hnew).
  - lia.
  - rewrite length_insert, length_replicate. lia.
  - lia.
  - simpl. apply list_lookup_insert_eq. rewrite length_replicate. lia.
  - done.
  - exists cn, h', cs. rewrite length_insert, length_replicate in Hlen.
    split_and!.
    + done.
    + lia.
    + rewrite Hkeep by lia. apply list_lookup_insert_eq.
      rewrite length_replicate. lia.
    + lia.
    + intros j Hj. destruct (Hnew j ltac:(lia)) as (b & cj & cj1 & v & hj & Hb & Hrest).
      replace (length (valves p) - 1 - j) with b by lia. by exists cj, cj1, v, hj.
Qed.

(** C7.  For a pipe with [n] valves the wiring returns [n + 1] channels.
    Slot 0 holds the channel the wiring makes itself, before any valve is
    opened; the [j]-th call of [Open] goes to valve [n - 1 - j] (the last
    valve first), is given the channel of slot [j] as its output and fills
    slot [j + 1] with the input channel it returns.  The producer is
    started on the channel of slot [n] and the consumer reads the channel
    of slot 0. *)
Theorem open_wires_from_consumer_to_producer (p : Pipe S' K V) (h : heap)
    (sel : selected) :
  ∃ o,
    Pipe_run p h sel = Some o ∧
    length (connectors o) = S (length (valves p)) ∧
    connectors o !! 0 = Some (Some h) ∧
    length (wiring o) = length (valves p) ∧
    (∀ j, j < length (valves p) →
       ∃ cj cj1 v hj,
         wiring o !! j = Some (mkCall (length (valves p) - 1 - j) cj cj1) ∧
         valves p !! (length (valves p) - 1 - j) = Some v ∧
         connectors o !! j = Some (Some cj) ∧
         connectors o !! S j = Some (Some cj1) ∧
         (Open v cj hj).1 = cj1) ∧
    (∃ first, connectors o !! length (valves p) = Some (Some first) ∧
              write_on o = Some first) ∧
    read_on o = Some h.
Proof.
  destruct (open_spec p h) as (cn & h' & cs & Hopen & Hlen & Hzero & Hclen & Hcalls).
  assert (∃ first, cn !! length (valves p) = Some (Some first)) as [first Hfirst].
  { destruct (valves p) as [|v0 vs] eqn:Hvs; [by eauto|].
    destruct (Hcalls (length vs) ltac:(simpl; lia))
      as (cj & cj1 & v & hj & _ & _ & _ & Hnext & _).
    by eauto. }
  unfold Pipe_run. rewrite Hopen.
  assert (mjoin (cn !! (length cn - 1)) = Some first) as Hw.
  { rewrite Hlen. replace (S (length (valves p)) - 1) with (length (valves p)) by lia.
    by rewrite Hfirst. }
  assert (mjoin (cn !! 0) = Some h) as Hr by by rewrite Hzero.
  destruct sel as [err|why]; eexists; (split; [reflexivity|]); simpl;
    rewrite ?Hw, ?Hr; split_and!; eauto.
Qed.

(** C5.  [Pipe.Pipe] returns once its [select] has taken the first value
    from the terminal-signal channel or has found the context done.  It
    returns nil exactly when a nil was taken; a non-nil error taken is
    returned as it is, with [cancel()] called right after the receive; when
    the context is done it returns the context's error, and the deferred
    [cancel()] runs. *)
Theorem Pipe_returns_first_outcome (p : Pipe S' K V) (h : heap) (sel : selected) :
  ∃ o,
    Pipe_run p h sel = Some o ∧
    (ret o = None ↔ sel = FromDone None) ∧
    match sel with
    | FromDone err =>
        ret o = err ∧ actions o = [ActTake err; ActCancel; ActCancel]
    | FromCtx why =>
        ret o = Some (ctx_Err why) ∧ actions o = [ActExpired why; ActCancel]
    end.
Proof.
  destruct (open_spec p h) as (cn & h' & cs & Hopen & _).
  unfold Pipe_run. rewrite Hopen.
  destruct sel as [err|why]; eexists; (split; [reflexivity|]); simpl.
  - split; [|done]. split; [by intros ->|by intros [= ->]].
  - split; [|done]. split; [done|done].
Qed.

End PipeFacts.

Section PipeExamples.
Import Pipe.
Local Open Scope nat_scope.

(** Two valves that make their own input channels, wired from a heap whose
    next fresh channel is 7: the sink reads channel 7, the second valve
    writes to 7 and reads 8, the first valve writes to 8 and reads 9, and
    the source writes to 9. *)
Example open_two_valves :
  open (New tt tt [NoopValve; NoopValve]) 7 =
    Some ([Some 7; Some 8; Some 9], 10, [mkCall 1 7 8; mkCall 0 8 9]).
Proof. reflexivity. Qed.

End PipeExamples.

(* ====================================================================== *)
(** * Properties of the fan *)
(* ====================================================================== *)

Section FanFacts.
Import Fan.

Lemma from_app (i : nat) (o1 o2 : list (nat * Region)) :
  from i (o1 ++ o2) = from i o1 ++ from i o2.
Proof. unfold from. by rewrite filter_app, fmap_app. Qed.

Lemma from_snoc (j i : nat) (o : list (nat * Region)) (c : Region) :
  from j (o ++ [(i, c)]) = from j o ++ (if decide (i = j) then [c] else []).
Proof.
  rewrite from_app. f_equal. unfold from.
  rewrite filter_cons, filter_nil. simpl. by destruct (decide (i = j)).
Qed.

Lemma active_nonneg (ps : pass_pc) : 0 ≤ active ps.
Proof. destruct ps; simpl; lia. Qed.

Lemma actives_nonneg (l : list pass_pc) : 0 ≤ actives l.
Proof.
  induction l as [|ps l IH]; simpl; [lia|].
  pose proof (active_nonneg ps). lia.
Qed.

Lemma actives_insert (l : list pass_pc) (i : nat) (x y : pass_pc) :
  l !! i = Some x → actives (<[i := y]> l) = actives l - active x + active y.
Proof.
  revert i. induction l as [|ps l IH]; intros [|i] Hi; simpl in *; try done.
  - injection Hi as ->. lia.
  - rewrite (IH i Hi). lia.
Qed.

Lemma actives_zero (l : list pass_pc) (i : nat) (ps : pass_pc) :
  actives l = 0 → l !! i = Some ps → active ps = 0.
Proof.
  revert i. induction l as [|x l IH]; intros [|i] Hz Hi; simpl in *; try done.
  - injection Hi as ->. pose proof (active_nonneg ps).
    pose proof (actives_nonneg l). lia.
  - apply (IH i); [|done]. pose proof (active_nonneg x).
    pose proof (actives_nonneg l). lia.
Qed.

Lemma start_inv_sync (ls : list (list Region)) : inv_sync ls (start ls).
Proof.
  unfold inv_sync, start. simpl. split_and!.
  - by rewrite length_fmap.
  - by rewrite length_replicate.
  - induction (length ls) as [|n IH]; simpl; [done|]. by rewrite <- IH.
  - intros i ps Hi. apply lookup_replicate in Hi as [-> _].
    unfold spawned. simpl. split; [lia|done].
  - done.
  - done.
Qed.

Lemma start_inv_data (ls : list (list Region)) : inv_data ls (start ls).
Proof.
  unfold inv_data, start. simpl. split.
  - intros i l src ps Hl Hsrc Hps.
    apply lookup_replicate in Hps as [-> _].
    rewrite list_lookup_fmap, Hl in Hsrc. injection Hsrc as <-. simpl.
    split; [done|discriminate].
  - intros x Hx. by apply elem_of_nil in Hx.
Qed.

Lemma step_main_sync (ls : list (list Region)) (st st' : state) :
  inv_sync ls st → step_main st = Some st' → inv_sync ls st'.
Proof.
  intros (Hs & Hp & Hw & Hsp & Hcl & Hret) Hstep.
  unfold step_main in Hstep. unfold spawned in Hsp.
  destruct (pc st) as [i|i| |] eqn:Hpc.
  - assert (sink_closed st = false) as Hopen.
    { destruct (sink_closed st); [|done]. by specialize (Hcl eq_refl). }
    destruct (sources st !! i) as [src|] eqn:Hsi; injection Hstep as <-;
      unfold inv_sync, spawned; simpl; rewrite ?length_insert;
      split_and!; try done; by rewrite Hopen.
  - assert (sink_closed st = false) as Hopen.
    { destruct (sink_closed st); [|done]. by specialize (Hcl eq_refl). }
    destruct (passes st !! i) as [p0|] eqn:Hpi; injection Hstep as <-;
      unfold inv_sync, spawned; simpl; rewrite ?length_insert;
      split_and!; try done; try by rewrite Hopen.
    + assert (p0 = NotSpawned) as -> by (by apply (Hsp i)).
      rewrite (actives_insert _ _ _ _ Hpi). simpl. lia.
    + intros j ps Hj. destruct (decide (i = j)) as [<-|Hne].
      * rewrite list_lookup_insert_eq in Hj by (by eapply lookup_lt_Some).
        injection Hj as <-. split; [done|lia].
      * rewrite list_lookup_insert_ne in Hj by done.
        rewrite (Hsp j ps Hj). lia.
    + intros j ps Hj. apply lookup_ge_None in Hpi.
      pose proof (lookup_lt_Some _ _ _ Hj). rewrite (Hsp j ps Hj). lia.
  - destruct (Z.eqb_spec (waiter st) 0) as [Hzero|]; [|done].
    injection Hstep as <-. unfold inv_sync, spawned; simpl.
    split_and!; try done.
    intros _ j ps Hj. rewrite Hw in Hzero.
    pose proof (actives_zero _ _ _ Hzero Hj) as Hidle.
    pose proof (lookup_lt_Some _ _ _ Hj).
    destruct ps; simpl in Hidle; try done.
    destruct (Hsp j _ Hj) as [Hle _]. specialize (Hle eq_refl). lia.
  - done.
Qed.

Lemma step_source_sync (ls : list (list Region)) (i : nat) (st st' : state) :
  inv_sync ls st → step_source i st = Some st' → inv_sync ls st'.
Proof.
  intros (Hs & Hp & Hw & Hsp & Hcl & Hret) Hstep. unfold step_source in Hstep.
  destruct (sources st !! i) as [[[] [] []]|]; try done.
  injection Hstep as <-. unfold inv_sync, spawned in *; simpl.
  rewrite length_insert. done.
Qed.

Lemma step_pass_sync (ls : list (list Region)) (i : nat) (st st' : state) :
  inv_sync ls st → step_pass i st = Some st' → inv_sync ls st'.
Proof.
  intros (Hs & Hp & Hw & Hsp & Hcl & Hret) Hstep. unfold step_pass in Hstep.
  destruct (passes st !! i) as [p0|] eqn:Hpi; [|done].
  assert (pc st ≠ Returned) as Hrun.
  { intros Hpc. specialize (Hret Hpc i p0 Hpi). subst p0. done. }
  assert (sink_closed st = false) as Hopen.
  { destruct (sink_closed st); [|done]. by specialize (Hcl eq_refl). }
  assert (∀ p1, p0 ≠ NotSpawned → p1 ≠ NotSpawned →
            ∀ j ps, <[i := p1]> (passes st) !! j = Some ps →
                    ps = NotSpawned ↔ (spawned st ≤ j)%nat) as Hkeep.
  { intros p1 Hp0 Hp1 j ps Hj. destruct (decide (i = j)) as [<-|Hne].
    - rewrite list_lookup_insert_eq in Hj by (by eapply lookup_lt_Some).
      injection Hj as <-. specialize (Hsp i p0 Hpi). tauto.
    - rewrite list_lookup_insert_ne in Hj by done. by apply Hsp. }
  assert (∀ p1 w so o,
            p0 ≠ NotSpawned → p1 ≠ NotSpawned →
            w = waiter st - active p0 + active p1 →
            length so = length (sources st) →
            inv_sync ls (mkState (pc st) so (<[i := p1]> (passes st)) w o
                           (sink_closed st) (cancelled st))) as Hnext.
  { intros p1 w so o Hp0 Hp1 -> Hso. unfold inv_sync, spawned. simpl.
    rewrite length_insert. split_and!; try done.
    - congruence.
    - rewrite (actives_insert _ _ _ _ Hpi). lia.
    - specialize (Hkeep p1 Hp0 Hp1). unfold spawned in Hkeep. done. }
  destruct p0 as [| |curr|]; try done.
  - destruct (sources st !! i) as [[[] [|curr rest] cl]|] eqn:Hsi; try done.
    + destruct cl; [|done]. injection Hstep as <-.
      apply Hnext; try done. simpl. lia.
    + destruct (cancelled st); injection Hstep as <-.
      * apply Hnext; try done; [simpl; lia|by rewrite length_insert].
      * apply Hnext; try done; [simpl; lia|by rewrite length_insert].
  - assert (st' = mkState (pc st) (sources st) (<[i := Receiving]> (passes st))
                    (waiter st) (out st ++ [(i, curr)]) (sink_closed st)
                    (cancelled st)) as ->.
    { destruct (sources st !! i); by injection Hstep as <-. }
    apply Hnext; try done. simpl. lia.
Qed.

Lemma step_cancel_sync (ls : list (list Region)) (st st' : state) :
  inv_sync ls st → step_cancel st = Some st' → inv_sync ls st'.
Proof. intros Hinv [= <-]. exact Hinv. Qed.

Lemma step_sync (ls : list (list Region)) (c : choice) (st st' : state) :
  inv_sync ls st → step c st = Some st' → inv_sync ls st'.
Proof.
  destruct c; simpl;
    eauto using step_main_sync, step_source_sync, step_pass_sync, step_cancel_sync.
Qed.

(** A step that touches the producer and the forwarder of one index only
    keeps [inv_data] if it keeps it at that index. *)
Lemma inv_data_at (ls : list (list Region)) (st : state) (i : nat)
    (pc' : main_pc) (so : list nested) (pa : list pass_pc) (w : Z)
    (o' : list (nat * Region)) (cl cn : bool) :
  inv_data ls st →
  (∀ j, j ≠ i → so !! j = sources st !! j) →
  (∀ j, j ≠ i → pa !! j = passes st !! j) →
  (∀ j, j ≠ i → from j o' = from j (out st)) →
  (∀ x, x ∈ o' → (x.1 < length ls)%nat) →
  (∀ l src' ps',
     ls !! i = Some l → so !! i = Some src' → pa !! i = Some ps' →
     l = from i o' ++ held ps' ++ pending src' ∧
     (ps' = Finished → pending src' = [])) →
  inv_data ls (mkState pc' so pa w o' cl cn).
Proof.
  intros [Hdata Hout] Hso Hpa Hfrom Hout' Hi. split; simpl; [|done].
  intros j l src ps Hl Hsrc Hps. destruct (decide (j = i)) as [->|Hne].
  - by apply Hi.
  - rewrite Hso in Hsrc by done. rewrite Hpa in Hps by done.
    rewrite Hfrom by done. by apply Hdata.
Qed.

Lemma step_main_data (ls : list (list Region)) (st st' : state) :
  inv_sync ls st → inv_data ls st → step_main st = Some st' → inv_data ls st'.
Proof.
  intros (Hs & Hp & Hw & Hsp & Hcl & Hret) Hinv Hstep.
  pose proof Hinv as [Hdata Hout].
  unfold step_main in Hstep. unfold spawned in Hsp.
  destruct (pc st) as [i|i| |] eqn:Hpc.
  - destruct (sources st !! i) as [src|] eqn:Hsi; injection Hstep as <-;
      [|by split].
    apply (inv_data_at ls st i); try done.
    + intros j Hne. by apply list_lookup_insert_ne.
    + intros l src' ps' Hl Hsrc Hps.
      rewrite list_lookup_insert_eq in Hsrc by (by eapply lookup_lt_Some).
      injection Hsrc as <-. simpl. by apply Hdata.
  - destruct (passes st !! i) as [p0|] eqn:Hpi; injection Hstep as <-;
      [|by split].
    assert (p0 = NotSpawned) as -> by (by apply (Hsp i)).
    apply (inv_data_at ls st i); try done.
    + intros j Hne. by apply list_lookup_insert_ne.
    + intros l src' ps' Hl Hsrc Hps.
      rewrite list_lookup_insert_eq in Hps by (by eapply lookup_lt_Some).
      injection Hps as <-. edestruct Hdata as [Heq _]; [done..|].
      simpl in *. done.
  - destruct (waiter st =? 0); [|done]. injection Hstep as <-. by split.
  - done.
Qed.

Lemma step_source_data (ls : list (list Region)) (i : nat) (st st' : state) :
  inv_data ls st → step_source i st = Some st' → inv_data ls st'.
Proof.
  intros Hinv Hstep. pose proof Hinv as [Hdata Hout].
  unfold step_source in Hstep.
  destruct (sources st !! i) as [[[] [] []]|] eqn:Hsi; try done.
  injection Hstep as <-.
  apply (inv_data_at ls st i); try done.
  - intros j Hne. by apply list_lookup_insert_ne.
  - intros l src' ps' Hl Hsrc Hps.
    rewrite list_lookup_insert_eq in Hsrc by (by eapply lookup_lt_Some).
    injection Hsrc as <-. simpl. by apply (Hdata i l _ ps' Hl Hsi Hps).
Qed.

Lemma step_pass_data (ls : list (list Region)) (i : nat) (st st' : state) :
  inv_sync ls st → inv_data ls st → cancelled st = false →
  step_pass i st = Some st' → inv_data ls st'.
Proof.
  intros (Hs & Hp & Hw & Hsp & Hcl & Hret) Hinv Hlive Hstep.
  pose proof Hinv as [Hdata Hout].
  unfold step_pass in Hstep. rewrite Hlive in Hstep.
  destruct (passes st !! i) as [p0|] eqn:Hpi; [|done].
  pose proof (lookup_lt_Some _ _ _ Hpi) as Hlt.
  destruct p0 as [| |curr|]; try done.
  - destruct (sources st !! i) as [[[] [|curr rest] cl]|] eqn:Hsi; try done.
    + destruct cl; [|done]. injection Hstep as <-.
      apply (inv_data_at ls st i); try done.
      * intros j Hne. by apply list_lookup_insert_ne.
      * intros l src' ps' Hl Hsrc Hps.
        rewrite list_lookup_insert_eq in Hps by done. injection Hps as <-.
        rewrite Hsi in Hsrc. injection Hsrc as <-.
        edestruct Hdata as [Heq _]; [done..|]. simpl in *. done.
    + injection Hstep as <-.
      apply (inv_data_at ls st i); try done.
      * intros j Hne. by apply list_lookup_insert_ne.
      * intros j Hne. by apply list_lookup_insert_ne.
      * intros l src' ps' Hl Hsrc Hps.
        rewrite list_lookup_insert_eq in Hps by done. injection Hps as <-.
        rewrite list_lookup_insert_eq in Hsrc by (by eapply lookup_lt_Some).
        injection Hsrc as <-.
        edestruct Hdata as [Heq _]; [done..|]. simpl in *. done.
  - assert (st' = mkState (pc st) (sources st) (<[i := Receiving]> (passes st))
                    (waiter st) (out st ++ [(i, curr)]) (sink_closed st)
                    (cancelled st)) as ->.
    { injection Hstep as <-. by rewrite Hlive. }
    apply (inv_data_at ls st i); try done.
    + intros j Hne. by apply list_lookup_insert_ne.
    + intros j Hne. rewrite from_snoc. rewrite decide_False by done.
      by rewrite app_nil_r.
    + intros x Hx. apply elem_of_app in Hx as [Hx|Hx]; [by apply Hout|].
      apply list_elem_of_singleton in Hx as ->. simpl. lia.
    + intros l src' ps' Hl Hsrc Hps.
      rewrite list_lookup_insert_eq in Hps by done. injection Hps as <-.
      edestruct Hdata as [Heq _]; [done..|]. simpl in *.
      rewrite from_snoc, decide_True by done. rewrite <- app_assoc. done.
Qed.

(** No step undoes a cancellation. *)
Lemma step_cancelled (c : choice) (st st' : state) :
  step c st = Some st' → cancelled st = true → cancelled st' = true.
Proof.
  destruct c as [|i|i|]; simpl.
  - unfold step_main. destruct (pc st).
    + destruct (sources st !! _); by intros [= <-].
    + destruct (passes st !! _); by intros [= <-].
    + destruct (waiter st =? 0); [|done]. by intros [= <-].
    + done.
  - unfold step_source.
    destruct (sources st !! i) as [[[] [] []]|]; try done. by intros [= <-].
  - unfold step_pass.
    destruct (passes st !! i) as [[| |curr|]|]; try done.
    + destruct (sources st !! i) as [[[] [|curr rest] cl]|]; try done.
      * destruct cl; [|done]. by intros [= <-].
      * intros Hstep Hc. rewrite Hc in Hstep. by injection Hstep as <-.
    + destruct (sources st !! i); by intros [= <-].
  - by intros [= <-].
Qed.

Lemma run_cancelled (sched : list choice) :
  ∀ st st', run sched st = Some st' → cancelled st = true → cancelled st' = true.
Proof.
  induction sched as [|c sched IH]; intros st st' Hrun Hc; simpl in Hrun.
  { by injection Hrun as <-. }
  destruct (step c st) as [st1|] eqn:Hstep; [|done].
  eapply IH; [done|]. by eapply step_cancelled.
Qed.

Lemma run_sync (ls : list (list Region)) (sched : list choice) :
  ∀ st st', inv_sync ls st → run sched st = Some st' → inv_sync ls st'.
Proof.
  induction sched as [|c sched IH]; intros st st' Hinv Hrun; simpl in Hrun.
  { by injection Hrun as <-. }
  destruct (step c st) as [st1|] eqn:Hstep; [|done].
  eapply IH; [|done]. by eapply step_sync.
Qed.

Lemma run_data (ls : list (list Region)) (sched : list choice) :
  ∀ st st',
    inv_sync ls st → inv_data ls st → run sched st = Some st' →
    cancelled st' = false → inv_data ls st'.
Proof.
  induction sched as [|c sched IH]; intros st st' Hsync Hinv Hrun Hlive;
    simpl in Hrun.
  { by injection Hrun as <-. }
  destruct (step c st) as [st1|] eqn:Hstep; [|done].
  assert (cancelled st1 = false) as Hlive1.
  { destruct (cancelled st1) eqn:Hc; [|done].
    by rewrite (run_cancelled _ _ _ Hrun Hc) in Hlive. }
  assert (cancelled st = false) as Hlive0.
  { destruct (cancelled st) eqn:Hc; [|done].
    by rewrite (step_cancelled _ _ _ Hstep Hc) in Hlive1. }
  eapply (IH st1); [by eapply step_sync| |done|done].
  destruct c as [|i|i|]; simpl in Hstep.
  - by eapply step_main_data.
  - by eapply step_source_data.
  - by eapply step_pass_data.
  - injection Hstep as <-. done.
Qed.

(** Putting a Region of forwarder [t] in front of an output puts it in
    front of the part of forwarder [t] and leaves the other parts alone. *)
Lemma from_cons (i t : nat) (c : Region) (o : list (nat * Region)) :
  from i ((t, c) :: o) = (if decide (t = i) then [c] else []) ++ from i o.
Proof.
  unfold from. rewrite filter_cons. simpl. by destruct (decide (t = i)).
Qed.

Lemma concat_parts_skip {A} (f : nat → list A) (t : nat) (c : A) (k : nat) :
  ∀ a, (t < a)%nat →
    concat ((λ i, (if decide (t = i) then [c] else []) ++ f i) <$> seq a k)
    = concat (f <$> seq a k).
Proof.
  induction k as [|k IH]; intros a Ha; simpl; [done|].
  rewrite decide_False by lia. simpl. f_equal. apply IH. lia.
Qed.

Lemma concat_parts_insert {A} (f : nat → list A) (t : nat) (c : A) (k : nat) :
  ∀ a, (a ≤ t < a + k)%nat →
    concat ((λ i, (if decide (t = i) then [c] else []) ++ f i) <$> seq a k)
    ≡ₚ c :: concat (f <$> seq a k).
Proof.
  induction k as [|k IH]; intros a Ha; simpl; [lia|].
  destruct (decide (t = a)) as [->|Hne]; simpl.
  - by rewrite concat_parts_skip by lia.
  - rewrite IH by lia. by rewrite Permutation_middle.
Qed.

(** An output whose tags are below [k] is, as a multiset, the union of its
    [k] parts. *)
Lemma delivered_parts (k : nat) (o : list (nat * Region)) :
  (∀ x, x ∈ o → (x.1 < k)%nat) →
  snd <$> o ≡ₚ concat ((λ i, from i o) <$> seq 0 k).
Proof.
  induction o as [|[t c] o IH]; intros Htags.
  - simpl. induction (seq 0 k) as [|a l IHl]; simpl; [done|]. exact IHl.
  - rewrite (list_fmap_ext (λ i, from i ((t, c) :: o))
               (λ i, (if decide (t = i) then [c] else []) ++ from i o));
      [|intros; apply from_cons].
    rewrite concat_parts_insert.
    + simpl. apply Permutation_skip. apply IH.
      intros x Hx. apply Htags. by right.
    + specialize (Htags (t, c) ltac:(by left)). simpl in Htags. lia.
Qed.

(** C8.  Once [fan.Write] has closed the shared output, every forwarding
    task has finished.  If the run was not cancelled, then for each nested
    producer the Regions it emits appear on the shared output in their
    original order, and the Regions delivered are, as a multiset, the union
    of what the nested producers emit. *)
Theorem Fan_merges_sources_in_order (ls : list (list Region))
    (sched : list choice) (st : state) :
  run sched (start ls) = Some st →
  sink_closed st = true →
  (∀ i ps, passes st !! i = Some ps → ps = Finished) ∧
  (cancelled st = false →
   (∀ i l, ls !! i = Some l → from i (out st) = l) ∧
   delivered st ≡ₚ concat ls).
Proof.
  intros Hrun Hclosed.
  pose proof (run_sync ls sched _ _ (start_inv_sync ls) Hrun) as Hsync.
  pose proof Hsync as (Hs & Hp & _ & _ & Hcl & Hret).
  assert (∀ i ps, passes st !! i = Some ps → ps = Finished) as Hfin
    by (by apply Hret, Hcl).
  split; [done|]. intros Hlive.
  pose proof (run_data ls sched _ _ (start_inv_sync ls) (start_inv_data ls)
                Hrun Hlive) as [Hdata Hout].
  assert (∀ i l, ls !! i = Some l → from i (out st) = l) as Hfrom.
  { intros i l Hl. pose proof (lookup_lt_Some _ _ _ Hl) as Hlt.
    destruct (lookup_lt_is_Some_2 (sources st) i ltac:(lia)) as [src Hsrc].
    destruct (lookup_lt_is_Some_2 (passes st) i ltac:(lia)) as [ps Hps].
    destruct (Hdata i l src ps Hl Hsrc Hps) as [Heq Hdone].
    rewrite (Hfin i ps Hps) in *. rewrite Hdone in Heq by done.
    simpl in Heq. by rewrite app_nil_r in Heq. }
  split; [done|]. unfold delivered.
  rewrite (delivered_parts (length ls)) by done.
  replace ((λ i, from i (out st)) <$> seq 0 (length ls)) with ls; [done|].
  apply list_eq. intros i. rewrite list_lookup_fmap.
  destruct (decide (i < length ls)%nat) as [Hlt|Hge].
  - rewrite lookup_seq_lt by done. simpl.
    destruct (lookup_lt_is_Some_2 ls i Hlt) as [l Hl].
    by rewrite Hl, (Hfrom i l Hl).
  - rewrite lookup_seq_ge by lia. simpl. apply lookup_ge_None. lia.
Qed.

(** ** Every fan of finite producers can run to completion *)

Lemma weigh_insert {A} (f : A → nat) (l : list A) (i : nat) (x y : A) :
  l !! i = Some x →
  (weigh f (<[i := y]> l) + f x = weigh f l + f y)%nat.
Proof.
  revert i. induction l as [|z l IH]; intros [|i] Hi; simpl in *; try done.
  - injection Hi as ->. lia.
  - specialize (IH i Hi). lia.
Qed.

(** Every step other than a cancellation uses up some of the measure. *)
Lemma step_measure (ls : list (list Region)) (c : choice) (st st' : state) :
  inv_sync ls st → c ≠ Cancel → step c st = Some st' →
  (measure st' < measure st)%nat.
Proof.
  intros (Hs & Hp & Hw & Hsp & Hcl & Hret) Hc Hstep.
  unfold spawned in Hsp.
  destruct c as [|i|i|]; simpl in Hstep; [| | |done].
  - unfold step_main in Hstep. destruct (pc st) as [i|i| |] eqn:Hpc.
    + destruct (sources st !! i) as [src|] eqn:Hsi; injection Hstep as <-;
        unfold measure, main_weight; simpl; rewrite ?Hpc, ?length_insert.
      * pose proof (lookup_lt_Some _ _ _ Hsi).
        pose proof (weigh_insert nested_weight _ i src
                      (mkNested true (pending src) (closed src)) Hsi) as Hwt.
        change (nested_weight (mkNested true (pending src) (closed src)))
          with (nested_weight src) in Hwt.
        lia.
      * lia.
    + destruct (passes st !! i) as [p0|] eqn:Hpi; injection Hstep as <-;
        unfold measure, main_weight; simpl; rewrite ?Hpc, ?length_insert.
      * pose proof (lookup_lt_Some _ _ _ Hpi).
        assert (p0 = NotSpawned) as -> by (by apply (Hsp i)).
        pose proof (weigh_insert pass_weight _ i NotSpawned Receiving Hpi) as Hwt.
        change (pass_weight NotSpawned) with 1%nat in Hwt.
        change (pass_weight Receiving) with 1%nat in Hwt.
        lia.
      * lia.
    + destruct (waiter st =? 0); [|done]. injection Hstep as <-.
      unfold measure, main_weight; simpl; rewrite ?Hpc. lia.
    + done.
  - unfold step_source in Hstep.
    destruct (sources st !! i) as [[[] [] []]|] eqn:Hsi; try done.
    injection Hstep as <-. unfold measure, main_weight; simpl.
    rewrite ?length_insert.
    pose proof (weigh_insert nested_weight _ i _ (mkNested true [] true) Hsi) as Hwt.
    change (nested_weight (mkNested true [] false)) with 1%nat in Hwt.
    change (nested_weight (mkNested true [] true)) with 0%nat in Hwt.
    destruct (pc st); lia.
  - unfold step_pass in Hstep.
    destruct (passes st !! i) as [[| |curr|]|] eqn:Hpi; try done.
    + destruct (sources st !! i) as [[[] [|curr rest] cl]|] eqn:Hsi; try done.
      * destruct cl; [|done]. injection Hstep as <-.
        unfold measure, main_weight; simpl. rewrite ?length_insert.
        pose proof (weigh_insert pass_weight _ i _ Finished Hpi) as Hwt.
        change (pass_weight Receiving) with 1%nat in Hwt.
        change (pass_weight Finished) with 0%nat in Hwt.
        destruct (pc st); lia.
      * pose proof (weigh_insert nested_weight _ i _ (mkNested true rest cl) Hsi)
          as Hwn.
        change (nested_weight (mkNested true (curr :: rest) cl))
          with (2 * S (length rest) + (if cl then 0 else 1))%nat in Hwn.
        change (nested_weight (mkNested true rest cl))
          with (2 * length rest + (if cl then 0 else 1))%nat in Hwn.
        destruct (cancelled st); injection Hstep as <-;
          unfold measure, main_weight; simpl; rewrite ?length_insert.
        -- pose proof (weigh_insert pass_weight _ i _ Finished Hpi) as Hwt.
           change (pass_weight Receiving) with 1%nat in Hwt.
           change (pass_weight Finished) with 0%nat in Hwt.
           destruct (pc st); lia.
        -- pose proof (weigh_insert pass_weight _ i _ (Holding curr) Hpi) as Hwt.
           change (pass_weight Receiving) with 1%nat in Hwt.
           change (pass_weight (Holding curr)) with 2%nat in Hwt.
           destruct (pc st); lia.
    + assert (st' = mkState (pc st) (sources st) (<[i := Receiving]> (passes st))
                      (waiter st) (out st ++ [(i, curr)]) (sink_closed st)
                      (cancelled st)) as ->.
      { destruct (sources st !! i); by injection Hstep as <-. }
      unfold measure, main_weight; simpl. rewrite ?length_insert.
      pose proof (weigh_insert pass_weight _ i _ Receiving Hpi) as Hwt.
      change (pass_weight Receiving) with 1%nat in Hwt.
      change (pass_weight (Holding curr)) with 2%nat in Hwt.
      destruct (pc st); lia.
Qed.

(** Only a cancellation changes the cancellation flag. *)
Lemma step_keeps_flag (c : choice) (st st' : state) :
  c ≠ Cancel → step c st = Some st' → cancelled st' = cancelled st.
Proof.
  intros Hc Hstep. destruct c as [|i|i|]; simpl in Hstep; [| | |done].
  - unfold step_main in Hstep. repeat case_match; by simplify_eq.
  - unfold step_source in Hstep. repeat case_match; by simplify_eq.
  - unfold step_pass in Hstep. repeat case_match; by simplify_eq.
Qed.

Lemma start_inv_live (ls : list (list Region)) : inv_live (start ls).
Proof. split; simpl; [|done]. intros j src _ Hj. lia. Qed.

Lemma step_live (c : choice) (st st' : state) :
  inv_live st → step c st = Some st' → inv_live st'.
Proof.
  intros [Hstarted Hclosed] Hstep.
  destruct c as [|i|i|]; simpl in Hstep.
  - unfold step_main in Hstep. destruct (pc st) as [i|i| |] eqn:Hpc.
    + destruct (sources st !! i) as [src|] eqn:Hsi; injection Hstep as <-;
        (split; simpl; [|done]).
      * intros j src' Hj Hlt. destruct (decide (i = j)) as [<-|Hne].
        -- rewrite list_lookup_insert_eq in Hj by (by eapply lookup_lt_Some).
           by injection Hj as <-.
        -- rewrite list_lookup_insert_ne in Hj by done.
           apply (Hstarted j src' Hj). lia.
      * intros j src' Hj. apply (Hstarted j src' Hj).
        apply lookup_ge_None in Hsi. pose proof (lookup_lt_Some _ _ _ Hj). lia.
    + destruct (passes st !! i); injection Hstep as <-; by split.
    + destruct (waiter st =? 0); [|done]. injection Hstep as <-. by split.
    + done.
  - unfold step_source in Hstep.
    destruct (sources st !! i) as [[[] [] []]|] eqn:Hsi; try done.
    injection Hstep as <-. split; simpl; [|done].
    intros j src' Hj.
    assert (started src' = true → match pc st with
                                   | FanOut i0 => (j < i0)%nat → started src' = true
                                   | _ => started src' = true
                                   end) as Hweak by (destruct (pc st); auto).
    destruct (decide (i = j)) as [<-|Hne].
    + rewrite list_lookup_insert_eq in Hj by (by eapply lookup_lt_Some).
      injection Hj as <-. by apply Hweak.
    + rewrite list_lookup_insert_ne in Hj by done. by apply Hstarted.
  - unfold step_pass in Hstep.
    destruct (passes st !! i) as [[| |curr|]|] eqn:Hpi; try done.
    + destruct (sources st !! i) as [[[] [|curr rest] cl]|] eqn:Hsi; try done.
      * destruct cl; [|done]. injection Hstep as <-. by split.
      * assert (∀ j src', <[i := mkNested true rest cl]> (sources st) !! j
                            = Some src' →
                  match pc st with
                  | FanOut i0 => (j < i0)%nat → started src' = true
                  | _ => started src' = true
                  end) as Hnew.
        { intros j src' Hj. destruct (decide (i = j)) as [<-|Hne].
          - rewrite list_lookup_insert_eq in Hj by (by eapply lookup_lt_Some).
            injection Hj as <-. by destruct (pc st).
          - rewrite list_lookup_insert_ne in Hj by done. by apply Hstarted. }
        destruct (cancelled st); injection Hstep as <-; by split.
    + assert (st' = mkState (pc st) (sources st) (<[i := Receiving]> (passes st))
                      (waiter st) (out st ++ [(i, curr)]) (sink_closed st)
                      (cancelled st)) as ->.
      { destruct (sources st !! i); by injection Hstep as <-. }
      by split.
  - injection Hstep as <-. by split.
Qed.

Lemma actives_pos (l : list pass_pc) :
  actives l ≠ 0 → ∃ i ps, l !! i = Some ps ∧ active ps = 1.
Proof.
  induction l as [|x l IH]; simpl; [done|]. intros Hne.
  destruct (decide (active x = 1)) as [Hx|Hx].
  - by exists 0%nat, x.
  - destruct IH as (i & ps & Hi & Hps).
    + destruct x; simpl in *; lia.
    + by exists (S i), ps.
Qed.

(** While the shared output is open and nobody has cancelled, some party
    other than the canceller can move. *)
Lemma progress (ls : list (list Region)) (st : state) :
  inv_sync ls st → inv_live st →
  sink_closed st = false → cancelled st = false →
  ∃ c st', c ≠ Cancel ∧ step c st = Some st'.
Proof.
  intros (Hs & Hp & Hw & Hsp & Hcl & Hret) [Hstarted Hclosed] Hopen Hlive.
  destruct (pc st) as [i|i| |] eqn:Hpc.
  - exists Main. simpl. unfold step_main. rewrite Hpc.
    destruct (sources st !! i); by eexists.
  - exists Main. simpl. unfold step_main. rewrite Hpc.
    destruct (passes st !! i); by eexists.
  - destruct (Z.eqb_spec (waiter st) 0) as [Hzero|Hbusy].
    { exists Main. simpl. unfold step_main. rewrite Hpc.
      apply Z.eqb_eq in Hzero. rewrite Hzero. by eexists. }
    rewrite Hw in Hbusy.
    destruct (actives_pos _ Hbusy) as (i & ps & Hi & Hact).
    pose proof (lookup_lt_Some _ _ _ Hi) as Hlt.
    destruct (lookup_lt_is_Some_2 (sources st) i ltac:(lia)) as [src Hsrc].
    pose proof (Hstarted i src Hsrc) as Hrunning.
    destruct src as [st0 pend cl]. simpl in Hrunning. subst st0.
    destruct ps as [| |curr|]; simpl in Hact; try done.
    + destruct pend as [|curr rest].
      * destruct cl.
        -- exists (Pass i). simpl. unfold step_pass. rewrite Hi, Hsrc.
           by eexists.
        -- exists (Source i). simpl. unfold step_source. rewrite Hsrc.
           by eexists.
      * exists (Pass i). simpl. unfold step_pass. rewrite Hi, Hsrc, Hlive.
        by eexists.
    + exists (Pass i). simpl. unfold step_pass. rewrite Hi, ?Hsrc. by eexists.
  - by rewrite Hclosed in Hopen.
Qed.

(** From any state of an uncancelled run there is a way to the closing of
    the shared output. *)
Lemma completes_from (ls : list (list Region)) (n : nat) :
  ∀ st, (measure st ≤ n)%nat →
    inv_sync ls st → inv_live st → cancelled st = false →
    ∃ sched st', run sched st = Some st' ∧
                 sink_closed st' = true ∧ cancelled st' = false.
Proof.
  induction n as [|n IH]; intros st Hn Hsync Hliv Hflag;
    (destruct (sink_closed st) eqn:Hopen; [by exists [], st|]);
    destruct (progress ls st Hsync Hliv Hopen Hflag) as (c & st1 & Hc & Hstep);
    pose proof (step_measure ls c st st1 Hsync Hc Hstep) as Hless.
  { lia. }
  destruct (IH st1) as (sched & st' & Hrun & Hdone & Hflag').
  - lia.
  - by eapply step_sync.
  - by eapply step_live.
  - by rewrite (step_keeps_flag c st st1 Hc Hstep).
  - exists (c :: sched), st'. simpl. by rewrite Hstep.
Qed.

(** Every fan of finite producers has a run, free of cancellation, that
    ends with the shared output closed. *)
Lemma Fan_can_complete (ls : list (list Region)) :
  ∃ sched st, run sched (start ls) = Some st ∧
              sink_closed st = true ∧ cancelled st = false.
Proof.
  apply (completes_from ls (measure (start ls))); [lia| | |done].
  - apply start_inv_sync.
  - apply start_inv_live.
Qed.

(** A run in which nobody cancels takes no more steps than the measure of
    its first state. *)
Lemma run_terminates (ls : list (list Region)) (sched : list choice) :
  ∀ st st', inv_sync ls st → Cancel ∉ sched → run sched st = Some st' →
            (length sched + measure st' ≤ measure st)%nat.
Proof.
  induction sched as [|c sched IH]; intros st st' Hsync Hnc Hrun; simpl in Hrun.
  { injection Hrun as <-. simpl. lia. }
  destruct (step c st) as [st1|] eqn:Hstep; [|done].
  apply not_elem_of_cons in Hnc as [Hc Hnc].
  pose proof (step_measure ls c st st1 Hsync (not_eq_sym Hc) Hstep).
  specialize (IH st1 st' ltac:(by eapply step_sync) Hnc Hrun). simpl. lia.
Qed.

End FanFacts.

Section FanExamples.
Import Fan.

Example interleaved_offsets :
  (λ st, Off <$> delivered st) <$> run interleaved (start [from_A; from_B])
  = Some [20; 0; 10; 70; 90].
Proof. vm_compute. reflexivity. Qed.

Lemma Fan_merges_sources_in_order_witness :
  ∃ st, run interleaved (start [from_A; from_B]) = Some st ∧
    (∀ i ps, passes st !! i = Some ps → ps = Finished) ∧
    (cancelled st = false →
     (∀ i l, [from_A; from_B] !! i = Some l → from i (out st) = l) ∧
     delivered st ≡ₚ concat [from_A; from_B]).
Proof.
  eexists. split; [vm_compute; reflexivity|].
  apply (Fan_merges_sources_in_order [from_A; from_B] interleaved).
  - vm_compute. reflexivity.
  - reflexivity.
Defined.

End FanExamples.

(* ====================================================================== *)
(** * More on the buffer pool: capacity and order of reuse *)
(* ====================================================================== *)

Section BufferReuse.
Import Buffer.

Lemma pooled_Put_cap (b : pooledBuffer) (buff : bytes) :
  pool_cap (pooled_Put b buff) = pool_cap b.
Proof. unfold pooled_Put. by destruct (_ <? _). Qed.

Lemma pooled_Put_bounded (b : pooledBuffer) (buff : bytes) :
  len (pool b) ≤ pool_cap b →
  len (pool (pooled_Put b buff)) ≤ pool_cap (pooled_Put b buff).
Proof.
  unfold pooled_Put. destruct (Z.ltb_spec (len (pool b)) (pool_cap b)); [|done].
  simpl. unfold len in *. rewrite length_app. simpl. lia.
Qed.

Lemma pooled_Get_bounded (b b' : pooledBuffer) (x : bytes) :
  pooled_Get b = Some (x, b') →
  len (pool b) ≤ pool_cap b →
  len (pool b') ≤ pool_cap b' ∧ pool_cap b' = pool_cap b.
Proof.
  unfold pooled_Get. destruct (pool b) as [|q rest] eqn:Hq.
  - destruct (make_bytes (size b)); [|done]. intros [= <- <-]. by rewrite Hq.
  - intros [= <- <-]. simpl. unfold len in *. simpl in *. lia.
Qed.

Lemma run_ops_bounded (ops : list op) :
  ∀ (b b' : pooledBuffer) (gets : list bytes),
    run_ops b ops = Some (gets, b') →
    len (pool b) ≤ pool_cap b →
    len (pool b') ≤ pool_cap b' ∧ pool_cap b' = pool_cap b ∧ size b' = size b.
Proof.
  induction ops as [|[|buff] ops IH]; intros b b' gets Hrun Hb; simpl in Hrun.
  - by injection Hrun as <- <-.
  - destruct (pooled_Get b) as [[y b1]|] eqn:Hget; [|done].
    destruct (run_ops b1 ops) as [[xs b2]|] eqn:Hrest; [|done].
    injection Hrun as <- <-.
    destruct (pooled_Get_bounded _ _ _ Hget Hb) as [Hb1 Hcap].
    apply pooled_Get_origin in Hget as (Hsz & _ & _).
    destruct (IH _ _ _ Hrest Hb1) as (? & ? & ?). split_and!; congruence.
  - destruct (IH _ _ _ Hrun (pooled_Put_bounded b buff Hb)) as (? & ? & ?).
    rewrite pooled_Put_cap, pooled_Put_size in *. done.
Qed.

(** The queue of a pool never holds more than [poolSize] buffers, whatever
    is got and put, and the two sizes it was built with never change. *)
Theorem pool_stays_within_capacity (bufferSize poolSize : Z)
    (b b' : pooledBuffer) (ops : list op) (gets : list bytes) :
  NewBuffer bufferSize poolSize = Some b →
  run_ops b ops = Some (gets, b') →
  len (pool b') ≤ poolSize ∧ pool_cap b' = poolSize ∧ size b' = bufferSize.
Proof.
  unfold NewBuffer. destruct (Z.ltb_spec poolSize 0) as [|Hcap]; [done|].
  intros [= <-] Hrun.
  destruct (run_ops_bounded _ _ _ _ Hrun) as (Hle & Hcap' & Hsz).
  - unfold len. simpl. lia.
  - simpl in *. split_and!; [lia|done|done].
Qed.

Lemma pool_stays_within_capacity_witness :
  len (pool (mkPooled [[x41]] 1 2)) ≤ 1 ∧
  pool_cap (mkPooled [[x41]] 1 2) = 1 ∧ size (mkPooled [[x41]] 1 2) = 2.
Proof.
  apply (pool_stays_within_capacity 2 1 (mkPooled [] 1 2) (mkPooled [[x41]] 1 2)
           [OpPut [x41]; OpPut [x42]; OpGet; OpPut [x41]] [[x41]]);
    reflexivity.
Defined.

Lemma run_ops_puts (xs : list bytes) (rest : list op) :
  ∀ b, run_ops b ((OpPut <$> xs) ++ rest) = run_ops (foldl pooled_Put b xs) rest.
Proof. induction xs as [|x xs IH]; intros b; simpl; [done|]. apply IH. Qed.

(** Putting [xs] keeps as many of them as there are free slots, oldest
    first. *)
Lemma puts_keep_a_prefix (xs : list bytes) :
  ∀ b, foldl pooled_Put b xs =
       {| pool := pool b ++ take (Z.to_nat (pool_cap b - len (pool b))) xs;
          pool_cap := pool_cap b; size := size b |}.
Proof.
  induction xs as [|x xs IH]; intros b; simpl.
  { rewrite take_nil, app_nil_r. by destruct b. }
  rewrite IH. unfold pooled_Put.
  destruct (Z.ltb_spec (len (pool b)) (pool_cap b)) as [Hroom|Hfull]; simpl.
  - f_equal. unfold len in *. rewrite length_app. simpl.
    replace (Z.to_nat (pool_cap b - Z.of_nat (length (pool b))))
      with (S (Z.to_nat (pool_cap b - Z.of_nat (length (pool b) + 1)))) by lia.
    simpl. by rewrite <- app_assoc.
  - f_equal. replace (Z.to_nat (pool_cap b - len (pool b))) with 0%nat by lia.
    done.
Qed.

(** [n] calls of [Get] in a row empty the queue from its head and then
    allocate. *)
Lemma gets_drain_then_allocate (n : nat) :
  ∀ b, 0 ≤ size b →
    run_ops b (replicate n OpGet) =
      Some (take n (pool b)
              ++ replicate (n - length (pool b)) (replicate (Z.to_nat (size b)) x00),
            {| pool := drop n (pool b); pool_cap := pool_cap b; size := size b |}).
Proof.
  induction n as [|n IH]; intros b Hsize; simpl.
  { rewrite drop_0. by destruct b. }
  unfold pooled_Get. destruct (pool b) as [|q rest] eqn:Hq.
  - unfold make_bytes. destruct (Z.ltb_spec (size b) 0); [lia|].
    pose proof (IH b Hsize) as Hrest. rewrite Hq in Hrest. rewrite Hrest.
    simpl. rewrite take_nil, drop_nil. simpl. by rewrite Nat.sub_0_r.
  - pose proof (IH (mkPooled rest (pool_cap b) (size b)) Hsize) as Hrest.
    simpl in Hrest. by rewrite Hrest.
Qed.

(** Buffers come back in the order they were put: after [xs] are put into
    an empty pool, the next [n] calls of [Get] return those of [xs] that
    found a free slot (the first [poolSize] of them; the others were
    dropped), oldest first, and after them freshly allocated zeroed buffers
    of [bufferSize] bytes, however many are asked for. *)
Theorem puts_then_gets (b : pooledBuffer) (xs : list bytes) (n : nat) :
  pool b = [] → 0 ≤ size b →
  run_ops b ((OpPut <$> xs) ++ replicate n OpGet) =
    Some (take n (take (Z.to_nat (pool_cap b)) xs)
            ++ replicate (n - length (take (Z.to_nat (pool_cap b)) xs))
                 (replicate (Z.to_nat (size b)) x00),
          {| pool := drop n (take (Z.to_nat (pool_cap b)) xs);
             pool_cap := pool_cap b; size := size b |}).
Proof.
  intros Hempty Hsize.
  rewrite run_ops_puts, puts_keep_a_prefix, Hempty.
  rewrite gets_drain_then_allocate by done. simpl.
  unfold len. simpl. by rewrite Z.sub_0_r.
Qed.

Lemma puts_then_gets_witness :
  run_ops (mkPooled [] 2 1) ((OpPut <$> [[x41]; [x42]; [x43]]) ++ replicate 3 OpGet) =
    Some ([[x41]; [x42]; [x00]], mkPooled [] 2 1).
Proof.
  apply (puts_then_gets (mkPooled [] 2 1) [[x41]; [x42]; [x43]] 3);
    [reflexivity|simpl; lia].
Defined.

End BufferReuse.

(* ====================================================================== *)
(** * More on the reader-backed producer *)
(* ====================================================================== *)

Section SourceBehaviour.
Import Buffer Source.
Context {R B : Type} `{Reader R} `{Buffer B}.

Ltac each_iteration fuel IH :=
  induction fuel as [|fuel IH]; intros it done s tr ex s' Hrun;
  [ injection Hrun as <- <- <-
  | let Hit := fresh "Hit" in
    match type of Hrun with
    | Write_loop ?env _ _ _ _ = _ =>
        pose proof (Write_loop_iteration env fuel it done s) as Hit
    end;
    rewrite Hrun in Hit; inversion Hit; subst; clear Hit ].

(** While [done] is unset the loop does not look at the context: up to the
    first read that returns data together with end of stream, the run is
    the same under any other context. *)
Lemma Write_loop_not_done (env : Env) (ctx' : nat → option error) (fuel : nat) :
  ∀ it (s : source R B) tr ex s',
    Write_loop env fuel it false s = (tr, ex, s') →
    no_data_at_EOF tr →
    Write_loop (mkEnv ctx' (receives env) (errs_room env)) fuel it false s
      = (tr, ex, s').
Proof.
  induction fuel as [|fuel IH]; intros it s tr ex s' Hrun Hplain; [done|].
  cbn [Write_loop] in Hrun |- *. simpl negb in *. simpl orb in *.
  cbn [receives errs_room] in *.
  destruct (Get (buff s)) as [[data b']|]; [|done].
  destruct (Read (r s) (length data)) as [[bs err] rd'].
  destruct (bool_decide (is_Some err) && negb (errors_Is_EOF err)); [done|].
  destruct (errors_Is_EOF err || (len bs =? 0)) eqn:Hstop.
  - destruct (Z.eqb_spec (len bs) 0) as [Hz|Hnz]; [done|].
    destruct (receives env it); [|done].
    destruct (Write_loop env fuel (S it) true _) as [[tr1 ex1] s1] eqn:Hrec.
    injection Hrun as <- <- <-. exfalso.
    rewrite orb_false_r in Hstop. destruct err as [e|]; [|done].
    apply Hnz, (Hplain bs e); [by left|done].
  - destruct (bool_decide (is_Some err)); [done|].
    destruct (len bs =? 0); [done|].
    destruct (receives env it); [|done].
    destruct (Write_loop env fuel (S it) false _) as [[tr1 ex1] s1] eqn:Hrec.
    injection Hrun as <- <- <-.
    erewrite IH; [done|done|].
    intros bs0 e0 Hin. apply Hplain. by do 2 right.
Qed.

(** Cancelling the context does not stop the reader-backed producer.  As
    long as no read returns data together with end of stream, [Write] does
    the same whatever [ctx.Err()] answers: it goes on reading and emitting
    until the reader runs dry or fails. *)
Theorem Write_does_not_stop_on_cancellation (env : Env)
    (ctx' : nat → option error) (fuel : nat) (s : source R B)
    (tr : list event) (ex : exit) (s' : source R B) :
  Write env fuel s = (tr, ex, s') →
  no_data_at_EOF tr →
  Write (mkEnv ctx' (receives env) (errs_room env)) fuel s = (tr, ex, s').
Proof. unfold Write. apply Write_loop_not_done. Qed.

Lemma Write_loop_nonempty (env : Env) (fuel : nat) :
  ∀ it done (s : source R B) tr ex s',
    Write_loop env fuel it done s = (tr, ex, s') →
    ∀ rg, rg ∈ emitted tr → Data rg ≠ [].
Proof.
  each_iteration fuel IH; intros rg Hin; simpl in Hin;
    try by apply elem_of_nil in Hin.
  apply elem_of_cons in Hin as [->|Hin]; [|by eapply IH].
  simpl. intros ->. done.
Qed.

(** A zero-length buffer ends the stream without a word: unless the read
    fails, the producer takes the zero count for the end, emits nothing
    more, closes its output and returns with no error sent, whatever the
    reader still holds. *)
Theorem Write_stops_on_empty_buffer (env : Env) (fuel : nat) (s : source R B)
    (b' : B) (bs : bytes) (err : option error) (rd' : R) :
  Get (buff s) = Some ([], b') →
  Read (r s) 0 = ((bs, err), rd') →
  hard err = false →
  Write env (S fuel) s
    = ([EvRead [] err; EvClose], Returned, mkSource rd' (off s) b').
Proof.
  intros Hget Hread Hsoft. unfold Write.
  pose proof (Read_le (r s) 0) as Hle. rewrite Hread in Hle. simpl in Hle.
  destruct bs; [|simpl in Hle; lia].
  cbn [Write_loop]. simpl negb. simpl orb. rewrite Hget. simpl length.
  rewrite Hread. fold (hard err). rewrite Hsoft.
  change (len [] =? 0) with true. by rewrite orb_true_r.
Qed.

End SourceBehaviour.

Section SourceOverPool.
Import Buffer Source.
Context {R : Type} `{Reader R}.

Lemma Write_loop_fits (env : Env) (fuel : nat) :
  ∀ it done (s : source R pooledBuffer) tr ex s',
    Write_loop env fuel it done s = (tr, ex, s') →
    (∀ q, q ∈ pool (buff s) → len q ≤ size (buff s)) →
    ∀ rg, rg ∈ emitted tr → len (Data rg) ≤ size (buff s).
Proof.
  induction fuel as [|fuel IH]; intros it done s tr ex s' Hrun Hpool rg Hin.
  { injection Hrun as <- <- <-. by apply elem_of_nil in Hin. }
  pose proof (Write_loop_iteration env fuel it done s) as Hit.
  rewrite Hrun in Hit.
  inversion Hit as [| | | | | |data b' bs err rd' done' tr1 ex1 s1 Hget Hread
                                 Hsoft Hnz Htaken Hrec];
    subst; simpl in Hin; try by apply elem_of_nil in Hin.
  pose proof (Read_le (r s) (length data)) as Hle. rewrite Hread in Hle.
  simpl in Hle, Hget.
  apply pooled_Get_origin in Hget as (Hsz & Hdata & Hsub).
  apply elem_of_cons in Hin as [->|Hin].
  - simpl. assert (len data ≤ size (buff s)) by (destruct Hdata; [lia|auto]).
    unfold len in *. lia.
  - rewrite <- Hsz. eapply (IH _ _ _ _ _ _ Hrec); [|done].
    simpl. intros q Hq. rewrite Hsz. auto.
Qed.

(** Every Region the producer emits is non-empty and no longer than
    [bufferSize], provided the buffers queued in the pool are no longer
    than that. *)
Theorem Write_regions_fit_the_buffer (env : Env) (fuel : nat)
    (s : source R pooledBuffer) (tr : list event) (ex : exit)
    (s' : source R pooledBuffer) :
  (∀ q, q ∈ pool (buff s) → len q ≤ size (buff s)) →
  Write env fuel s = (tr, ex, s') →
  ∀ rg, rg ∈ emitted tr → 0 < len (Data rg) ≤ size (buff s).
Proof.
  unfold Write. intros Hpool Hrun rg Hin. split.
  - pose proof (Write_loop_nonempty _ _ _ _ _ _ _ _ Hrun rg Hin) as Hne.
    unfold len. destruct (Data rg); [done|simpl; lia].
  - by eapply Write_loop_fits.
Qed.

End SourceOverPool.

Section SourceFromMemory.
Import Buffer Source.
Context {B : Type} `{Buffer B}.

Lemma inMemory_never_fails (m rd' : inMemory) (k : nat) (bs : bytes) (e : error) :
  Read m k = ((bs, Some e), rd') → e = EOF ∧ bs = [] ∧ left m = [] ∧ rd' = m.
Proof.
  simpl. unfold inMemory_Read. destruct (left m) eqn:Hleft; [|done].
  by intros [= <- <- <-].
Qed.

Lemma inMemory_conserves (m rd' : inMemory) (k : nat) (bs : bytes)
    (err : option error) :
  Read m k = ((bs, err), rd') → bs ++ left rd' = left m.
Proof.
  simpl. unfold inMemory_Read. destruct (left m) eqn:Hleft.
  - intros [= <- <- <-]. by rewrite Hleft.
  - intros [= <- <- <-]. simpl left. apply take_drop.
Qed.

Lemma Write_loop_conserves (env : Env) (fuel : nat) :
  ∀ it done (s : source inMemory B) tr ex s',
    Write_loop env fuel it done s = (tr, ex, s') →
    (ex ≠ Blocked → concat (Data <$> emitted tr) ++ left (r s') = left (r s)) ∧
    (∀ bs e, EvRead bs (Some e) ∈ tr → ex = Returned ∧ left (r s') = []).
Proof.
  induction fuel as [|fuel IH]; intros it done s tr ex s' Hrun.
  { injection Hrun as <- <- <-. split; [done|].
    intros bs e Hin. by apply elem_of_nil in Hin. }
  pose proof (Write_loop_iteration env fuel it done s) as Hit.
  rewrite Hrun in Hit.
  inversion Hit as [| |data b' bs e rd' Hget Hread Hhard
                    |data b' bs e rd' Hget Hread Hhard
                    |data b' bs err rd' Hget Hread Hsoft Hz
                    |data b' bs err rd' Hget Hread Hsoft Hnz
                    |data b' bs err rd' done' tr1 ex1 s1 Hget Hread
                       Hsoft Hnz Htaken Hrec];
    subst; simpl.
  - split; [done|]. intros bs e Hin.
    apply elem_of_cons in Hin as [Hin|Hin]; [done|by apply elem_of_nil in Hin].
  - split; [done|]. intros bs e Hin.
    apply elem_of_cons in Hin as [Hin|Hin]; [done|by apply elem_of_nil in Hin].
  - apply inMemory_never_fails in Hread as (-> & _). done.
  - apply inMemory_never_fails in Hread as (-> & _). done.
  - pose proof (inMemory_conserves _ _ _ _ _ Hread) as Hcons.
    destruct bs; [|done]. split; [done|]. intros bs e Hin.
    apply elem_of_cons in Hin as [Hin|Hin].
    + injection Hin as _ <-.
      apply inMemory_never_fails in Hread as (_ & _ & Hempty & ->). done.
    + apply elem_of_cons in Hin as [Hin|Hin]; [done|by apply elem_of_nil in Hin].
  - split; [done|]. intros bs0 e Hin.
    apply elem_of_cons in Hin as [Hin|Hin]; [|by apply elem_of_nil in Hin].
    injection Hin as <- <-.
    apply inMemory_never_fails in Hread as (_ & -> & _). done.
  - pose proof (inMemory_conserves _ _ _ _ _ Hread) as Hcons.
    destruct (IH _ _ _ _ _ _ Hrec) as [Hrest Heof]. simpl in Hrest. split.
    + intros Hex. rewrite <- Hcons, <- (Hrest Hex). by rewrite app_assoc.
    + intros bs0 e Hin. apply elem_of_cons in Hin as [Hin|Hin].
      * injection Hin as <- <-.
        apply inMemory_never_fails in Hread as (_ & -> & _). done.
      * apply elem_of_cons in Hin as [Hin|Hin]; [done|]. by eapply Heof.
Qed.

(** Read from memory, no byte is lost or repeated: what the Regions emitted
    carry, in order, followed by what the reader has left, is the content
    the reader started with, unless the producer is stuck in a send (the
    bytes of the Region it cannot hand over are then lost).  Once the
    reader has reported end of stream the producer has returned and the
    Regions carry the whole content. *)
Theorem Write_hands_over_the_content (env : Env) (fuel : nat) (c : bytes)
    (o : Z) (b : B) (tr : list event) (ex : exit) (s' : source inMemory B) :
  Write env fuel (Source (mkInMemory c) o b) = (tr, ex, s') →
  (ex ≠ Blocked → concat (Data <$> emitted tr) ++ left (r s') = c) ∧
  (∀ bs e, EvRead bs (Some e) ∈ tr →
     ex = Returned ∧ concat (Data <$> emitted tr) = c).
Proof.
  unfold Write. intros Hrun.
  destruct (Write_loop_conserves _ _ _ _ _ _ _ _ Hrun) as [Hcons Heof].
  simpl in Hcons. split; [done|]. intros bs e Hin.
  destruct (Heof bs e Hin) as [-> Hempty]. split; [done|].
  rewrite <- Hcons by done. by rewrite Hempty, app_nil_r.
Qed.

End SourceFromMemory.

Section SourceBehaviourExamples.
Import Buffer Source.

Example Write_three_bytes :
  Write background 5 three_bytes =
    ([EvRead [x41; x42] None; EvEmit (mkRegion [x41; x42] 7);
      EvRead [x43] None; EvEmit (mkRegion [x43] 9);
      EvRead [] (Some EOF); EvClose],
     Returned, mkSource (mkInMemory []) 10 (mkPooled [] 2 2)).
Proof. reflexivity. Qed.

Lemma Write_does_not_stop_on_cancellation_witness :
  Write (mkEnv (λ _, Some Canceled) (receives background) (errs_room background))
    5 three_bytes
  = ((Write background 5 three_bytes).1.1, (Write background 5 three_bytes).1.2,
     (Write background 5 three_bytes).2).
Proof.
  apply (Write_does_not_stop_on_cancellation background (λ _, Some Canceled) 5
           three_bytes).
  - reflexivity.
  - intros bs e Hin _.
    repeat (apply elem_of_cons in Hin as [Hin|Hin]; [by simplify_eq|]).
    by apply elem_of_nil in Hin.
Defined.

Lemma Write_stops_on_empty_buffer_witness :
  Write background 5 no_room
  = ([EvRead [] None; EvClose], Returned,
     mkSource (mkInMemory [x41; x42; x43]) 7 (mkPooled [] 2 0)).
Proof.
  apply (Write_stops_on_empty_buffer background 4 no_room (mkPooled [] 2 0)
           [] None (mkInMemory [x41; x42; x43])); reflexivity.
Defined.

Lemma Write_regions_fit_the_buffer_witness :
  Forall (λ rg, 0 < len (Data rg) ≤ 2)
    (emitted (Write background 5 three_bytes).1.1).
Proof.
  apply Forall_forall.
  apply (Write_regions_fit_the_buffer background 5 three_bytes
           (Write background 5 three_bytes).1.1
           (Write background 5 three_bytes).1.2
           (Write background 5 three_bytes).2).
  - intros q Hq. by apply elem_of_nil in Hq.
  - reflexivity.
Defined.

Lemma Write_hands_over_the_content_witness :
  ((Write background 5 three_bytes).1.2 ≠ Blocked →
   concat (Data <$> emitted (Write background 5 three_bytes).1.1)
     ++ left (r (Write background 5 three_bytes).2) = [x41; x42; x43]) ∧
  (∀ bs e, EvRead bs (Some e) ∈ (Write background 5 three_bytes).1.1 →
     (Write background 5 three_bytes).1.2 = Returned ∧
     concat (Data <$> emitted (Write background 5 three_bytes).1.1)
       = [x41; x42; x43]).
Proof.
  apply (Write_hands_over_the_content background 5 [x41; x42; x43] 7
           (mkPooled [] 2 2)).
  reflexivity.
Defined.

End SourceBehaviourExamples.

(* ====================================================================== *)
(** * More on the single-writer consumer *)
(* ====================================================================== *)

Section SinkBehaviour.
Import Buffer Sink.
Context {W B : Type} `{WriterAt W} `{Buffer B}.

Lemma puts_app (tr1 tr2 : list event) : puts (tr1 ++ tr2) = puts tr1 ++ puts tr2.
Proof.
  induction tr1 as [|[] tr1 IH]; simpl; [done|done| |done]. by rewrite IH.
Qed.

Lemma accepted_app (tr1 tr2 : list event) :
  accepted (tr1 ++ tr2) = accepted tr1 ++ accepted tr2.
Proof.
  induction tr1 as [|[] tr1 IH]; simpl; [done| |done|done]. by rewrite IH.
Qed.

Lemma write_calls_app (tr1 tr2 : list event) :
  write_calls (tr1 ++ tr2) = write_calls tr1 ++ write_calls tr2.
Proof.
  induction tr1 as [|[] tr1 IH]; simpl; [done| |done|done]. by rewrite IH.
Qed.

Lemma no_calls_no_errors (tr : list event) :
  write_calls tr = [] → write_errors tr = [].
Proof. induction tr as [|[] tr IH]; simpl; try done. Qed.

(** The inner loop puts nothing back, and what the writer accepted, call
    after call, is the part of the Region that was still to write: all of
    it when the loop ends with the Region flushed. *)
Lemma write_loop_accepts (fuel : nat) :
  ∀ (w w' : W) (data : Region) (written : Z) (tr : list event) (fl : flush),
    write_loop fuel w data written = (tr, fl, w') →
    0 ≤ written →
    puts tr = [] ∧
    (fl = Flushed →
     concat (accepted tr) = drop (Z.to_nat written) (Data data)).
Proof.
  induction fuel as [|fuel IH]; intros w w' data written tr fl Hrun Hpos;
    simpl in Hrun.
  { by injection Hrun as <- <- <-. }
  destruct (Z.ltb_spec written (len (Data data))) as [Hlt|Hge].
  - pose proof (WriteAt_le w (drop (Z.to_nat written) (Data data)) (Off data))
      as Hle.
    destruct (WriteAt w _ (Off data)) as [[n [e|]] w1].
    { by injection Hrun as <- <- <-. }
    destruct (write_loop fuel w1 data _) as [[tr1 fl1] w2] eqn:Hrec.
    injection Hrun as <- <- <-.
    destruct (IH _ _ _ _ _ _ Hrec ltac:(lia)) as [Hputs Hacc].
    split; [done|]. intros ->. simpl. rewrite (Hacc eq_refl).
    replace (Z.to_nat (written + Z.of_nat n)) with (Z.to_nat written + n)%nat
      by lia.
    rewrite <- drop_drop. apply take_drop.
  - injection Hrun as <- <- <-. split; [done|]. intros _. simpl.
    symmetry. apply drop_ge. unfold len in Hge. lia.
Qed.

Lemma report_puts (env : Env) (v : option error) (s s' : sink W B)
    (tr : list event) (ex : exit) :
  report env v s = (tr, ex, s') →
  puts tr = [] ∧ accepted tr = [] ∧ write_calls tr = [] ∧
  write_errors tr = [] ∧ s' = s ∧
  (ex = Returned → last tr = Some (EvSend v)).
Proof. unfold report. destruct (errs_room env); by intros [= <- <- <-]. Qed.

(** What a run that returned has written and put back, by whether a write
    failed. *)
Lemma Read_loop_serves (env : Env) (fuel : nat) (source : list Region) :
  ∀ (k : nat) (s s' : sink W B) (tr : list event),
    Read_loop env fuel k source s = (tr, Returned, s') →
    buff s' = foldl Put (buff s) (puts tr) ∧
    ((write_errors tr = [] ∧
      puts tr = Data <$> live_prefix env k source ∧
      concat (accepted tr) = concat (Data <$> live_prefix env k source)) ∨
     (∃ e j d p n,
        write_errors tr = [e] ∧
        live_prefix env k source !! j = Some d ∧
        puts tr = Data <$> take j (live_prefix env k source) ∧
        last (write_calls tr) = Some (p, Off d, n) ∧
        last tr = Some (EvSend (Some (Wrapf "error writing region" e))))).
Proof.
  induction source as [|data source IH]; intros k s s' tr Hrun; simpl in Hrun.
  { destruct (closes_input env); [|done].
    apply report_puts in Hrun as (Hp & Ha & Hc & He & -> & _).
    rewrite Hp, Ha. simpl. split; [done|]. by left. }
  simpl live_prefix. destruct (bool_decide (is_Some (ctx_Err env k))).
  { apply report_puts in Hrun as (Hp & Ha & Hc & He & -> & _).
    rewrite Hp, Ha. simpl. split; [done|]. by left. }
  destruct (write_loop fuel (w s) data 0) as [[tr1 fl] w1] eqn:Hw.
  pose proof (write_loop_errors _ _ _ _ _ _ _ Hw) as [_ Herr].
  pose proof (write_loop_same_offset _ _ _ _ _ _ _ Hw) as Hoff.
  apply write_loop_accepts in Hw as [Hputs Hacc]; [|lia].
  destruct fl as [|e|].
  - destruct (Read_loop env fuel (S k) source _) as [[tr2 ex2] s2] eqn:Hrec.
    injection Hrun as <- -> <-.
    destruct (IH _ _ _ _ Hrec) as [Hbuff Hcases]. simpl in Hbuff.
    rewrite puts_app, accepted_app, write_errors_app, Hputs, Herr. simpl.
    split; [done|].
    destruct Hcases as [(Hne & Hp2 & Ha2)|(e & j & d & p & n & He & Hj & Hp2 & Hc & Hl)].
    + left. rewrite Hp2, concat_app, (Hacc eq_refl), Ha2. simpl.
      by rewrite drop_0.
    + right. exists e, (S j), d, p, n. rewrite Hp2. simpl.
      split_and!; try done.
      * rewrite write_calls_app. simpl.
        destruct (write_calls tr2) as [|c cs] eqn:Hcs; [done|].
        by rewrite last_app_cons.
      * destruct tr2 as [|ev tr2]; [done|].
        by rewrite last_app_cons, last_cons_cons.
  - destruct (report env _ _) as [[tr2 ex2] s2] eqn:Hrep.
    injection Hrun as <- -> <-.
    apply report_puts in Hrep as (Hp2 & Ha2 & Hc2 & He2 & -> & Hlast).
    rewrite puts_app, write_errors_app, Hputs, Hp2, Herr, He2. simpl.
    split; [done|]. right.
    assert (∃ p n, last (write_calls tr1) = Some (p, Off data, n)) as (p & n & Hp).
    { destruct (last (write_calls tr1)) as [[[p o] n]|] eqn:Hl.
      - exists p, n. f_equal. f_equal. f_equal.
        eapply Hoff. apply last_Some_elem_of in Hl. exact Hl.
      - apply last_None in Hl. by rewrite (no_calls_no_errors _ Hl) in Herr. }
    exists e, 0%nat, data, p, n. simpl. split_and!; try done.
    + by rewrite write_calls_app, Hc2, app_nil_r.
    + specialize (Hlast eq_refl). destruct tr2 as [|ev tr2]; [done|].
      by rewrite last_app_cons.
  - done.
Qed.

(** Unless a write fails, a consumer that returns has written every byte of
    every Region it received before it saw the context cancelled (what the
    writer accepted, call after call, is their data in order) and has put
    each of their buffers back in the pool, in the order received.  The
    Region at whose receipt the cancellation is seen, and those after it,
    are neither written nor put back. *)
Theorem Read_writes_and_returns_buffers (env : Env) (fuel : nat)
    (source : list Region) (s s' : sink W B) (tr : list event) :
  Read env fuel source s = (tr, Returned, s') →
  write_errors tr = [] →
  puts tr = Data <$> live_prefix env 0 source ∧
  concat (accepted tr) = concat (Data <$> live_prefix env 0 source) ∧
  buff s' = foldl Put (buff s) (Data <$> live_prefix env 0 source).
Proof.
  unfold Read. intros Hrun Hclean.
  destruct (Read_loop_serves _ _ _ _ _ _ _ Hrun) as [Hbuff Hcases].
  destruct Hcases as [(_ & Hp & Ha)|(e & j & d & p & n & He & _)].
  - split_and!; [done|done|by rewrite <- Hp].
  - by rewrite Hclean in He.
Qed.

(** A failed write stops the consumer at once.  The error it sends is the
    last thing it does; the failed call named the offset of the Region
    being written; the buffers of the Regions before it have gone back to
    the pool, and neither the buffer of the failed Region nor any later
    Region is touched. *)
Theorem Read_stops_at_failed_write (env : Env) (fuel : nat)
    (source : list Region) (s s' : sink W B) (tr : list event) (e : error) :
  Read env fuel source s = (tr, Returned, s') →
  write_errors tr = [e] →
  last tr = Some (EvSend (Some (Wrapf "error writing region" e))) ∧
  ∃ j d p n,
    live_prefix env 0 source !! j = Some d ∧
    last (write_calls tr) = Some (p, Off d, n) ∧
    puts tr = Data <$> take j (live_prefix env 0 source) ∧
    buff s' = foldl Put (buff s) (Data <$> take j (live_prefix env 0 source)).
Proof.
  unfold Read. intros Hrun Hfail.
  destruct (Read_loop_serves _ _ _ _ _ _ _ Hrun) as [Hbuff Hcases].
  destruct Hcases as [(Hne & _)|(e' & j & d & p & n & He & Hj & Hp & Hc & Hl)].
  - by rewrite Hfail in Hne.
  - rewrite Hfail in He. injection He as <-. split; [done|].
    exists j, d, p, n. by rewrite <- Hp.
Qed.

End SinkBehaviour.

Section SinkWholeWrites.
Import Buffer Sink.
Context {W B : Type} `{WriterAt W} `{Buffer B}.

Lemma write_loop_whole (fuel : nat) (w : W) (d : Region) :
  (WriteAt w (Data d) (Off d)).1 = (length (Data d), None) →
  write_loop (S (S fuel)) w d 0 =
    (match Data d with
     | [] => []
     | _ => [EvWriteAt (Data d) (Off d) (length (Data d)) None]
     end, Flushed, write_whole w d).
Proof.
  intros Hwhole. unfold write_whole. cbn [write_loop].
  destruct (Data d) as [|x data] eqn:Hd; [done|].
  change (0 <? len (x :: data)) with true. cbn iota.
  change (drop (Z.to_nat 0) (x :: data)) with (x :: data).
  rewrite <- Hd in *.
  destruct (WriteAt w (Data d) (Off d)) as [[n err] w1]. simpl in Hwhole.
  injection Hwhole as -> ->. rewrite Z.add_0_l. unfold len.
  by rewrite Z.ltb_irrefl.
Qed.

Lemma Read_loop_whole (env : Env) (fuel : nat) (source : list Region) :
  ∀ (k : nat) (s s' : sink W B) (tr : list event) (ex : exit),
    takes_whole (w s) (live_prefix env k source) →
    Read_loop env (S (S fuel)) k source s = (tr, ex, s') →
    ex ≠ OutOfFuel ∧ write_errors tr = [] ∧
    write_calls tr =
      whole_call <$> filter (λ d, 0 < length (Data d))%nat
                       (live_prefix env k source) ∧
    w s' = foldl write_whole (w s) (live_prefix env k source).
Proof.
  induction source as [|d source IH]; intros k s s' tr ex Hwhole Hrun;
    cbn [Read_loop] in Hrun.
  { destruct (closes_input env); [|by injection Hrun as <- <- <-].
    pose proof Hrun as Hrep.
    apply report_puts in Hrun as (_ & _ & Hc & He & -> & _).
    split_and!; try done. unfold report in Hrep.
    destruct (errs_room env); by simplify_eq. }
  simpl live_prefix in *. destruct (bool_decide (is_Some (ctx_Err env k))).
  { pose proof Hrun as Hrep.
    apply report_puts in Hrun as (_ & _ & Hc & He & -> & _).
    split_and!; try done. unfold report in Hrep.
    destruct (errs_room env); by simplify_eq. }
  destruct Hwhole as [Hfirst Hrest].
  rewrite (write_loop_whole fuel (w s) d Hfirst) in Hrun.
  destruct (Read_loop env (S (S fuel)) (S k) source _) as [[tr2 ex2] s2] eqn:Hrec.
  injection Hrun as <- <- <-.
  destruct (IH (S k) {| w := write_whole (w s) d;
                       buff := Put (buff s) (Data d) |} _ _ _ Hrest Hrec)
    as (Hex & Herr & Hcalls & Hw).
  simpl in Hw. split_and!; [done| | |by rewrite Hw].
  - rewrite write_errors_app. cbn [write_errors]. rewrite Herr.
    by destruct (Data d).
  - rewrite write_calls_app. cbn [write_calls]. rewrite Hcalls, filter_cons.
    destruct (Data d) as [|x data] eqn:Hd; simpl; [done|].
    f_equal. unfold whole_call. by rewrite Hd.
Qed.

(** A writer that takes every Region whole is called exactly once for each
    non-empty Region received before cancellation is seen, in order, with
    the Region's data and the Region's offset; a Region without data causes
    no call; no write fails. *)
Theorem Read_writes_each_region_once (env : Env) (fuel : nat)
    (source : list Region) (s s' : sink W B) (tr : list event) (ex : exit) :
  takes_whole (w s) (live_prefix env 0 source) →
  Read env (S (S fuel)) source s = (tr, ex, s') →
  ex ≠ OutOfFuel ∧ write_errors tr = [] ∧
  write_calls tr =
    whole_call <$> filter (λ d, 0 < length (Data d))%nat
                     (live_prefix env 0 source) ∧
  w s' = foldl write_whole (w s) (live_prefix env 0 source).
Proof. unfold Read. apply Read_loop_whole. Qed.

End SinkWholeWrites.

Section SinkBehaviourExamples.
Import Buffer Sink.

Lemma Read_writes_and_returns_buffers_witness :
  let run := Read (cancelled_from 2) 3 [region_AB; region_CD; region_E]
               (Sink byte_at_a_time (mkPooled [] 2 4)) in
  puts run.1.1 = Data <$> live_prefix (cancelled_from 2) 0
                            [region_AB; region_CD; region_E] ∧
  concat (accepted run.1.1)
    = concat (Data <$> live_prefix (cancelled_from 2) 0
                         [region_AB; region_CD; region_E]) ∧
  Sink.buff run.2
    = foldl Put (mkPooled [] 2 4)
        (Data <$> live_prefix (cancelled_from 2) 0
                    [region_AB; region_CD; region_E]).
Proof.
  apply (Read_writes_and_returns_buffers (cancelled_from 2) 3
           [region_AB; region_CD; region_E]
           (Sink byte_at_a_time (mkPooled [] 2 4))
           (Read (cancelled_from 2) 3 [region_AB; region_CD; region_E]
              (Sink byte_at_a_time (mkPooled [] 2 4))).2);
    reflexivity.
Defined.

Lemma Read_stops_at_failed_write_witness :
  let run := Read background 3 [region_E; region_AB; region_CD]
               (Sink fails_second (mkPooled [] 2 4)) in
  last run.1.1
    = Some (EvSend (Some (Wrapf "error writing region" (ErrorString "disk full")))) ∧
  ∃ j d p n,
    live_prefix background 0 [region_E; region_AB; region_CD] !! j = Some d ∧
    last (write_calls run.1.1) = Some (p, Off d, n) ∧
    puts run.1.1
      = Data <$> take j (live_prefix background 0
                           [region_E; region_AB; region_CD]) ∧
    Sink.buff run.2
      = foldl Put (mkPooled [] 2 4)
          (Data <$> take j (live_prefix background 0
                              [region_E; region_AB; region_CD])).
Proof.
  apply (Read_stops_at_failed_write background 3
           [region_E; region_AB; region_CD]
           (Sink fails_second (mkPooled [] 2 4))
           (Read background 3 [region_E; region_AB; region_CD]
              (Sink fails_second (mkPooled [] 2 4))).2);
    reflexivity.
Defined.

Example Read_failure_after_one_region :
  Read background 3 [region_E; region_AB; region_CD]
    (Sink fails_second (mkPooled [] 2 4)) =
    ([EvWriteAt [x45] 14 1 None; EvPut [x45];
      EvWriteAt [x41; x42] 10 0 (Some (ErrorString "disk full"));
      EvSend (Some (Wrapf "error writing region" (ErrorString "disk full")))],
     Returned, mkSink [] (mkPooled [[x45]] 2 4)).
Proof. reflexivity. Qed.

Lemma Read_writes_each_region_once_witness :
  let run := Read background 2 [region_AB; region_none; region_E]
               (Sink (mkChunked 4 []) (mkPooled [] 2 4)) in
  run.1.2 ≠ OutOfFuel ∧ write_errors run.1.1 = [] ∧
  write_calls run.1.1 = [whole_call region_AB; whole_call region_E] ∧
  Sink.w run.2 = mkChunked 4 [(10, x41); (11, x42); (14, x45)].
Proof.
  refine (Read_writes_each_region_once background 0
            [region_AB; region_none; region_E]
            (Sink (mkChunked 4 []) (mkPooled [] 2 4))
            (Read background 2 [region_AB; region_none; region_E]
               (Sink (mkChunked 4 []) (mkPooled [] 2 4))).2
            (Read background 2 [region_AB; region_none; region_E]
               (Sink (mkChunked 4 []) (mkPooled [] 2 4))).1.1
            (Read background 2 [region_AB; region_none; region_E]
               (Sink (mkChunked 4 []) (mkPooled [] 2 4))).1.2 _ _).
  - simpl. repeat split.
  - reflexivity.
Defined.

End SinkBehaviourExamples.

(* ====================================================================== *)
(** * From the reader to the destination *)
(* ====================================================================== *)

Section ReaderToDestination.
Import Buffer Source Sink.

Lemma place_app (o : Z) (p q : bytes) :
  place o (p ++ q) = place o p ++ place (o + len p) q.
Proof.
  revert o. induction p as [|x p IH]; intros o; simpl.
  - unfold len. simpl. by rewrite Z.add_0_r.
  - rewrite IH. do 3 f_equal. unfold len. simpl length. lia.
Qed.

Lemma len_app {A} (p q : list A) : len (p ++ q) = len p + len q.
Proof. unfold len. rewrite length_app. lia. Qed.

Lemma len_nonneg {A} (p : list A) : 0 ≤ len p.
Proof. unfold len. lia. Qed.

(** The Regions of a run of the producer lie one after the other from the
    base offset, as long as the offsets stay within [int64]. *)
Lemma Write_loop_contiguous {R B : Type} `{Source.Reader R} `{Buffer B}
    (env : Source.Env) (fuel : nat) :
  ∀ it done (s : Source.source R B) tr ex s',
    Source.Write_loop env fuel it done s = (tr, ex, s') →
    in_int64 (Source.off s) →
    Source.off s + len (concat (Data <$> Source.emitted tr)) < 2 ^ 63 →
    laid_out (Source.emitted tr)
      = place (Source.off s) (concat (Data <$> Source.emitted tr)).
Proof.
  induction fuel as [|fuel IH]; intros it done s tr ex s' Hrun Hoff Hfit.
  { by injection Hrun as <- <- <-. }
  pose proof (Write_loop_iteration env fuel it done s) as Hit.
  rewrite Hrun in Hit.
  inversion Hit as [| | | | | |data b' bs err rd' done' tr1 ex1 s1 Hget Hread
                                 Hsoft Hnz Htaken Hrec];
    subst; try done.
  cbn [Source.emitted] in *. rewrite fmap_cons in *.
  cbn [concat Data] in *. rewrite len_app in Hfit.
  pose proof (len_nonneg bs).
  pose proof (len_nonneg (concat (Data <$> Source.emitted tr1))).
  assert (int64_add (Source.off s) (len bs) = Source.off s + len bs) as Hadd.
  { unfold int64_add. apply wrap64_id. unfold in_int64 in *. lia. }
  unfold laid_out in *. cbn [flat_map Off Data]. rewrite place_app. f_equal.
  rewrite (IH _ _ _ _ _ _ Hrec); cbn [Source.off]; rewrite Hadd; [done| |lia].
  unfold in_int64 in *. lia.
Qed.

Lemma chunked_takes_whole (ds : list Region) :
  ∀ c : chunked,
    (∀ d, d ∈ ds → (length (Data d) ≤ chunk c)%nat) →
    takes_whole c ds ∧
    foldl write_whole c ds = mkChunked (chunk c) (stored c ++ laid_out ds).
Proof.
  induction ds as [|d ds IH]; intros c Hfit; simpl.
  { unfold laid_out. simpl. rewrite app_nil_r. by destruct c. }
  assert (take (chunk c) (Data d) = Data d) as Htake.
  { apply take_ge. apply Hfit. by left. }
  assert (write_whole c d = mkChunked (chunk c) (stored c ++ place (Off d) (Data d)))
    as Hstep.
  { unfold write_whole. destruct (Data d) eqn:Hd.
    - simpl. rewrite app_nil_r. by destruct c.
    - rewrite <- Hd in *. simpl. by rewrite Htake. }
  destruct (IH (write_whole c d)) as [Hwhole Hfold].
  { rewrite Hstep. simpl. intros d0 Hd0. apply Hfit. by right. }
  split.
  - split; [|done]. unfold chunked_WriteAt. simpl. by rewrite Htake.
  - rewrite Hfold, Hstep. simpl. unfold laid_out. simpl. by rewrite app_assoc.
Qed.

Lemma live_prefix_all (env : Env) (source : list Region) :
  (∀ k, ctx_Err env k = None) → ∀ k, live_prefix env k source = source.
Proof.
  intros Hlive. induction source as [|d source IH]; intros k; simpl; [done|].
  rewrite Hlive. rewrite bool_decide_eq_false_2 by (by intros [? ?]).
  by rewrite IH.
Qed.

Lemma Read_loop_not_blocked {W B : Type} `{WriterAt W} `{Buffer B}
    (env : Env) (fuel : nat) (source : list Region) :
  closes_input env = true → errs_room env = true →
  ∀ (k : nat) (s : sink W B), (Read_loop env fuel k source s).1.2 ≠ Blocked.
Proof.
  intros Hcl Hroom. induction source as [|d source IH]; intros k s; simpl.
  { unfold report. by rewrite Hcl, Hroom. }
  destruct (bool_decide (is_Some (ctx_Err env k)));
    [unfold report; by rewrite Hroom|].
  destruct (write_loop fuel (w s) d 0) as [[tr1 fl] w1].
  destruct fl as [|e|]; [|unfold report; by rewrite Hroom|done].
  specialize (IH (S k) {| w := w1; buff := Put (buff s) (Data d) |}).
  by destruct (Read_loop env fuel (S k) source _) as [[tr2 ex2] s2].
Qed.

Context {B1 B2 : Type} `{Buffer B1} `{Buffer B2}.

(** What is read is what is stored.  When the producer has read a byte
    string from memory to its end and the Regions it emitted go, in order,
    to a consumer that is not cancelled and whose destination takes each
    Region whole, the consumer reports success and the destination has
    received exactly the bytes of the string, each at the base offset plus
    its position in the string, whatever buffers the pool handed out. *)
Theorem stream_is_stored_where_it_was_read
    (senv : Source.Env) (renv : Env) (fuel1 fuel2 : nat) (c : bytes) (o : Z)
    (b1 : B1) (b2 : B2) (ch : nat) (st0 : list (Z * byte))
    (tr1 : list Source.event) (ex1 : Source.exit)
    (s1 : Source.source Source.inMemory B1)
    (tr2 : list event) (ex2 : exit) (s2 : sink chunked B2)
    (bs : bytes) (e : error) :
  in_int64 o → o + len c < 2 ^ 63 →
  Source.Write senv fuel1 (Source.Source (Source.mkInMemory c) o b1)
    = (tr1, ex1, s1) →
  Source.EvRead bs (Some e) ∈ tr1 →
  (∀ rg, rg ∈ Source.emitted tr1 → (length (Data rg) ≤ ch)%nat) →
  (∀ k, ctx_Err renv k = None) →
  closes_input renv = true → errs_room renv = true →
  Read renv (S (S fuel2)) (Source.emitted tr1) (Sink (mkChunked ch st0) b2)
    = (tr2, ex2, s2) →
  ex2 = Returned ∧ errs_sent tr2 = [None] ∧
  stored (w s2) = st0 ++ place o c.
Proof.
  intros Hoff Hfit Hwrite Heof Hchunk Hlive Hcl Hroom Hread.
  pose proof Hwrite as Hloop. unfold Source.Write in Hloop.
  destruct (Write_loop_conserves _ _ _ _ _ _ _ _ Hloop) as [Hcons Hall].
  destruct (Hall bs e Heof) as [-> Hempty].
  specialize (Hcons ltac:(done)). simpl in Hcons.
  rewrite Hempty, app_nil_r in Hcons. rename Hcons into Hcontent.
  pose proof (Write_loop_contiguous _ _ _ _ _ _ _ _ Hwrite Hoff) as Hlaid.
  simpl in Hlaid. rewrite Hcontent in Hlaid. specialize (Hlaid Hfit).
  destruct (chunked_takes_whole (Source.emitted tr1) (mkChunked ch st0) Hchunk)
    as [Hwhole Hfold].
  destruct (Read_loop_whole renv fuel2 (Source.emitted tr1) 0%nat
              (Sink (mkChunked ch st0) b2) s2 tr2 ex2)
    as (Hex & Herr & _ & Hw); [by rewrite live_prefix_all|done|].
  rewrite live_prefix_all in Hw by done. simpl in Hw.
  rewrite Hfold, Hlaid in Hw.
  pose proof (Read_loop_not_blocked renv (S (S fuel2)) (Source.emitted tr1)
                Hcl Hroom 0%nat (Sink (mkChunked ch st0) b2)) as Hnb.
  unfold Read in Hread. rewrite Hread in Hnb. simpl in Hnb.
  destruct ex2; try done.
  pose proof (Read_loop_sends _ _ _ _ _ _ _ _ Hread) as Hsent. simpl in Hsent.
  split; [done|]. split.
  - destruct Hsent as [[_ ?]|(e0 & He0 & _)]; [done|]. by rewrite Herr in He0.
  - by rewrite Hw.
Qed.

End ReaderToDestination.

Section ReaderToDestinationExample.
Import Buffer Source Sink.

Lemma stream_is_stored_where_it_was_read_witness :
  let regions := Source.emitted (Source.Write Source.background 5 Source.three_bytes).1.1 in
  let run := Read background 2 regions (Sink (mkChunked 2 []) (mkPooled [] 2 2)) in
  run.1.2 = Returned ∧ errs_sent run.1.1 = [None] ∧
  stored (w run.2) = [] ++ place 7 [x41; x42; x43].
Proof.
  refine (stream_is_stored_where_it_was_read Source.background background 5 0
            [x41; x42; x43] 7 (mkPooled [] 2 2) (mkPooled [] 2 2) 2 []
            (Source.Write Source.background 5 Source.three_bytes).1.1
            (Source.Write Source.background 5 Source.three_bytes).1.2
            (Source.Write Source.background 5 Source.three_bytes).2
            _ _ _ [] EOF _ _ _ _ _ _ _ _ _).
  - unfold in_int64. lia.
  - unfold len. simpl. lia.
  - reflexivity.
  - simpl. do 4 right. by left.
  - intros rg Hrg. simpl in Hrg.
    repeat (apply elem_of_cons in Hrg as [->|Hrg]; [simpl; lia|]).
    by apply elem_of_nil in Hrg.
  - done.
  - done.
  - done.
  - reflexivity.
Defined.

End ReaderToDestinationExample.

(* ====================================================================== *)
(** * More on the writer-pool consumer *)
(* ====================================================================== *)

Section PoolInvariants.
Import Buffer Sink Pool.
Context {W B : Type} `{WriterAt W} `{Buffer B}.

Lemma tally_app {A} (f : A → bool) (l1 l2 : list A) :
  tally f (l1 ++ l2) = (tally f l1 + tally f l2)%nat.
Proof. induction l1 as [|x l1 IH]; simpl; [done|]. rewrite IH. lia. Qed.

Lemma tally_insert {A} (f : A → bool) (l : list A) (i : nat) (x y : A) :
  l !! i = Some x →
  (tally f (<[i := y]> l) + (if f x then 1 else 0)
   = tally f l + (if f y then 1 else 0))%nat.
Proof.
  revert i. induction l as [|z l IH]; intros [|i] Hi; simpl in *; try done.
  - injection Hi as ->. lia.
  - specialize (IH i Hi). lia.
Qed.

Lemma tally_zero {A} (f : A → bool) (l : list A) (i : nat) (x : A) :
  tally f l = 0%nat → l !! i = Some x → f x = false.
Proof.
  revert i. induction l as [|z l IH]; intros [|i] Hz Hi; simpl in *; try done.
  - injection Hi as ->. destruct (f x); [lia|done].
  - apply (IH i); [|done]. destruct (f z); lia.
Qed.

Lemma errs_sent_snoc (tr : list event) (ev : event) :
  errs_sent (tr ++ [ev]) =
    errs_sent tr ++ match ev with EvSend v => [v] | _ => [] end.
Proof. rewrite errs_sent_app. by destruct ev. Qed.

Lemma pool_start_sync (b : B) (ws : list W) (src : list Region) :
  inv_sync (length ws) (start b ws src).
Proof.
  unfold inv_sync, start. simpl. split_and!; try done; try lia; by intros [|].
Qed.

Lemma pool_main_sync (m : nat) (st st' : state W B) :
  inv_sync m st → step_main st = Some st' → inv_sync m st'.
Proof.
  intros (Hw & Hwait & Hend & Herr & Hnil) Hstep. unfold step_main in Hstep.
  destruct (pc st) as [|d| | |] eqn:Hpc.
  - destruct (source st) as [|d rest]; [|destruct (cancelled st)];
      injection Hstep as <-; unfold inv_sync; simpl in *;
      (split_and!; [done| |by intros [|]|done|done]); unfold len in *;
      simpl in *; lia.
  - destruct (writers st) as [|wr idle] eqn:Hidle; [done|].
    injection Hstep as <-. unfold inv_sync. simpl in *.
    rewrite !tally_app. simpl. unfold len in *. simpl in *.
    split_and!; [lia|lia|by intros [|]|lia|done].
  - destruct (Z.eqb_spec (waiter st) 0) as [Hzero|]; [|done].
    injection Hstep as <-. unfold inv_sync. simpl in *. unfold len in *.
    simpl in *. split_and!; [done|done|intros _; lia|done|done].
  - unfold send_errs in Hstep.
    destruct (length (errs st) <? errs_cap st)%nat; [|done].
    injection Hstep as <-. unfold inv_sync. simpl in *.
    rewrite errs_sent_snoc, !tally_app. simpl.
    split_and!; [done|done|intros _; by apply Hend; left|lia|lia].
  - done.
Qed.

Lemma pool_task_sync (m i : nat) (st st' : state W B) :
  inv_sync m st → step_task i st = Some st' → inv_sync m st'.
Proof.
  intros (Hw & Hwait & Hend & Herr & Hnil) Hstep. unfold step_task in Hstep.
  destruct (tasks st !! i) as [t|] eqn:Ht; [|done].
  assert (in_flight t = true → pc st ≠ SendNil ∧ pc st ≠ Done) as Hbusy.
  { intros Hfly. split; intros Hpc;
      (rewrite (tally_zero in_flight _ _ _ (Hend ltac:(auto)) Ht) in Hfly; done). }
  destruct (at_pc t) as [written|e|released] eqn:Hat; [| |done].
  - assert (in_flight t = true) as Hfly by (unfold in_flight; by rewrite Hat).
    assert (failed t = false) as Hfail by (unfold failed; by rewrite Hat).
    destruct (Hbusy Hfly) as [Hns Hnd].
    destruct (written <? len (Data (data t))).
    + destruct (WriteAt (writer t) _ (Off (data t))) as [[n err] w'].
      injection Hstep as <-. unfold inv_sync. simpl.
      rewrite errs_sent_snoc, app_nil_r.
      set (t' := match err with
                 | Some e => mkTask w' (data t) (Sending (Wrapf "error writing regions" e))
                 | None => mkTask w' (data t) (Writing (written + Z.of_nat n))
                 end).
      pose proof (tally_insert in_flight _ i t t' Ht) as Hin.
      pose proof (tally_insert failed _ i t t' Ht) as Hfa.
      rewrite Hfly in Hin. rewrite Hfail in Hfa.
      assert (in_flight t' = true ∧ failed t' = false) as [Hi2 Hf2]
        by (by destruct err).
      rewrite Hi2 in Hin. rewrite Hf2 in Hfa.
      split_and!; [lia|lia|by intros [|]|lia|by destruct (pc st)].
    + injection Hstep as <-. unfold inv_sync. simpl.
      rewrite errs_sent_snoc, app_nil_r, length_app. simpl.
      pose proof (tally_insert in_flight _ i t
                    (mkTask (writer t) (data t) (Exited true)) Ht) as Hin.
      pose proof (tally_insert failed _ i t
                    (mkTask (writer t) (data t) (Exited true)) Ht) as Hfa.
      rewrite Hfly in Hin. rewrite Hfail in Hfa.
      change (in_flight (mkTask (writer t) (data t) (Exited true))) with false in Hin.
      change (failed (mkTask (writer t) (data t) (Exited true))) with false in Hfa.
      cbv iota in Hin, Hfa.
      split_and!; [lia|lia|by intros [|]|lia|by destruct (pc st)].
  - assert (in_flight t = true) as Hfly by (unfold in_flight; by rewrite Hat).
    assert (failed t = false) as Hfail by (unfold failed; by rewrite Hat).
    destruct (Hbusy Hfly) as [Hns Hnd].
    unfold send_errs in Hstep.
    destruct (length (errs st) <? errs_cap st)%nat; [|done].
    injection Hstep as <-. unfold inv_sync. simpl.
    rewrite errs_sent_snoc, !tally_app. simpl.
    pose proof (tally_insert in_flight _ i t
                  (mkTask (writer t) (data t) (Exited false)) Ht) as Hin.
    pose proof (tally_insert failed _ i t
                  (mkTask (writer t) (data t) (Exited false)) Ht) as Hfa.
    rewrite Hfly in Hin. rewrite Hfail in Hfa.
    change (in_flight (mkTask (writer t) (data t) (Exited false))) with true in Hin.
    change (failed (mkTask (writer t) (data t) (Exited false))) with true in Hfa.
    cbv iota in Hin, Hfa.
    split_and!; [lia|lia|by intros [|]|lia|destruct (pc st); try done; lia].
Qed.

Lemma pool_step_sync (m : nat) (c : choice) (st st' : state W B) :
  inv_sync m st → step c st = Some st' → inv_sync m st'.
Proof.
  destruct c as [|i| |]; simpl.
  - apply pool_main_sync.
  - apply pool_task_sync.
  - unfold step_orchestrator. intros Hinv Hstep.
    destruct (result st); [done|]. destruct (errs st); [done|].
    injection Hstep as <-. exact Hinv.
  - intros Hinv [= <-]. exact Hinv.
Qed.

Lemma pool_run_sync (m : nat) (sched : list choice) :
  ∀ st st' : state W B,
    inv_sync m st → run sched st = Some st' → inv_sync m st'.
Proof.
  induction sched as [|c sched IH]; intros st st' Hinv Hrun; simpl in Hrun.
  { by injection Hrun as <-. }
  destruct (step c st) as [st1|] eqn:Hstep; [|done].
  eapply IH; [|done]. by eapply pool_step_sync.
Qed.

Lemma released_insert (ts : list (task W)) (i : nat) (t t' : task W) :
  ts !! i = Some t → in_flight t = true →
  released (<[i := t']> ts) ≡ₚ
    (if in_flight t' then [] else [Data (data t')]) ++ released ts.
Proof.
  revert i. induction ts as [|z ts IH]; intros [|i] Hi Hfly; simpl in *; try done.
  - injection Hi as ->. unfold released. simpl. by rewrite Hfly.
  - unfold released in *. simpl. rewrite (IH i Hi Hfly).
    destruct (in_flight t'), (in_flight z); simpl; try done. apply perm_swap.
Qed.

Lemma data_insert (ts : list (task W)) (i : nat) (t t' : task W) :
  ts !! i = Some t → data t' = data t → data <$> <[i := t']> ts = data <$> ts.
Proof.
  intros Hi Hd. rewrite list_fmap_insert, Hd. apply list_insert_id.
  by rewrite list_lookup_fmap, Hi.
Qed.

Lemma released_app (ts1 ts2 : list (task W)) :
  released (ts1 ++ ts2) = released ts1 ++ released ts2.
Proof. unfold released. by rewrite flat_map_app. Qed.

Lemma released_all (ts : list (task W)) :
  tally in_flight ts = 0%nat → released ts = Data <$> (data <$> ts).
Proof.
  induction ts as [|t ts IH]; simpl; [done|]. intros Hz.
  unfold released in *. simpl. destruct (in_flight t); [lia|].
  simpl. by rewrite IH by lia.
Qed.

Lemma pool_start_work (b : B) (ws : list W) (src : list Region) :
  inv_work src (start b ws src).
Proof. by split. Qed.

Lemma pool_main_work (src : list Region) (st st' : state W B) :
  inv_work src st → step_main st = Some st' → inv_work src st'.
Proof.
  intros [Hputs Hsrc] Hstep. unfold step_main in Hstep.
  unfold inv_work, dispatched in *.
  destruct (pc st) as [|d| | |] eqn:Hpc; simpl in Hsrc.
  - rewrite app_nil_r in Hsrc.
    destruct (source st) as [|d rest] eqn:Hsource;
      [|destruct (cancelled st) eqn:Hc]; injection Hstep as <-; simpl;
      rewrite ?app_nil_r.
    + rewrite app_nil_r in Hsrc. by rewrite Hsrc.
    + split; [done|]. split; [|done]. by eexists.
    + split; [done|]. by rewrite <- app_assoc.
  - destruct (writers st) as [|wr idle]; [done|].
    injection Hstep as <-. simpl. rewrite released_app, fmap_app, !app_nil_r.
    done.
  - destruct (waiter st =? 0); [|done]. by injection Hstep as <-.
  - unfold send_errs in Hstep.
    destruct (length (errs st) <? errs_cap st)%nat; [|done].
    injection Hstep as <-. simpl. rewrite puts_app. simpl.
    by rewrite app_nil_r.
  - done.
Qed.

Lemma pool_task_work (src : list Region) (i : nat) (st st' : state W B) :
  inv_work src st → step_task i st = Some st' → inv_work src st'.
Proof.
  intros [Hputs Hsrc] Hstep. unfold step_task in Hstep.
  destruct (tasks st !! i) as [t|] eqn:Ht; [|done].
  unfold inv_work, dispatched in *.
  destruct (at_pc t) as [written|e|rel] eqn:Hat; [| |done].
  - assert (in_flight t = true) as Hfly by (unfold in_flight; by rewrite Hat).
    destruct (written <? len (Data (data t))).
    + destruct (WriteAt (writer t) _ (Off (data t))) as [[n err] w'].
      injection Hstep as <-. simpl. rewrite puts_app. simpl.
      set (t' := match err with
                 | Some e => mkTask w' (data t) (Sending (Wrapf "error writing regions" e))
                 | None => mkTask w' (data t) (Writing (written + Z.of_nat n))
                 end).
      assert (in_flight t' = true ∧ data t' = data t) as [Hfly' Hdata']
        by (by destruct err).
      rewrite app_nil_r, (released_insert _ _ _ _ Ht Hfly), Hfly'.
      by rewrite (data_insert _ _ _ _ Ht Hdata').
    + injection Hstep as <-. simpl. rewrite puts_app. simpl.
      rewrite (released_insert _ _ _ _ Ht Hfly).
      rewrite (data_insert _ _ t _ Ht) by done. simpl.
      split; [|done]. rewrite Hputs. symmetry. apply Permutation_cons_append.
  - assert (in_flight t = true) as Hfly by (unfold in_flight; by rewrite Hat).
    unfold send_errs in Hstep.
    destruct (length (errs st) <? errs_cap st)%nat; [|done].
    injection Hstep as <-. simpl. rewrite puts_app. simpl.
    rewrite app_nil_r, (released_insert _ _ _ _ Ht Hfly).
    by rewrite (data_insert _ _ t _ Ht) by done.
Qed.

Lemma pool_step_work (src : list Region) (c : choice) (st st' : state W B) :
  inv_work src st → step c st = Some st' → inv_work src st'.
Proof.
  destruct c as [|i| |]; simpl.
  - apply pool_main_work.
  - apply pool_task_work.
  - unfold step_orchestrator. intros [Hputs Hsrc] Hstep.
    destruct (result st); [done|]. destruct (errs st); [done|].
    injection Hstep as <-. unfold inv_work, dispatched in *. simpl.
    split; [done|]. destruct (pc st); try done; by destruct Hsrc.
  - intros [Hputs Hsrc] [= <-]. unfold inv_work, dispatched in *. simpl.
    split; [done|]. destruct (pc st); try done; by destruct Hsrc.
Qed.

Lemma pool_run_work (src : list Region) (sched : list choice) :
  ∀ st st' : state W B,
    inv_work src st → run sched st = Some st' → inv_work src st'.
Proof.
  induction sched as [|c sched IH]; intros st st' Hinv Hrun; simpl in Hrun.
  { by injection Hrun as <-. }
  destruct (step c st) as [st1|] eqn:Hstep; [|done].
  eapply IH; [|done]. by eapply pool_step_work.
Qed.

Lemma pool_step_idle (src : list Region) (c : choice) (st st' : state W B) :
  inv_idle src st → step c st = Some st' → inv_idle src st'.
Proof.
  intros (Htasks & Hws & Hcalls & Hputs & Hpc) Hstep. unfold inv_idle.
  destruct c as [|i| |]; simpl in Hstep.
  - unfold step_main in Hstep.
    destruct (pc st) as [|d| | |] eqn:Hat.
    + destruct (source st) as [|d rest] eqn:Hsource;
        [|destruct (cancelled st) eqn:Hc]; injection Hstep as <-; simpl;
        split_and!; try done; auto.
    + by rewrite Hws in Hstep.
    + destruct (waiter st =? 0); [|done]. by injection Hstep as <-.
    + unfold send_errs in Hstep.
      destruct (length (errs st) <? errs_cap st)%nat; [|done].
      injection Hstep as <-. simpl. rewrite write_calls_app, puts_app. simpl.
      by rewrite Hcalls, Hputs.
    + done.
  - unfold step_task in Hstep. by rewrite Htasks in Hstep.
  - unfold step_orchestrator in Hstep.
    destruct (result st); [done|]. destruct (errs st); [done|].
    injection Hstep as <-. simpl. split_and!; try done.
    destruct (pc st); auto.
  - injection Hstep as <-. simpl. split_and!; try done.
    destruct (pc st); auto.
Qed.

Lemma pool_run_idle (src : list Region) (sched : list choice) :
  ∀ st st' : state W B,
    inv_idle src st → run sched st = Some st' → inv_idle src st'.
Proof.
  induction sched as [|c sched IH]; intros st st' Hinv Hrun; simpl in Hrun.
  { by injection Hrun as <-. }
  destruct (step c st) as [st1|] eqn:Hstep; [|done].
  eapply IH; [|done]. by eapply pool_step_idle.
Qed.

(** A task that met a write error stays one. *)
Lemma erred_step (c : choice) (i : nat) (st st' : state W B) :
  (∃ t, tasks st !! i = Some t ∧ erred t = true) →
  step c st = Some st' →
  ∃ t', tasks st' !! i = Some t' ∧ erred t' = true.
Proof.
  intros (t & Ht & Herr) Hstep.
  destruct c as [|j| |]; simpl in Hstep.
  - unfold step_main in Hstep.
    destruct (pc st).
    + destruct (source st); [|destruct (cancelled st)];
        injection Hstep as <-; simpl; eauto.
    + destruct (writers st); [done|]. injection Hstep as <-. simpl.
      exists t. split; [|done]. apply lookup_app_l_Some. done.
    + destruct (waiter st =? 0); [|done]. injection Hstep as <-. eauto.
    + destruct (send_errs st None) as [[q lg]|]; [|done].
      injection Hstep as <-. eauto.
    + done.
  - unfold step_task in Hstep.
    destruct (tasks st !! j) as [u|] eqn:Hu; [|done].
    assert (∀ u' : task W, (j = i → erred u' = true) →
              ∃ t', <[j := u']> (tasks st) !! i = Some t' ∧ erred t' = true)
      as Hset.
    { intros u' Hu'. destruct (decide (j = i)) as [->|Hne].
      - exists u'. split; [|auto]. apply list_lookup_insert_eq.
        by eapply lookup_lt_Some.
      - exists t. by rewrite list_lookup_insert_ne. }
    destruct (at_pc u) as [written|e|rel] eqn:Hat; [| |done].
    + assert (j ≠ i) as Hne.
      { intros ->. rewrite Ht in Hu. injection Hu as ->.
        unfold erred in Herr. by rewrite Hat in Herr. }
      destruct (written <? len (Data (data u))).
      * destruct (WriteAt (writer u) _ (Off (data u))) as [[n err] w'].
        injection Hstep as <-. simpl. by apply Hset.
      * injection Hstep as <-. simpl. by apply Hset.
    + destruct (send_errs st (Some e)) as [[q lg]|]; [|done].
      injection Hstep as <-. simpl. by apply Hset.
  - unfold step_orchestrator in Hstep.
    destruct (result st); [done|]. destruct (errs st); [done|].
    injection Hstep as <-. eauto.
  - injection Hstep as <-. eauto.
Qed.

Lemma erred_run (sched : list choice) (i : nat) :
  ∀ st st' : state W B,
    (∃ t, tasks st !! i = Some t ∧ erred t = true) →
    run sched st = Some st' →
    ∃ t', tasks st' !! i = Some t' ∧ erred t' = true.
Proof.
  induction sched as [|c sched IH]; intros st st' Hinv Hrun; simpl in Hrun.
  { by injection Hrun as <-. }
  destruct (step c st) as [st1|] eqn:Hstep; [|done].
  eapply IH; [|done]. by eapply erred_step.
Qed.

Lemma run_app (sched1 sched2 : list choice) (st : state W B) :
  run (sched1 ++ sched2) st = run sched1 st ≫= run sched2.
Proof.
  revert st. induction sched1 as [|c sched1 IH]; intros st; simpl; [done|].
  destruct (step c st); [apply IH|done].
Qed.

Lemma tally_pos {A} (f : A → bool) (l : list A) (i : nat) (x : A) :
  l !! i = Some x → f x = true → (0 < tally f l)%nat.
Proof.
  intros Hi Hf. destruct (tally f l) eqn:Hz; [|lia].
  by rewrite (tally_zero f l i x Hz Hi) in Hf.
Qed.

Lemma tally_le {A} (f g : A → bool) (l : list A) :
  (∀ x, f x = true → g x = true) → (tally f l ≤ tally g l)%nat.
Proof.
  intros Hfg. induction l as [|x l IH]; simpl; [done|].
  destruct (f x) eqn:Hf; [rewrite (Hfg x Hf)|destruct (g x)]; lia.
Qed.

Lemma only_nil (l : list (option error)) :
  tally is_error l = 0%nat → tally is_nil l = 1%nat → l = [None].
Proof.
  destruct l as [|[e|] [|v l]]; simpl; try done; try lia.
  unfold is_nil. destruct v; simpl; lia.
Qed.

Lemma no_nil (l : list (option error)) :
  tally is_nil l = 0%nat → None ∉ l.
Proof.
  intros Hz Hin. apply list_elem_of_lookup in Hin as [i Hi].
  by pose proof (tally_zero is_nil l i None Hz Hi).
Qed.

(** When [pool.Read] has returned, under whatever schedule, it has sent
    nil and nothing else was ever sent on [errs]; every task it spawned ran
    through its release, so that all writers are back in the pool and the
    wait group is at zero; and the buffers handed back are those of the
    Regions it took from its input, which are all of them unless it saw
    the cancellation. *)
Theorem pool_Read_returns_after_clean_writes
    (b : B) (ws : list W) (src : list Region) (sched : list choice)
    (st : state W B) :
  run sched (start b ws src) = Some st →
  pc st = Done →
  errs_sent (log st) = [None] ∧
  (∀ i t, tasks st !! i = Some t → at_pc t = Exited true) ∧
  length (writers st) = length ws ∧
  waiter st = 0 ∧
  ∃ k, puts (log st) ≡ₚ Data <$> take k src ∧
       (cancelled st = false → k = length src).
Proof.
  intros Hrun Hpc.
  pose proof (pool_run_sync _ _ _ _ (pool_start_sync b ws src) Hrun)
    as (Hw & Hwait & Hend & Herr & Hnil).
  pose proof (pool_run_work _ _ _ _ (pool_start_work b ws src) Hrun)
    as [Hputs Hsrc].
  rewrite Hpc in *. specialize (Hend (or_intror eq_refl)).
  assert (tally failed (tasks st) = 0%nat) as Hfailed.
  { assert (tally failed (tasks st) ≤ tally in_flight (tasks st))%nat; [|lia].
    apply tally_le. intros t. unfold failed, in_flight.
    by destruct (at_pc t) as [| |[|]]. }
  split_and!.
  - apply only_nil; [by rewrite Herr|done].
  - intros i t Ht. pose proof (tally_zero in_flight _ i t Hend Ht) as Hfly.
    unfold in_flight in Hfly. by destruct (at_pc t) as [| |[|]].
  - lia.
  - rewrite Hwait, Hend. done.
  - unfold dispatched in Hsrc. rewrite Hpc in Hsrc. simpl in Hsrc.
    rewrite app_nil_r in Hsrc. destruct Hsrc as [[rest Hpre] Hall].
    exists (length (data <$> tasks st)). split.
    + rewrite Hputs, (released_all _ Hend), Hpre. by rewrite take_app_length.
    + intros Hc. by rewrite <- (Hall Hc).
Qed.

(** Once a write has failed, [pool.Read] never returns: the task left
    without [waiter.Done()], so the wait-group counter stays above zero,
    [Read] gets no further than [waiter.Wait()] and never sends nil. *)
Theorem pool_Read_never_returns_after_write_error
    (b : B) (ws : list W) (src : list Region) (sched : list choice)
    (st : state W B) (i : nat) (t : task W) :
  run sched (start b ws src) = Some st →
  tasks st !! i = Some t →
  erred t = true →
  ∀ sched' st', run sched' st = Some st' →
    pc st' ≠ SendNil ∧ pc st' ≠ Done ∧ 0 < waiter st' ∧
    None ∉ errs_sent (log st').
Proof.
  intros Hrun Ht Herred sched' st' Hrun'.
  assert (run (sched ++ sched') (start b ws src) = Some st') as Hall.
  { by rewrite run_app, Hrun. }
  pose proof (pool_run_sync _ _ _ _ (pool_start_sync b ws src) Hall)
    as (Hw & Hwait & Hend & Herr & Hnil).
  destruct (erred_run sched' i st st') as (t' & Ht' & Herred');
    [by eauto|done|].
  assert (0 < tally in_flight (tasks st'))%nat as Hpos.
  { apply (tally_pos _ _ i t' Ht'). unfold erred, in_flight in *.
    by destruct (at_pc t') as [| |[|]]. }
  assert (pc st' ≠ SendNil ∧ pc st' ≠ Done) as [Hns Hnd].
  { split; intros Hpc; specialize (Hend ltac:(auto)); lia. }
  split_and!; try done.
  - rewrite Hwait. unfold len. lia.
  - apply no_nil. rewrite Hnil. by destruct (pc st').
Qed.


(** A pool built without writers writes nothing and hands back no buffer;
    its [Read] stays at [<-p.writers] from the first Region it takes, and
    returns only when the input is closed with nothing delivered or it saw
    the cancellation. *)
Theorem pool_without_writers_is_stuck
    (b : B) (src : list Region) (sched : list choice) (st : state W B) :
  run sched (start b (@nil W) src) = Some st →
  write_calls (log st) = [] ∧ puts (log st) = [] ∧ tasks st = [] ∧
  (pc st = Wait ∨ pc st = SendNil ∨ pc st = Done →
   src = [] ∨ cancelled st = true).
Proof.
  intros Hrun.
  assert (inv_idle src (start b (@nil W) src)) as Hstart by done.
  pose proof (pool_run_idle _ _ _ _ Hstart Hrun)
    as (Htasks & _ & Hcalls & Hputs & Hpc).
  split_and!; try done. intros [Heq|[Heq|Heq]]; by rewrite Heq in Hpc.
Qed.

End PoolInvariants.

Section PoolInvariantExamples.
Import Buffer Sink Pool.

Lemma pool_Read_returns_after_clean_writes_witness :
  ∃ st, run one_by_one
          (start (mkPooled [] 2 4) [byte_at_a_time] [region_AB; region_CD])
          = Some st ∧
    pc st = Done ∧
    errs_sent (log st) = [None] ∧
    (∀ i t, tasks st !! i = Some t → at_pc t = Exited true) ∧
    length (writers st) = 1%nat ∧
    waiter st = 0 ∧
    ∃ k, puts (log st) ≡ₚ Data <$> take k [region_AB; region_CD] ∧
         (cancelled st = false → k = 2%nat).
Proof.
  eexists. split; [vm_compute; reflexivity|]. split; [reflexivity|].
  apply (pool_Read_returns_after_clean_writes
           (mkPooled [] 2 4) [byte_at_a_time] [region_AB; region_CD] one_by_one);
    [vm_compute; reflexivity|reflexivity].
Defined.

Lemma pool_Read_never_returns_after_write_error_witness :
  ∃ st t st',
    run one_fails
      (start (mkPooled [] 2 4) [broken; []] [region_AB; region_CD]) = Some st ∧
    tasks st !! 0%nat = Some t ∧ erred t = true ∧
    run carries_on st = Some st' ∧
    pc st' ≠ SendNil ∧ pc st' ≠ Done ∧ 0 < waiter st' ∧
    None ∉ errs_sent (log st').
Proof.
  eexists _, _, _. split; [vm_compute; reflexivity|].
  split; [reflexivity|]. split; [reflexivity|].
  split; [vm_compute; reflexivity|].
  eapply (pool_Read_never_returns_after_write_error
            (mkPooled [] 2 4) [broken; []] [region_AB; region_CD] one_fails
            _ 0%nat _) with (sched' := carries_on);
    [vm_compute; reflexivity|reflexivity|reflexivity|vm_compute; reflexivity].
Defined.


Lemma pool_without_writers_is_stuck_witness :
  ∃ st,
    run [Cancel; Main; Main; Main]
      (start (mkPooled [] 2 4) (@nil chunked) [region_AB]) = Some st ∧
    write_calls (log st) = [] ∧ puts (log st) = [] ∧ tasks st = [] ∧
    (pc st = Wait ∨ pc st = SendNil ∨ pc st = Done →
     [region_AB] = [] ∨ cancelled st = true).
Proof.
  eexists. split; [vm_compute; reflexivity|].
  apply (pool_without_writers_is_stuck
           (mkPooled [] 2 4) [region_AB] [Cancel; Main; Main; Main]).
  vm_compute; reflexivity.
Defined.

End PoolInvariantExamples.

(* ====================================================================== *)
(** * More on the fan: cancelled runs, and how long a run can be *)
(* ====================================================================== *)

Section FanUnderCancellation.
Import Fan.

Lemma start_inv_order (ls : list (list Region)) : inv_order ls (start ls).
Proof.
  intros i l src ps Hl Hsrc Hps. unfold start in *. simpl in *.
  rewrite list_lookup_fmap, Hl in Hsrc. injection Hsrc as <-.
  apply lookup_replicate in Hps as [-> _]. exists [].
  split_and!; [done|simpl; lia|done].
Qed.

Lemma accounted_flag (l : list Region) (i : nat) (o : list (nat * Region))
    (src : nested) (ps : pass_pc) (c c' : bool) :
  (c = true → c' = true) → accounted l i o src ps c → accounted l i o src ps c'.
Proof.
  intros Hc (dropped & Heq & Hlen & Hdrop). exists dropped.
  split_and!; [done|done|]. intros Hne. destruct (Hdrop Hne). auto.
Qed.

Lemma inv_order_at (ls : list (list Region)) (st : state) (i : nat)
    (pc' : main_pc) (so : list nested) (pa : list pass_pc) (w : Z)
    (o' : list (nat * Region)) (cl : bool) :
  inv_order ls st →
  (∀ j, j ≠ i → so !! j = sources st !! j) →
  (∀ j, j ≠ i → pa !! j = passes st !! j) →
  (∀ j, j ≠ i → from j o' = from j (out st)) →
  (∀ l src' ps',
     ls !! i = Some l → so !! i = Some src' → pa !! i = Some ps' →
     accounted l i o' src' ps' (cancelled st)) →
  inv_order ls (mkState pc' so pa w o' cl (cancelled st)).
Proof.
  intros Hinv Hso Hpa Hfrom Hi j l src ps Hl Hsrc Hps. simpl in *.
  destruct (decide (j = i)) as [->|Hne].
  - by apply Hi.
  - rewrite Hso in Hsrc by done. rewrite Hpa in Hps by done.
    unfold accounted. rewrite Hfrom by done. by apply Hinv.
Qed.

Lemma step_main_order (ls : list (list Region)) (st st' : state) :
  inv_sync ls st → inv_order ls st → step_main st = Some st' → inv_order ls st'.
Proof.
  intros (Hs & Hp & Hw & Hsp & Hcl & Hret) Hinv Hstep.
  unfold step_main in Hstep. unfold spawned in Hsp.
  destruct (pc st) as [i|i| |] eqn:Hpc.
  - destruct (sources st !! i) as [src|] eqn:Hsi; injection Hstep as <-;
      [|exact Hinv].
    apply (inv_order_at ls st i); try done.
    + intros j Hne. by apply list_lookup_insert_ne.
    + intros l src' ps' Hl Hsrc Hps.
      rewrite list_lookup_insert_eq in Hsrc by (by eapply lookup_lt_Some).
      injection Hsrc as <-. by apply (Hinv i l src ps').
  - destruct (passes st !! i) as [p0|] eqn:Hpi; injection Hstep as <-;
      [|exact Hinv].
    assert (p0 = NotSpawned) as -> by (by apply (Hsp i)).
    apply (inv_order_at ls st i); try done.
    + intros j Hne. by apply list_lookup_insert_ne.
    + intros l src' ps' Hl Hsrc Hps.
      rewrite list_lookup_insert_eq in Hps by (by eapply lookup_lt_Some).
      injection Hps as <-.
      destruct (Hinv i l src' NotSpawned Hl Hsrc Hpi) as (d & Heq & Hlen & Hd).
      exists d. split_and!; [done|done|]. intros Hne. by destruct (Hd Hne).
  - destruct (waiter st =? 0); [|done]. injection Hstep as <-. exact Hinv.
  - done.
Qed.

Lemma step_source_order (ls : list (list Region)) (i : nat) (st st' : state) :
  inv_order ls st → step_source i st = Some st' → inv_order ls st'.
Proof.
  intros Hinv Hstep. unfold step_source in Hstep.
  destruct (sources st !! i) as [[[] [] []]|] eqn:Hsi; try done.
  injection Hstep as <-.
  apply (inv_order_at ls st i); try done.
  - intros j Hne. by apply list_lookup_insert_ne.
  - intros l src' ps' Hl Hsrc Hps.
    rewrite list_lookup_insert_eq in Hsrc by (by eapply lookup_lt_Some).
    injection Hsrc as <-. by apply (Hinv i l _ ps' Hl Hsi Hps).
Qed.

Lemma step_pass_order (ls : list (list Region)) (i : nat) (st st' : state) :
  inv_order ls st → step_pass i st = Some st' → inv_order ls st'.
Proof.
  intros Hinv Hstep. unfold step_pass in Hstep.
  destruct (passes st !! i) as [p0|] eqn:Hpi; [|done].
  pose proof (lookup_lt_Some _ _ _ Hpi) as Hlt.
  destruct p0 as [| |curr|]; try done.
  - destruct (sources st !! i) as [[[] [|curr rest] cl]|] eqn:Hsi; try done.
    + destruct cl; [|done]. injection Hstep as <-.
      apply (inv_order_at ls st i); try done.
      * intros j Hne. by apply list_lookup_insert_ne.
      * intros l src' ps' Hl Hsrc Hps.
        rewrite list_lookup_insert_eq in Hps by done. injection Hps as <-.
        rewrite Hsi in Hsrc. injection Hsrc as <-.
        destruct (Hinv i l _ _ Hl Hsi Hpi) as (d & Heq & Hlen & Hd).
        assert (d = []) as ->.
        { destruct d; [done|]. by destruct Hd. }
        exists []. split_and!; [done|simpl; lia|done].
    + assert (∀ l, ls !! i = Some l →
                l = from i (out st) ++ curr :: rest) as Hnow.
      { intros l Hl.
        destruct (Hinv i l _ _ Hl Hsi Hpi) as (d & Heq & Hlen & Hd).
        assert (d = []) as ->.
        { destruct d; [done|]. by destruct Hd. }
        done. }
      destruct (cancelled st) eqn:Hc; injection Hstep as <-; rewrite <- Hc;
        apply (inv_order_at ls st i); try done;
        try (intros j Hne; by apply list_lookup_insert_ne);
        intros l src' ps' Hl Hsrc Hps;
        rewrite list_lookup_insert_eq in Hps by done; injection Hps as <-;
        rewrite list_lookup_insert_eq in Hsrc by (by eapply lookup_lt_Some);
        injection Hsrc as <-; rewrite (Hnow l Hl).
      * exists [curr]. simpl. split_and!; [done|lia|done].
      * exists []. simpl. split_and!; [done|lia|done].
  - assert (st' = mkState (pc st) (sources st) (<[i := Receiving]> (passes st))
                    (waiter st) (out st ++ [(i, curr)]) (sink_closed st)
                    (cancelled st)) as ->.
    { destruct (sources st !! i); by injection Hstep as <-. }
    apply (inv_order_at ls st i); try done.
    + intros j Hne. by apply list_lookup_insert_ne.
    + intros j Hne. rewrite from_snoc. rewrite decide_False by done.
      by rewrite app_nil_r.
    + intros l src' ps' Hl Hsrc Hps.
      rewrite list_lookup_insert_eq in Hps by done. injection Hps as <-.
      destruct (Hinv i l _ _ Hl Hsrc Hpi) as (d & Heq & Hlen & Hd).
      assert (d = []) as ->.
      { destruct d; [done|]. by destruct Hd. }
      exists []. split_and!; [|simpl; lia|done].
      rewrite from_snoc, decide_True by done. simpl in *.
      by rewrite <- app_assoc.
Qed.

Lemma step_order (ls : list (list Region)) (c : choice) (st st' : state) :
  inv_sync ls st → inv_order ls st → step c st = Some st' → inv_order ls st'.
Proof.
  intros Hsync Hinv. destruct c as [|i|i|]; simpl.
  - by apply step_main_order.
  - by apply step_source_order.
  - by apply step_pass_order.
  - intros [= <-] i l src ps Hl Hsrc Hps. simpl in *.
    apply (accounted_flag _ _ _ _ _ (cancelled st)); [done|by apply Hinv].
Qed.

Lemma run_order (ls : list (list Region)) (sched : list choice) :
  ∀ st st',
    inv_sync ls st → inv_order ls st → run sched st = Some st' →
    inv_order ls st'.
Proof.
  induction sched as [|c sched IH]; intros st st' Hsync Hinv Hrun;
    simpl in Hrun.
  { by injection Hrun as <-. }
  destruct (step c st) as [st1|] eqn:Hstep; [|done].
  apply (IH st1); [by eapply step_sync|by eapply step_order|done].
Qed.

Lemma run_live (sched : list choice) :
  ∀ st st', inv_live st → run sched st = Some st' → inv_live st'.
Proof.
  induction sched as [|c sched IH]; intros st st' Hinv Hrun; simpl in Hrun.
  { by injection Hrun as <-. }
  destruct (step c st) as [st1|] eqn:Hstep; [|done].
  apply (IH st1); [by eapply step_live|done].
Qed.

(** Cancelled or not, a fan whose shared output is still open has a
    goroutine that can move. *)
Lemma progress_cancelled (ls : list (list Region)) (st : state) :
  inv_sync ls st → inv_live st → sink_closed st = false →
  ∃ c st', is_move c = true ∧ step c st = Some st'.
Proof.
  intros (Hs & Hp & Hw & Hsp & Hcl & Hret) [Hstarted Hclosed] Hopen.
  destruct (pc st) as [i|i| |] eqn:Hpc.
  - exists Main. simpl. unfold step_main. rewrite Hpc.
    destruct (sources st !! i); by eexists.
  - exists Main. simpl. unfold step_main. rewrite Hpc.
    destruct (passes st !! i); by eexists.
  - destruct (Z.eqb_spec (waiter st) 0) as [Hzero|Hbusy].
    { exists Main. simpl. unfold step_main. rewrite Hpc.
      apply Z.eqb_eq in Hzero. rewrite Hzero. by eexists. }
    rewrite Hw in Hbusy.
    destruct (actives_pos _ Hbusy) as (i & ps & Hi & Hact).
    pose proof (lookup_lt_Some _ _ _ Hi) as Hlt.
    destruct (lookup_lt_is_Some_2 (sources st) i ltac:(lia)) as [src Hsrc].
    pose proof (Hstarted i src Hsrc) as Hrunning.
    destruct src as [st0 pend cl]. simpl in Hrunning. subst st0.
    destruct ps as [| |curr|]; simpl in Hact; try done.
    + destruct pend as [|curr rest].
      * destruct cl.
        -- exists (Pass i). simpl. unfold step_pass. rewrite Hi, Hsrc.
           by eexists.
        -- exists (Source i). simpl. unfold step_source. rewrite Hsrc.
           by eexists.
      * exists (Pass i). simpl. unfold step_pass. rewrite Hi, Hsrc.
        destruct (cancelled st); by eexists.
    + exists (Pass i). simpl. unfold step_pass. rewrite Hi, ?Hsrc. by eexists.
  - by rewrite Hclosed in Hopen.
Qed.

Lemma is_move_spec (c : choice) : is_move c = true ↔ c ≠ Cancel.
Proof. by destruct c. Qed.

Lemma moves_cons (c : choice) (sched : list choice) :
  moves (c :: sched) = ((if is_move c then 1 else 0) + moves sched)%nat.
Proof.
  unfold moves. rewrite filter_cons. destruct (is_move c) eqn:Hc.
  - by rewrite decide_True.
  - by rewrite decide_False.
Qed.

Lemma finishes_from (ls : list (list Region)) (n : nat) :
  ∀ st, (measure st ≤ n)%nat → inv_sync ls st → inv_live st →
    ∃ sched st', run sched st = Some st' ∧ sink_closed st' = true ∧
                 moves sched = length sched ∧
                 (length sched ≤ measure st)%nat ∧
                 cancelled st' = cancelled st.
Proof.
  induction n as [|n IH]; intros st Hn Hsync Hliv;
    (destruct (sink_closed st) eqn:Hopen;
       [exists [], st; split_and!; try done; simpl; lia|]);
    destruct (progress_cancelled ls st Hsync Hliv Hopen) as (c & st1 & Hc & Hstep);
    pose proof (step_measure ls c st st1 Hsync (proj1 (is_move_spec c) Hc) Hstep)
      as Hless.
  { lia. }
  destruct (IH st1) as (sched & st' & Hrun & Hdone & Hmoves & Hlen & Hflag).
  - lia.
  - by eapply step_sync.
  - by eapply step_live.
  - exists (c :: sched), st'. simpl. rewrite Hstep, moves_cons, Hc.
    split_and!; [done|done|lia|lia|].
    rewrite Hflag. apply (step_keeps_flag c); [by apply is_move_spec|done].
Qed.

Lemma measure_cancel (st st' : state) :
  step_cancel st = Some st' → measure st' = measure st.
Proof. intros [= <-]. unfold measure, main_weight. simpl. done. Qed.

Lemma run_moves (ls : list (list Region)) (sched : list choice) :
  ∀ st st', inv_sync ls st → run sched st = Some st' →
            (moves sched + measure st' ≤ measure st)%nat.
Proof.
  induction sched as [|c sched IH]; intros st st' Hsync Hrun; simpl in Hrun.
  { injection Hrun as <-. unfold moves. simpl. lia. }
  destruct (step c st) as [st1|] eqn:Hstep; [|done].
  specialize (IH st1 st' ltac:(by eapply step_sync) Hrun).
  rewrite moves_cons. destruct (is_move c) eqn:Hc.
  - pose proof (step_measure ls c st st1 Hsync (proj1 (is_move_spec c) Hc) Hstep).
    lia.
  - destruct c; try done. simpl in Hstep.
    rewrite <- (measure_cancel st st1 Hstep). lia.
Qed.

Lemma weigh_nested_start (ls : list (list Region)) :
  weigh nested_weight ((λ l, mkNested false l false) <$> ls)
  = (2 * length (concat ls) + length ls)%nat.
Proof.
  induction ls as [|l ls IH]; [done|].
  unfold weigh in *. rewrite fmap_cons. cbn [foldr concat].
  rewrite IH, length_app. unfold nested_weight. cbn [pending closed length].
  lia.
Qed.

Lemma weigh_pass_start (n : nat) :
  weigh pass_weight (replicate n NotSpawned) = n.
Proof. induction n as [|n IH]; simpl; [done|]. by rewrite IH. Qed.

Lemma measure_start (ls : list (list Region)) : measure (start ls) = bound ls.
Proof.
  unfold measure, main_weight, bound.
  change (pc (start ls)) with (FanOut 0).
  change (sources (start ls)) with ((λ l, mkNested false l false) <$> ls).
  change (passes (start ls)) with (replicate (length ls) NotSpawned).
  cbv beta iota.
  rewrite weigh_nested_start, weigh_pass_start, length_fmap, length_replicate.
  lia.
Qed.

(** In every run of the fan, cancelled or not, what forwarder [i] has put
    on the shared output is a prefix of what nested producer [i] emits, in
    its order.  The Regions not yet delivered are the one the forwarder
    holds, those the producer has still to send and, after a cancellation
    only, the one Region that the forwarder received, found the context
    cancelled, and dropped when it returned. *)
Theorem fan_forwards_a_prefix_of_each_source (ls : list (list Region))
    (sched : list choice) (st : state) (i : nat) (l : list Region) :
  run sched (start ls) = Some st →
  ls !! i = Some l →
  from i (out st) `prefix_of` l ∧
  ∃ src ps dropped,
    sources st !! i = Some src ∧ passes st !! i = Some ps ∧
    l = from i (out st) ++ held ps ++ dropped ++ pending src ∧
    (length dropped ≤ 1)%nat ∧
    (dropped ≠ [] → ps = Finished ∧ cancelled st = true).
Proof.
  intros Hrun Hl.
  pose proof (run_sync ls sched _ _ (start_inv_sync ls) Hrun) as Hsync.
  pose proof (run_order ls sched _ _ (start_inv_sync ls) (start_inv_order ls)
                Hrun) as Horder.
  destruct Hsync as (Hs & Hp & _).
  pose proof (lookup_lt_Some _ _ _ Hl) as Hlt.
  destruct (lookup_lt_is_Some_2 (sources st) i ltac:(lia)) as [src Hsrc].
  destruct (lookup_lt_is_Some_2 (passes st) i ltac:(lia)) as [ps Hps].
  destruct (Horder i l src ps Hl Hsrc Hps) as (d & Heq & Hlen & Hd).
  split; [by eexists|]. by exists src, ps, d.
Qed.

(** From every state a run of the fan can reach, cancelled or not, the
    goroutines can go on, without any further cancellation, until
    [fan.Write] has returned and closed the shared output: the fan-in has
    no deadlock (given nested producers that emit finitely many Regions and
    close, and a consumer that keeps receiving).  The way there is no
    longer than what is left of the bound on the run. *)
Theorem fan_Write_can_always_finish (ls : list (list Region))
    (sched : list choice) (st : state) :
  run sched (start ls) = Some st →
  ∃ sched' st',
    run sched' st = Some st' ∧
    sink_closed st' = true ∧ pc st' = Returned ∧
    moves sched' = length sched' ∧
    (moves sched + length sched' ≤ bound ls)%nat ∧
    cancelled st' = cancelled st.
Proof.
  intros Hrun.
  pose proof (run_sync ls sched _ _ (start_inv_sync ls) Hrun) as Hsync.
  pose proof (run_live sched _ _ (start_inv_live ls) Hrun) as Hlive.
  pose proof (run_moves ls sched _ _ (start_inv_sync ls) Hrun) as Hsteps.
  rewrite measure_start in Hsteps.
  destruct (finishes_from ls (measure st) st) as
    (sched' & st' & Hrun' & Hdone & Hmoves & Hlen & Hflag); try done.
  exists sched', st'. split_and!; try done; [|lia].
  pose proof (run_sync ls sched' _ _ Hsync Hrun') as (_ & _ & _ & _ & Hcl & _).
  by apply Hcl.
Qed.

End FanUnderCancellation.

Section FanUnderCancellationExamples.
Import Fan.

(** In the run that is cut short, A's first Region is delivered; A's second
    and B's first were received by the forwarders and dropped; the rest
    stays with the producers. *)
Example cut_short_drops :
  (λ st, (delivered st, pending <$> sources st, passes st, waiter st))
    <$> run cut_short (start [from_A; from_B]) =
  Some ([mkRegion (replicate 10 x41) 0],
        [[mkRegion (replicate 10 x4a) 90]; [mkRegion (replicate 10 x48) 70]],
        [Finished; Finished], 0).
Proof. vm_compute; reflexivity. Qed.

Lemma fan_forwards_a_prefix_of_each_source_witness :
  ∃ st, run cut_short (start [from_A; from_B]) = Some st ∧
    [from_A; from_B] !! 0%nat = Some from_A ∧
    from 0 (out st) `prefix_of` from_A ∧
    ∃ src ps dropped,
      sources st !! 0%nat = Some src ∧ passes st !! 0%nat = Some ps ∧
      from_A = from 0 (out st) ++ held ps ++ dropped ++ pending src ∧
      (length dropped ≤ 1)%nat ∧
      (dropped ≠ [] → ps = Finished ∧ cancelled st = true).
Proof.
  eexists. split; [vm_compute; reflexivity|]. split; [reflexivity|].
  apply (fan_forwards_a_prefix_of_each_source [from_A; from_B] cut_short);
    [vm_compute; reflexivity|reflexivity].
Defined.

Lemma fan_Write_can_always_finish_witness :
  ∃ st, run cut_short (start [from_A; from_B]) = Some st ∧
    ∃ sched' st',
      run sched' st = Some st' ∧
      sink_closed st' = true ∧ pc st' = Returned ∧
      moves sched' = length sched' ∧
      (moves cut_short + length sched' ≤ bound [from_A; from_B])%nat ∧
      cancelled st' = cancelled st.
Proof.
  eexists. split; [vm_compute; reflexivity|].
  apply (fan_Write_can_always_finish [from_A; from_B] cut_short).
  vm_compute; reflexivity.
Defined.

End FanUnderCancellationExamples.

(* ====================================================================== *)
(** * The writer-pool consumer when no write fails *)
(* ====================================================================== *)

Section PoolLiveness.
Import Buffer Sink Pool.
Context {W B : Type} `{WriterAt W} `{Buffer B}.

(** The writers of the pool: on a non-empty slice they take at least one
    byte and report no error, and go on doing so. *)
Variable good : W → Prop.
Hypothesis good_writes :
  ∀ (w : W) (p : bytes) (o : Z),
    good w → p ≠ [] →
    (WriteAt w p o).1.2 = None ∧ (0 < (WriteAt w p o).1.1)%nat ∧
    good (WriteAt w p o).2.

Lemma pool_start_clean (b : B) (ws : list W) (src : list Region) :
  Forall good ws → inv_clean good (start b ws src).
Proof. intros Hws. unfold inv_clean, start. simpl. by split_and!. Qed.

Lemma work_insert (ts : list (task W)) (i : nat) (x y : task W) :
  ts !! i = Some x →
  (work (<[i := y]> ts) + task_weight x = work ts + task_weight y)%nat.
Proof.
  revert i. induction ts as [|z ts IH]; intros [|i] Hi; simpl in *; try done.
  - injection Hi as ->. lia.
  - specialize (IH i Hi). unfold work in *. lia.
Qed.

Lemma work_app (ts1 ts2 : list (task W)) :
  work (ts1 ++ ts2) = (work ts1 + work ts2)%nat.
Proof.
  induction ts1 as [|z ts1 IH]; simpl; [done|]. unfold work in *. lia.
Qed.

Lemma length_rest (p : bytes) (written : Z) :
  0 ≤ written < len p →
  drop (Z.to_nat written) p ≠ [] ∧
  len (drop (Z.to_nat written) p) = len p - written.
Proof.
  intros Hw. unfold len in *.
  assert (length (drop (Z.to_nat written) p)
          = (length p - Z.to_nat written)%nat) as Hlen by apply length_drop.
  split; [|lia]. intros Hnil. rewrite Hnil in Hlen. simpl in Hlen. lia.
Qed.

(** What a write of a steady task does. *)
Lemma steady_write (t : task W) (written : Z) :
  steady good t → at_pc t = Writing written →
  written < len (Data (data t)) →
  ∃ n w',
    WriteAt (writer t) (drop (Z.to_nat written) (Data (data t))) (Off (data t))
      = ((n, None), w') ∧
    (0 < n)%nat ∧ written + Z.of_nat n ≤ len (Data (data t)) ∧ good w'.
Proof.
  intros [Hgood Hpc] Hat Hlt. rewrite Hat in Hpc.
  destruct (length_rest (Data (data t)) written ltac:(lia)) as [Hne Hlen].
  destruct (good_writes (writer t) _ (Off (data t)) Hgood Hne)
    as (Herr & Hpos & Hnext).
  pose proof (WriteAt_le (writer t) (drop (Z.to_nat written) (Data (data t)))
                (Off (data t))) as Hle.
  destruct (WriteAt (writer t) _ (Off (data t))) as [[n err] w'].
  simpl in *. subst err. exists n, w'. split_and!; try done.
  unfold len in *. lia.
Qed.

Lemma pool_step_clean (c : choice) (st st' : state W B) :
  inv_clean good st → step c st = Some st' → inv_clean good st'.
Proof.
  intros (Hcap & Herrs & Hws & Hts) Hstep. unfold inv_clean.
  destruct c as [|i| |]; simpl in Hstep.
  - unfold step_main in Hstep.
    destruct (pc st) as [|d| | |] eqn:Hpc.
    + destruct (source st) as [|d rest]; [|destruct (cancelled st)];
        injection Hstep as <-; simpl; split_and!; try done;
        intros _; by apply Herrs.
    + destruct (writers st) as [|wr idle] eqn:Hidle; [done|].
      injection Hstep as <-. simpl.
      apply Forall_cons in Hws as [Hwr Hidle'].
      split_and!; try done.
      * intros _. by apply Herrs.
      * apply Forall_app. split; [done|]. apply Forall_singleton.
        split; [done|]. simpl. unfold len. lia.
    + destruct (waiter st =? 0); [|done]. injection Hstep as <-. simpl.
      split_and!; try done. intros _. by apply Herrs.
    + unfold send_errs in Hstep.
      destruct (length (errs st) <? errs_cap st)%nat; [|done].
      injection Hstep as <-. simpl. by split_and!.
    + done.
  - unfold step_task in Hstep.
    destruct (tasks st !! i) as [t|] eqn:Ht; [|done].
    pose proof (proj1 (Forall_lookup _ _) Hts i t Ht) as Hsteady.
    destruct (at_pc t) as [written|e|rel] eqn:Hat; [| |done].
    + destruct (Z.ltb_spec written (len (Data (data t)))) as [Hlt|Hge].
      * destruct (steady_write t written Hsteady Hat Hlt)
          as (n & w' & Hwrite & Hpos & Hle & Hnext).
        rewrite Hwrite in Hstep. injection Hstep as <-. simpl.
        split_and!; try done. apply Forall_insert; [done|].
        split; [done|]. simpl. destruct Hsteady as [_ Hpc].
        rewrite Hat in Hpc. lia.
      * injection Hstep as <-. simpl. destruct Hsteady as [Hgood _].
        split_and!; try done.
        -- apply Forall_app. split; [done|]. by apply Forall_singleton.
        -- apply Forall_insert; [done|]. by split.
    + destruct Hsteady as [_ Hpc]. by rewrite Hat in Hpc.
  - unfold step_orchestrator in Hstep.
    destruct (result st); [done|]. destruct (errs st) as [|v q] eqn:Hq; [done|].
    injection Hstep as <-. simpl. split_and!; try done.
    intros Hpc. by specialize (Herrs Hpc).
  - injection Hstep as <-. simpl. by split_and!.
Qed.

Lemma pool_run_clean (sched : list choice) :
  ∀ st st' : state W B,
    inv_clean good st → run sched st = Some st' → inv_clean good st'.
Proof.
  induction sched as [|c sched IH]; intros st st' Hinv Hrun; simpl in Hrun.
  { by injection Hrun as <-. }
  destruct (step c st) as [st1|] eqn:Hstep; [|done].
  eapply IH; [|done]. by eapply pool_step_clean.
Qed.

(** A step of [Read] or of a steady task uses up some of the measure. *)
Lemma pool_step_measure (c : choice) (st st' : state W B) :
  inv_clean good st → (c = Main ∨ ∃ i, c = Task i) →
  step c st = Some st' →
  (measure st' < measure st)%nat ∧ cancelled st' = cancelled st.
Proof.
  intros (Hcap & Herrs & Hws & Hts) Hc Hstep.
  destruct Hc as [->|[i ->]]; simpl in Hstep.
  - unfold step_main in Hstep. unfold measure, main_weight.
    destruct (pc st) as [|d| | |] eqn:Hpc.
    + destruct (source st) as [|d rest]; [|destruct (cancelled st) eqn:Hc];
        injection Hstep as <-; simpl; split; try done; lia.
    + destruct (writers st) as [|wr idle]; [done|].
      injection Hstep as <-. simpl. split; [|done].
      rewrite work_app. simpl. unfold task_weight. simpl.
      unfold len. lia.
    + destruct (waiter st =? 0); [|done]. injection Hstep as <-. simpl.
      split; [lia|done].
    + destruct (send_errs st None) as [[q lg]|]; [|done].
      injection Hstep as <-. simpl. split; [lia|done].
    + done.
  - unfold step_task in Hstep.
    destruct (tasks st !! i) as [t|] eqn:Ht; [|done].
    pose proof (proj1 (Forall_lookup _ _) Hts i t Ht) as Hsteady.
    assert (∀ t', (task_weight t' < task_weight t)%nat →
              (main_weight st + work (<[i := t']> (tasks st))
               < main_weight st + work (tasks st))%nat) as Hless.
    { intros t' Hlt. pose proof (work_insert _ i t t' Ht). lia. }
    destruct (at_pc t) as [written|e|rel] eqn:Hat; [| |done].
    + destruct (Z.ltb_spec written (len (Data (data t)))) as [Hlt|Hge].
      * destruct (steady_write t written Hsteady Hat Hlt)
          as (n & w' & Hwrite & Hpos & Hle & Hnext).
        rewrite Hwrite in Hstep. injection Hstep as <-.
        unfold measure, main_weight. simpl. split; [|done].
        apply Hless. unfold task_weight. rewrite Hat. simpl. lia.
      * injection Hstep as <-. unfold measure, main_weight. simpl.
        split; [|done]. apply Hless. unfold task_weight. rewrite Hat.
        simpl. lia.
    + destruct Hsteady as [_ Hpc]. by rewrite Hat in Hpc.
Qed.

Lemma tally_find {A} (f : A → bool) (l : list A) :
  (0 < tally f l)%nat → ∃ i x, l !! i = Some x ∧ f x = true.
Proof.
  induction l as [|z l IH]; simpl; [lia|]. intros Hpos.
  destruct (f z) eqn:Hz; [by exists 0%nat, z|].
  destruct (IH ltac:(lia)) as (i & x & Hi & Hx). by exists (S i), x.
Qed.

(** A steady task that has not released its writer can move. *)
Lemma steady_task_moves (st : state W B) :
  inv_clean good st → (0 < tally in_flight (tasks st))%nat →
  ∃ i st', step (Task i) st = Some st'.
Proof.
  intros (Hcap & Herrs & Hws & Hts) Hpos.
  destruct (tally_find _ _ Hpos) as (i & t & Ht & Hfly).
  pose proof (proj1 (Forall_lookup _ _) Hts i t Ht) as Hsteady.
  exists i. simpl. unfold step_task. rewrite Ht.
  destruct (at_pc t) as [written|e|rel] eqn:Hat.
  - destruct (written <? len (Data (data t)));
      [destruct (WriteAt (writer t) _ (Off (data t))) as [[n err] w']|];
      by eexists.
  - destruct Hsteady as [_ Hpc]. by rewrite Hat in Hpc.
  - destruct Hsteady as [_ Hpc]. rewrite Hat in Hpc. subst rel.
    unfold in_flight in Hfly. by rewrite Hat in Hfly.
Qed.

Lemma pool_progress (m : nat) (st : state W B) :
  (0 < m)%nat → inv_sync m st → inv_clean good st → pc st ≠ Done →
  ∃ c st', (c = Main ∨ ∃ i, c = Task i) ∧ step c st = Some st'.
Proof.
  intros Hm (Hw & Hwait & Hend & Herr & Hnil) Hclean Hpc.
  pose proof Hclean as (Hcap & Herrs & Hws & Hts).
  assert ((0 < tally in_flight (tasks st))%nat →
          ∃ c st', (c = Main ∨ ∃ i, c = Task i) ∧ step c st = Some st')
    as Htask.
  { intros Hpos. destruct (steady_task_moves st Hclean Hpos) as (i & st' & Hstep).
    exists (Task i), st'. split; [right; by exists i|done]. }
  destruct (pc st) as [|d| | |] eqn:Hat.
  - exists Main. simpl. unfold step_main. rewrite Hat.
    destruct (source st); [|destruct (cancelled st)]; eexists; by split; [left|].
  - destruct (writers st) as [|wr idle] eqn:Hidle.
    + apply Htask. simpl in Hw. lia.
    + exists Main. simpl. unfold step_main. rewrite Hat, Hidle.
      eexists; by split; [left|].
  - destruct (Z.eqb_spec (waiter st) 0) as [Hzero|Hbusy].
    + exists Main. simpl. unfold step_main. rewrite Hat.
      apply Z.eqb_eq in Hzero. rewrite Hzero. eexists; by split; [left|].
    + apply Htask. unfold len in Hwait. simpl in Hwait. lia.
  - exists Main. simpl. unfold step_main, send_errs. rewrite Hat.
    rewrite (Herrs ltac:(done)), Hcap. simpl. eexists; by split; [left|].
  - done.
Qed.

Lemma pool_done_or_not (st : state W B) : pc st = Done ∨ pc st ≠ Done.
Proof. destruct (pc st); auto. Qed.

Lemma pool_finishes_from (m n : nat) :
  (0 < m)%nat →
  ∀ st : state W B, (measure st ≤ n)%nat → inv_sync m st → inv_clean good st →
    ∃ sched st', run sched st = Some st' ∧ pc st' = Done ∧
                 cancelled st' = cancelled st ∧
                 Forall (λ c, c = Main ∨ ∃ i, c = Task i) sched ∧
                 (length sched ≤ measure st)%nat.
Proof.
  intros Hm. induction n as [|n IH]; intros st Hn Hsync Hclean;
    (destruct (pool_done_or_not st) as [Hdone|Hnot];
       [exists [], st; split_and!; try done; simpl; lia|]);
    destruct (pool_progress m st Hm Hsync Hclean Hnot) as (c & st1 & Hc & Hstep);
    destruct (pool_step_measure c st st1 Hclean Hc Hstep) as [Hless Hflag].
  { lia. }
  destruct (IH st1) as (sched & st' & Hrun & Hdone & Hflag' & Hall & Hlen).
  - lia.
  - by eapply pool_step_sync.
  - by eapply pool_step_clean.
  - exists (c :: sched), st'. simpl. rewrite Hstep.
    split_and!; [done|done|congruence|by apply Forall_cons|lia].
Qed.

Lemma pool_done_sent_nil (m : nat) (st : state W B) :
  inv_sync m st → pc st = Done → errs_sent (log st) = [None].
Proof.
  intros (Hw & Hwait & Hend & Herr & Hnil) Hpc.
  rewrite Hpc in *. specialize (Hend (or_intror eq_refl)).
  apply only_nil; [|done]. rewrite Herr.
  assert (tally failed (tasks st) ≤ tally in_flight (tasks st))%nat; [|lia].
  apply tally_le. intros t. unfold failed, in_flight.
  by destruct (at_pc t) as [| |[|]].
Qed.

(** With at least one writer, and writers whose writes take at least one
    byte and never fail, [pool.Read] can run to its return from every
    state a run can reach, cancelled or not, by steps of [Read] and of its
    tasks alone; it has then sent nil, and only that.  The terminal-signal
    channel is the one of capacity 1 that [Pipe.Pipe] makes, and nobody
    else sends on it. *)
Theorem pool_Read_can_finish_when_writes_succeed
    (b : B) (ws : list W) (src : list Region) (sched : list choice)
    (st : state W B) :
  ws ≠ [] → Forall good ws →
  run sched (start b ws src) = Some st →
  ∃ sched' st',
    run sched' st = Some st' ∧ pc st' = Done ∧
    errs_sent (log st') = [None] ∧
    Forall (λ c, c = Main ∨ ∃ i, c = Task i) sched' ∧
    cancelled st' = cancelled st.
Proof.
  intros Hne Hgood Hrun.
  assert (0 < length ws)%nat as Hm by (destruct ws; [done|simpl; lia]).
  pose proof (pool_run_sync _ _ _ _ (pool_start_sync b ws src) Hrun) as Hsync.
  pose proof (pool_run_clean _ _ _ (pool_start_clean b ws src Hgood) Hrun)
    as Hclean.
  destruct (pool_finishes_from (length ws) (measure st) Hm st)
    as (sched' & st' & Hrun' & Hdone & Hflag & Hall & _); try done.
  exists sched', st'. split_and!; try done.
  apply (pool_done_sent_nil (length ws)); [|done].
  by apply (pool_run_sync _ sched' st).
Qed.

End PoolLiveness.

Section PoolLivenessExamples.
Import Buffer Sink Pool.

Lemma pool_Read_can_finish_when_writes_succeed_witness :
  ∃ st,
    run half_way
      (start (mkPooled [] 2 4) [byte_at_a_time] [region_AB; region_CD])
      = Some st ∧
    ∃ sched' st',
      run sched' st = Some st' ∧ pc st' = Done ∧
      errs_sent (log st') = [None] ∧
      Forall (λ c, c = Main ∨ ∃ i, c = Task i) sched' ∧
      cancelled st' = cancelled st.
Proof.
  eexists. split; [vm_compute; reflexivity|].
  apply (pool_Read_can_finish_when_writes_succeed
           (λ c : chunked, (0 < chunk c)%nat)) with
    (b := mkPooled [] 2 4) (ws := [byte_at_a_time])
    (src := [region_AB; region_CD]) (sched := half_way).
  - intros w p o Hchunk Hp. simpl. split_and!; [done| |done].
    destruct p as [|x p]; [done|]. destruct (chunk w); simpl; lia.
  - done.
  - apply Forall_singleton. simpl. lia.
  - vm_compute; reflexivity.
Defined.

End PoolLivenessExamples.
